(** * by-key: grouping, counting and indexing ranges by a derived key

    A shallow embedding of [include/by-key/by_key.hpp] and of the example
    programs that call it ([examples/], [unnamed/]), the properties its
    specification states about it, and further properties of the library
    and of the programs.

    Modelling decisions, in the order the header needs them:

    - A range is a finite [list] of elements, visited front to back by the
      range-[for] loops.  An element may be a plain value or a reference
      into storage that the callables can read and write; storage of that
      kind lives in the state threaded through every call.
    - Every caller-supplied callable (key, value, order and predicate
      projections, reducers, [combine]) is C++ code that may read and write
      captured state and may throw.  It is a computation in the monad
      [M St Exn]: it takes the current state and either returns a value or
      throws, with the state it left behind in both cases.
    - [std::unordered_map<K, V>] is [gmap K V].  Iteration order of the
      hash map is unspecified in C++; [map_to_list] stands for it, and the
      results proved about the ordering helpers do not depend on it.
    - [std::size_t] counters are [nat]: a counter is bumped once per
      element of an in-memory sequence, whose length [std::size_t] can
      always represent.
    - [try_reserve] only changes the capacity of a container, which none
      of the results can observe: it returns its map unchanged.
    - In the example programs an [int] is an integer of [Z] and
      [static_cast<int>] keeps the low 32 bits; arithmetic on [int] is
      that of [Z], and the theorems about these programs assume arrays
      short enough for no [int] to overflow.  [std::sort] is [sort], and a
      loop over an [unordered_map] visits [map_to_list] of it. *)

From Stdlib Require Import ZArith.
From stdpp Require Import base option list gmap strings sorting.

(** ** Effects of the caller's callables *)

Inductive outcome (St Exn A : Type) : Type :=
| Ret (a : A) (s : St)
| Throw (e : Exn) (s : St).
Arguments Ret {St Exn A} a s.
Arguments Throw {St Exn A} e s.

Definition M (St Exn A : Type) : Type := St → outcome St Exn A.

Definition ret {St Exn A} (a : A) : M St Exn A := fun s => Ret a s.

Definition bind {St Exn A B} (m : M St Exn A) (f : A → M St Exn B) : M St Exn B :=
  fun s => match m s with
           | Ret a s' => f a s'
           | Throw e s' => Throw e s'
           end.

Notation "'let*' x ':=' m 'in' k" := (bind m (fun x => k))
  (at level 10, x name, m at level 100, k at level 200,
   format "'[' 'let*'  x  :=  m  'in' ']'  '/' k").

(** [for (auto&& x : r) body]: the loop state [st] is whatever the body
    updates (the map being built); an exception leaves the loop. *)
Fixpoint for_each {St Exn A B} (body : B → A → M St Exn B) (r : list A) (st : B)
  : M St Exn B :=
  match r with
  | [] => ret st
  | x :: r' => let* st' := body st x in for_each body r' st'
  end.

(** A projection without effects: a plain function of the element. *)
Definition pure_proj {St Exn A B} (f : A → B) : A → M St Exn B :=
  fun x => ret (f x).

(** ** namespace detail *)

Module detail.

Definition try_reserve {Map : Type} (m : Map) (n : nat) : Map := m.

Definition size_hint {A} (r : list A) (expected : nat) : nat :=
  match expected with
  | O => length r
  | _ => expected
  end.

(** What [sum_traits<T>] asks of [T]: value-initialisation [T{}] and [+=]. *)
Class Numeric (T : Type) := { zero : T; add : T → T → T }.

Record extrema_state (Value Order : Type) := ExtremaState {
  min_value : Value;
  min_order : Order;
  max_value : Value;
  max_order : Order
}.
Arguments ExtremaState {Value Order}.
Arguments min_value {Value Order}.
Arguments min_order {Value Order}.
Arguments max_value {Value Order}.
Arguments max_order {Value Order}.

Global Instance Z_numeric : Numeric Z := {| zero := 0%Z; add := Z.add |}.

(** [has_finalize<Traits, Acc>] is decided by the type of the traits
    object; without [finalize] the result type is the accumulator type. *)
Inductive finalizer (Acc : Type) : Type → Type :=
| NoFinalize : finalizer Acc Acc
| Finalize {R : Type} (f : Acc → R) : finalizer Acc R.
Arguments NoFinalize {Acc}.
Arguments Finalize {Acc R} f.

Section Detail.
Context {St Exn : Type}.
Context {E : Type} `{Countable K}.

(** A traits object: [identity()], [combine(acc, v)] and the optional
    [finalize(acc)].  [combine] is handed the accumulator by reference and
    what it returns is discarded: [combine t acc v] is the content that
    the call leaves in the accumulator. *)
Record traits (Acc V R : Type) := Traits {
  identity : Acc;
  combine : Acc → V → M St Exn Acc;
  finalize : finalizer Acc R
}.
Global Arguments Traits {Acc V R}.
Global Arguments identity {Acc V R}.
Global Arguments combine {Acc V R}.
Global Arguments finalize {Acc V R}.

Definition sum_traits {T} `{Numeric T} : traits T T T :=
  {| identity := zero;
     combine := fun acc v => ret (add acc v);
     finalize := NoFinalize |}.

Definition basic_transform_traits {Acc V} (init : Acc)
    (combine_op : Acc → V → M St Exn Acc) : traits Acc V Acc :=
  {| identity := init;
     combine := fun acc v => combine_op acc v;
     finalize := NoFinalize |}.

Definition apply_finalize {Acc R} (f : finalizer Acc R)
    : gmap K Acc → gmap K R :=
  match f in finalizer _ R0 return gmap K Acc → gmap K R0 with
  | NoFinalize => fun accs => accs
  | Finalize g => fun accs => g <$> accs
  end.

Definition transform_reduce_by_impl {V Acc R} (r : list E)
    (key : E → M St Exn K) (value : E → M St Exn V)
    (t : traits Acc V R) (expected_unique : nat) : M St Exn (gmap K R) :=
  let accs := try_reserve (∅ : gmap K Acc) (size_hint r expected_unique) in
  let* accs := for_each (fun accs x =>
            let* key_value := key x in
            let* value_copy := value x in
            let acc := default (identity t) (accs !! key_value) in
            let* acc' := combine t acc value_copy in
            ret (<[key_value := acc']> accs)) r accs in
  ret (apply_finalize (finalize t) accs).
End Detail.

End detail.
Import detail.

(** [r | p] and [p(r)] both hand the range to the stored function. *)
Definition pipe {R A} (r : R) (p : R → A) : A := p r.

(** ** Result records *)

Record extrema_result (Value : Type) := ExtremaResult {
  min : Value;
  max : Value
}.
Arguments ExtremaResult {Value}.
Arguments min {Value}.
Arguments max {Value}.

Record partition_result (Value : Type) := PartitionResult {
  falses : list Value;
  trues : list Value
}.
Arguments PartitionResult {Value}.
Arguments falses {Value}.
Arguments trues {Value}.

(** [acc = std::plus<>{}(acc, v)] for an accumulator of type [T] and a
    value of type [V]: the sum, converted to [T] by the assignment.  For
    an accumulator of the value type it is [+]. *)
Class PlusAssign (T V : Type) := plus_assign : T → V → T.

Global Instance numeric_plus_assign `{Numeric T} : PlusAssign T T := add.

(** ** Core algorithms *)

Section Core.
Context {St Exn : Type}.
Context {E : Type} `{Countable K}.
Local Abbreviation M := (M St Exn).

(** [++freq[key_proj(x)]] *)
Definition count_by (r : list E) (key : E → M K) (expected_unique : nat)
    : M (gmap K nat) :=
  let freq := try_reserve (∅ : gmap K nat) (size_hint r expected_unique) in
  for_each (fun freq x =>
    let* key_value := key x in
    ret (<[key_value := S (default 0 (freq !! key_value))]> freq)) r freq.

(** [m[k] = v] replaces, [m.emplace(k, v)] keeps an entry that is there.
    [overwrite] is [None] when the caller omits the flag. *)
Definition index_by_into {V} (r : list E) (key : E → M K) (val : E → M V)
    (m : gmap K V) (overwrite : option bool) : M (gmap K V) :=
  let overwrite := default true overwrite in
  let m := try_reserve m (length r) in
  for_each (fun m x =>
    let* key_value := key x in
    let* val_value := val x in
    ret (if overwrite then <[key_value := val_value]> m
         else match m !! key_value with
              | Some _ => m
              | None => <[key_value := val_value]> m
              end)) r m.

Definition index_by {V} (r : list E) (key : E → M K) (val : E → M V)
    (overwrite : option bool) : M (gmap K V) :=
  index_by_into r key val ∅ (Some (default true overwrite)).

(** The reducer is handed the accumulator by reference and what it
    returns is discarded: [op acc v] is the content that the call leaves
    in the accumulator. *)
Definition group_reduce_by {V Acc} (r : list E) (key : E → M K)
    (value : E → M V) (init : Acc) (op : Acc → V → M Acc)
    (expected_unique : nat) : M (gmap K Acc) :=
  let m := try_reserve (∅ : gmap K Acc) (size_hint r expected_unique) in
  for_each (fun m x =>
    let* key_value := key x in
    let* value_copy := value x in
    let acc := default init (m !! key_value) in
    let* acc' := op acc value_copy in
    ret (<[key_value := acc']> m)) r m.

(** ** Convenience algorithms *)

Definition group_by_into {V} (r : list E) (key : E → M K) (value : E → M V)
    (m : gmap K (list V)) (expected_unique : nat) : M (gmap K (list V)) :=
  let m := try_reserve m (size_hint r expected_unique) in
  for_each (fun m x =>
    let* key_value := key x in
    let* val_value := value x in
    ret (<[key_value := default [] (m !! key_value) ++ [val_value]]> m)) r m.

Definition group_by {V} (r : list E) (key : E → M K) (value : E → M V)
    (expected_unique : nat) : M (gmap K (list V)) :=
  group_by_into r key value ∅ expected_unique.

(** The overload that takes a traits object. *)
Definition transform_reduce_by {V Acc R} (r : list E) (key : E → M K)
    (value : E → M V) (t : traits Acc V R) (expected_unique : nat)
    : M (gmap K R) :=
  transform_reduce_by_impl r key value t expected_unique.

(** The overload that takes an initial value and a binary operation,
    whose result [basic_transform_traits] assigns to the accumulator:
    [combine acc v] is that result, converted to the accumulator type. *)
Definition transform_reduce_by_init {V Acc} (r : list E) (key : E → M K)
    (value : E → M V) (init : Acc) (combine : Acc → V → M Acc)
    (expected_unique : nat) : M (gmap K Acc) :=
  let t := basic_transform_traits init combine in
  transform_reduce_by_impl r key value t expected_unique.

Definition accumulate_by {V} `{Numeric V} (r : list E) (key : E → M K)
    (value : E → M V) (expected_unique : nat) : M (gmap K V) :=
  transform_reduce_by r key value sum_traits expected_unique.

(** The accumulator has the type [T] of [init], which need not be the
    type of the values; [std::plus<>] adds a value to it and the sum is
    converted back to [T]. *)
Definition accumulate_by_init {T V} `{PlusAssign T V} (r : list E)
    (key : E → M K) (value : E → M V) (init : T) (expected_unique : nat)
    : M (gmap K T) :=
  transform_reduce_by_init r key value init
    (fun acc v => ret (plus_assign acc v)) expected_unique.

(** One step of the [extrema_by] loop on the state of a key that is
    already present. *)
Definition extrema_update {V O} (compare : O → O → bool)
    (order_value : O) (val_value : V) (st : extrema_state V O)
    : extrema_state V O :=
  let st1 :=
    if compare order_value (min_order st)
    then ExtremaState val_value order_value (max_value st) (max_order st)
    else st in
  if compare (max_order st1) order_value
  then ExtremaState (min_value st1) (min_order st1) val_value order_value
  else st1.

Definition extrema_by {V O} (r : list E) (key : E → M K) (value : E → M V)
    (order : E → M O) (comp : O → O → bool) (expected_unique : nat)
    : M (gmap K (extrema_result V)) :=
  let states := try_reserve (∅ : gmap K (extrema_state V O))
                            (size_hint r expected_unique) in
  let* states := for_each (fun states x =>
              let* key_value := key x in
              let* order_value := order x in
              let* val_value := value x in
              ret (match states !! key_value with
                   | None =>
                       <[key_value := ExtremaState val_value order_value
                                                   val_value order_value]> states
                   | Some st =>
                       <[key_value := extrema_update comp order_value
                                                     val_value st]> states
                   end)) r states in
  ret ((fun st => ExtremaResult (min_value st) (max_value st)) <$> states).

Definition minmax_by {V O} (r : list E) (key : E → M K) (value : E → M V)
    (order : E → M O) (comp : O → O → bool) (expected_unique : nat)
    : M (gmap K (extrema_result V)) :=
  extrema_by r key value order comp expected_unique.

Definition partition_by {V} (r : list E) (pred : E → M bool)
    (value : E → M V) : M (partition_result V) :=
  for_each (fun out x =>
    let* is_true := pred x in
    let* val_value := value x in
    ret (if is_true
         then PartitionResult (falses out) (trues out ++ [val_value])
         else PartitionResult (falses out ++ [val_value]) (trues out)))
    r (PartitionResult [] []).
End Core.

(** ** Pipeline adaptors *)

Module adaptors.
Section Adaptors.
Context {St Exn : Type}.
Context {E : Type} `{Countable K}.
Local Abbreviation M := (M St Exn).

Definition count (key : E → M K) (expected_unique : nat)
    : list E → M (gmap K nat) :=
  fun range => count_by range key expected_unique.

Definition group {V} (key : E → M K) (value : E → M V)
    (expected_unique : nat) : list E → M (gmap K (list V)) :=
  fun range => group_by range key value expected_unique.

Definition accumulate {V} `{Numeric V} (key : E → M K) (value : E → M V)
    (expected_unique : nat) : list E → M (gmap K V) :=
  fun range => accumulate_by range key value expected_unique.

Definition transform_reduce {V Acc R} (key : E → M K) (value : E → M V)
    (t : traits Acc V R) (expected_unique : nat) : list E → M (gmap K R) :=
  fun range => transform_reduce_by range key value t expected_unique.

Definition extrema {V O} (key : E → M K) (value : E → M V)
    (order : E → M O) (comp : O → O → bool) (expected_unique : nat)
    : list E → M (gmap K (extrema_result V)) :=
  fun range => extrema_by range key value order comp expected_unique.

Definition partition {V} (pred : E → M bool) (value : E → M V)
    : list E → M (partition_result V) :=
  fun range => partition_by range pred value.
End Adaptors.
End adaptors.

(** ** Ordering and reporting helpers *)

(** [operator<] of a key or mapped type; [a > b] is [less b a]. *)
Class Less (T : Type) := less : T → T → bool.

Global Instance Z_less : Less Z := Z.ltb.
Global Instance nat_less : Less nat := Nat.ltb.

Section Ordering.
Context {A : Type}.

(** [std::ranges::sort(out, cmp)] promises a permutation of [out] in which
    no element is ordered before its predecessor by [cmp], and nothing
    about the order of equivalent elements.  Insertion sort is one such
    algorithm. *)
Fixpoint sort_insert (cmp : A → A → bool) (x : A) (l : list A) : list A :=
  match l with
  | [] => [x]
  | y :: l' => if cmp y x then y :: sort_insert cmp x l' else x :: l
  end.

Definition sort (cmp : A → A → bool) (l : list A) : list A :=
  foldr (sort_insert cmp) [] l.
End Ordering.

Section Helpers.
Context `{Countable K} {V : Type}.

Definition to_sorted_pairs (m : gmap K V) (cmp : K * V → K * V → bool)
    : list (K * V) :=
  let out := map_to_list m in
  sort cmp out.

Definition top_k (m : gmap K V) (k : nat) (cmp : K * V → K * V → bool)
    : list (K * V) :=
  let v := to_sorted_pairs m cmp in
  if k <? length v then take k v else v.

Context `{Less K} `{Less V} `{EqDecision V}.

Definition top_k_by_value (m : gmap K V) (k : nat) : list (K * V) :=
  top_k m k (fun a b =>
    if bool_decide (a.2 ≠ b.2) then less b.2 a.2 else less a.1 b.1).

Definition top_k_by_key (m : gmap K V) (k : nat) : list (K * V) :=
  top_k m k (fun a b =>
    if bool_decide (a.1 ≠ b.1) then less a.1 b.1 else less b.2 a.2).

Definition bottom_k_by_value (m : gmap K V) (k : nat) : list (K * V) :=
  top_k m k (fun a b =>
    if bool_decide (a.2 ≠ b.2) then less a.2 b.2 else less a.1 b.1).
End Helpers.

(** ** The example programs that call the library *)

(** The lambdas of the example programs capture nothing and throw
    nothing: a library call made with them runs in the trivial state and
    cannot end in an exception. *)
Definition run {A} (m : M unit Empty_set A) : A :=
  match m tt with
  | Ret a _ => a
  | Throw e _ => match e with end
  end.

(** [isAnagram]: two strings, as sequences of characters, have equal
    frequency maps. *)
Definition isAnagram `{Countable A} (s t : list A) : bool :=
  bool_decide (run (count_by s (pure_proj id) 0)
               = run (count_by t (pure_proj id) 0)).

(** [intersect]: one step of the loop over [nums2], on the frequency map
    and the output vector. *)
Definition intersect_step (st : gmap Z nat * list Z) (x : Z)
    : gmap Z nat * list Z :=
  match st.1 !! x with
  | Some c => if 0 <? c then (<[x := pred c]> st.1, st.2 ++ [x]) else st
  | None => st
  end.

Definition intersect (nums1 nums2 : list Z) : list Z :=
  let counts := run (count_by nums1 (pure_proj id) 0) in
  (foldl intersect_step (counts, []) nums2).2.

(** [static_cast<size_t>(k)] of an [int], for a 64-bit [size_t]. *)
Definition size_t_of_int (k : Z) : nat := Z.to_nat (k mod 2 ^ 64).

Definition topKFrequent (nums : list Z) (k : Z) : list Z :=
  let freq := run (count_by nums (pure_proj id) 0) in
  let top := top_k_by_value freq (size_t_of_int k) in
  top.*1.

(** [groupAnagrams]: the signature of a word is its sorted sequence of
    characters.  Whether plain [char] is signed is up to the platform, so
    the order of the characters is a parameter. *)
Definition groupAnagrams `{Countable A} (char_less : A → A → bool)
    (strs : list (list A)) : list (list (list A)) :=
  let groups := run (group_by strs (pure_proj (sort char_less))
                              (pure_proj id) 0) in
  (map_to_list groups).*2.

(** [arrayRankTransform].  [std::unique] keeps an element when it differs
    from the last one kept. *)
Definition unique `{EqDecision A} (l : list A) : list A :=
  foldl (λ kept x, match last kept with
                   | Some y => if decide (y = x) then kept else kept ++ [x]
                   | None => [x]
                   end) [] l.

Inductive std_exception : Type := out_of_range.

(** [m.at(k)] *)
Definition at_key `{Countable K} {V St} (m : gmap K V) (k : K)
    : M St std_exception V :=
  fun s => match m !! k with
           | Some v => Ret v s
           | None => Throw out_of_range s
           end.

(** [[next = 1](int) mutable { return next++; }]: the state is [next], an
    [int] that is incremented as an integer, which it is as long as it
    stays below [2 ^ 31]. *)
Definition next_rank {Exn E} : E → M Z Exn Z :=
  fun _ next => Ret next (next + 1)%Z.

Definition arrayRankTransform (arr : list Z) : outcome Z std_exception (list Z) :=
  let uniq := unique (sort Z.ltb arr) in
  (let* rank := index_by uniq (pure_proj id) next_rank None in
   for_each (fun out x => let* ranked := at_key rank x in ret (out ++ [ranked]))
            arr []) 1%Z.

(** [findShortestSubArray]: the two closures share the counter [idx], a
    64-bit [size_t]; [static_cast<int>] keeps the low 32 bits.  The
    arithmetic on [int] is that of the integers, which it is as long as
    the array has fewer than [2 ^ 31] elements. *)
Definition to_int (z : Z) : Z := ((z + 2 ^ 31) mod 2 ^ 32 - 2 ^ 31)%Z.

(** [[&idx](int) { return static_cast<int>(idx++); }] *)
Definition span_value {Exn E} : E → M Z Exn Z :=
  fun _ idx => Ret (to_int idx) ((idx + 1) mod 2 ^ 64)%Z.

(** [[&idx](int) { return static_cast<int>(idx - 1); }] *)
Definition span_order {Exn E} : E → M Z Exn Z :=
  fun _ idx => Ret (to_int ((idx - 1) mod 2 ^ 64)) idx.

(** The frequency map is built before [idx] exists; the state of the rest
    is [idx].  Both loops over the frequency map visit it in the same
    order. *)
Definition findShortestSubArray (nums : list Z) : outcome Z std_exception Z :=
  let freq := run (count_by nums (pure_proj id) 0) in
  (let* spans := minmax_by nums (pure_proj id) span_value span_order Z.ltb 0 in
   let degree := foldl (λ degree kc, Nat.max degree kc.2) 0 (map_to_list freq) in
   for_each (fun best kc =>
               if decide (kc.2 = degree)
               then let* mm := at_key spans kc.1 in
                    ret (Z.min best (max mm - min mm + 1))
               else ret best)
            (map_to_list freq) (to_int (Z.of_nat (length nums)))) 0%Z.

(** ** Vocabulary of the specification *)

Section Vocabulary.
Context {St Exn : Type}.
Local Abbreviation M := (M St Exn).

(** The values a projection yields when it is applied to every element
    once, front to back; the state is threaded from call to call. *)
Fixpoint project_all {A B} (f : A → M B) (r : list A) : M (list B) :=
  match r with
  | [] => ret []
  | x :: r' =>
      let* b := f x in
      let* bs := project_all f r' in
      ret (b :: bs)
  end.

(** Two projections applied to the same element, [f] first. *)
Definition both {A B C} (f : A → M B) (g : A → M C) : A → M (B * C) :=
  fun x => let* b := f x in let* c := g x in ret (b, c).
End Vocabulary.

(** How often [k] occurs among the projected keys. *)
Definition occurrences `{EqDecision K} (k : K) (ks : list K) : nat :=
  length (filter (λ k', k' = k) ks).

(** The payloads projected from the elements whose key is [k], in
    sequence order. *)
Definition values_at `{EqDecision K} {V} (k : K) (kvs : list (K * V)) : list V :=
  (filter (λ kv, kv.1 = k) kvs).*2.

(** The sum of all bucket counts of a frequency map. *)
Definition total_count `{Countable K} (freq : gmap K nat) : nat :=
  map_fold (λ _ c total, c + total) 0 freq.

(** [++freq[k]] as a function of the map. *)
Definition bump `{Countable K} (freq : gmap K nat) (k : K) : gmap K nat :=
  <[k := S (default 0 (freq !! k))]> freq.

(** [partition_by]'s update of its result for one element. *)
Definition route {V} (out : partition_result V) (bv : bool * V)
    : partition_result V :=
  if bv.1
  then PartitionResult (falses out) (trues out ++ [bv.2])
  else PartitionResult (falses out ++ [bv.2]) (trues out).

(** Putting the two branches back together: [bs] tells, position by
    position, from which branch the next value is taken. *)
Fixpoint interleave {V} (bs : list bool) (fs ts : list V) : list V :=
  match bs with
  | [] => []
  | true :: bs' =>
      match ts with
      | t :: ts' => t :: interleave bs' fs ts'
      | [] => interleave bs' fs []
      end
  | false :: bs' =>
      match fs with
      | f :: fs' => f :: interleave bs' fs' ts
      | [] => interleave bs' [] ts
      end
  end.

(** What a comparator has to be for "smallest" and "largest" to mean
    something: a strict weak ordering, as [std::ranges::less] is on every
    totally ordered type. *)
Record strict_weak_order {O} (comp : O → O → bool) : Prop := {
  swo_irrefl : ∀ a, comp a a = false;
  swo_trans : ∀ a b c, comp a b = true → comp b c = true → comp a c = true;
  swo_split : ∀ a b c, comp a b = true → comp a c = true ∨ comp c b = true
}.

(** Among the (order key, value) pairs [ovs] seen for one key, position [j]
    holds [(o, v)], no pair is ordered before [o], and every earlier pair
    is ordered strictly after [o]: [j] is the earliest position of a
    smallest order key. *)
Definition first_min {O V} (comp : O → O → bool) (ovs : list (O * V))
    (j : nat) (o : O) (v : V) : Prop :=
  ovs !! j = Some (o, v)
  ∧ (∀ i oi vi, ovs !! i = Some (oi, vi) → comp oi o = false)
  ∧ (∀ i oi vi, i < j → ovs !! i = Some (oi, vi) → comp o oi = true).

(** The same for the largest order key. *)
Definition first_max {O V} (comp : O → O → bool) (ovs : list (O * V))
    (j : nat) (o : O) (v : V) : Prop :=
  ovs !! j = Some (o, v)
  ∧ (∀ i oi vi, ovs !! i = Some (oi, vi) → comp o oi = false)
  ∧ (∀ i oi vi, i < j → ovs !! i = Some (oi, vi) → comp oi o = true).

(** The body of the [extrema_by] loop once the projections are done, on
    the whole map and on the state of a single key. *)
Definition extrema_step `{Countable K} {V O} (comp : O → O → bool)
    (states : gmap K (extrema_state V O)) (kov : K * (O * V))
    : gmap K (extrema_state V O) :=
  match states !! kov.1 with
  | None =>
      <[kov.1 := ExtremaState kov.2.2 kov.2.1 kov.2.2 kov.2.1]> states
  | Some st =>
      <[kov.1 := extrema_update comp kov.2.1 kov.2.2 st]> states
  end.

Definition extrema_track {V O} (comp : O → O → bool)
    (st : option (extrema_state V O)) (ov : O * V)
    : option (extrema_state V O) :=
  match st with
  | None => Some (ExtremaState ov.2 ov.1 ov.2 ov.1)
  | Some st => Some (extrema_update comp ov.1 ov.2 st)
  end.

(** A strict total order, as [operator<] is on the integers. *)
Record strict_total {T} (lt : T → T → bool) : Prop := {
  lt_irrefl : ∀ a, lt a a = false;
  lt_trans : ∀ a b c, lt a b = true → lt b c = true → lt a c = true;
  lt_total : ∀ a b, a = b ∨ lt a b = true ∨ lt b a = true
}.

(** The postcondition of [std::ranges::sort(l, cmp)]: no element is ordered
    before its predecessor. *)
Definition is_sorted {A} (cmp : A → A → bool) (l : list A) : Prop :=
  Sorted (λ a b, cmp b a = false) l.

(** The comparator that [top_k_by_value] passes to [top_k]: value
    descending, ties by key ascending. *)
Definition value_desc_key_asc {K V} `{Less K} `{Less V} `{EqDecision V}
    (a b : K * V) : bool :=
  if bool_decide (a.2 ≠ b.2) then less b.2 a.2 else less a.1 b.1.

(** *** Observing the calls the engine makes *)

(** The calls an operation can make to the callables it was given. *)
Inductive call (E : Type) : Type :=
| CallKey (x : E)
| CallValue (x : E)
| CallOrder (x : E)
| CallPred (x : E)
| CallCombine.
Arguments CallKey {E} x.
Arguments CallValue {E} x.
Arguments CallOrder {E} x.
Arguments CallPred {E} x.
Arguments CallCombine {E}.

(** [logged ev m] behaves as [m] on the first component of the state and
    appends [ev] to a log kept in the second, whether [m] returns or
    throws. *)
Definition logged {St Exn C A} (ev : C) (m : M St Exn A)
    : M (St * list C) Exn A :=
  fun sl => match m sl.1 with
            | Ret a s' => Ret a (s', sl.2 ++ [ev])
            | Throw e s' => Throw e (s', sl.2 ++ [ev])
            end.

(** A projection that records every call made to it, with the element it
    was called on. *)
Definition traced {St Exn E B} (tag : E → call E) (f : E → M St Exn B)
    : E → M (St * list (call E)) Exn B :=
  fun x => logged (tag x) (f x).

(** A reducer that records every call made to it. *)
Definition traced_op {St Exn E Acc V} (op : Acc → V → M St Exn Acc)
    : Acc → V → M (St * list (call E)) Exn Acc :=
  fun acc v => logged CallCombine (op acc v).

(** A traits object whose [combine] records every call made to it. *)
Definition traced_traits {St Exn E Acc V R} (t : traits (St := St) (Exn := Exn) Acc V R)
    : traits (St := St * list (call E)) (Exn := Exn) Acc V R :=
  {| identity := identity t;
     combine := traced_op (combine t);
     finalize := finalize t |}.

(** [m'] does what [m] does and logs exactly the calls [evs] whenever [m]
    returns. *)
Definition logs {St Exn C A} (m : M St Exn A) (m' : M (St * list C) Exn A)
    (evs : list C) : Prop :=
  ∀ s log a s', m s = Ret a s' → m' (s, log) = Ret a (s', log ++ evs).


(** *** The elements of [PartitionByEvaluatesPredicateBeforeMove] *)

(** The range is a vector of strings held in the state; its elements are
    referred to by position.  The predicate reads the string, the value
    projection moves it out and leaves the empty string behind. *)
Definition moved_from : string := EmptyString.

Definition longer_than_two {Exn} (i : nat) : M (list string) Exn bool :=
  fun words =>
    Ret (bool_decide (2 < String.length (default moved_from (words !! i))))
        words.

Definition move_out {Exn} (i : nat) : M (list string) Exn string :=
  fun words =>
    Ret (default moved_from (words !! i)) (<[i := moved_from]> words).

(** *** The elements of [ExtremaByHandlesMoveBeforeOrder] *)

(** Entries are (key, payload) pairs held in the state; the value
    projection moves the payload out, the order projection reads its
    length. *)
Definition entries : list (string * string) :=
  [("alpha", "zzz"); ("alpha", "xx"); ("alpha", "longer"); ("beta", "solo")].

Definition entry_key {Exn} (i : nat) : M (list (string * string)) Exn string :=
  fun es => Ret (default moved_from (fst <$> es !! i)) es.

Definition entry_move_payload {Exn} (i : nat)
    : M (list (string * string)) Exn string :=
  fun es =>
    Ret (default moved_from (snd <$> es !! i))
        (<[i := (default moved_from (fst <$> es !! i), moved_from)]> es).

Definition entry_payload_size {Exn} (i : nat)
    : M (list (string * string)) Exn nat :=
  fun es => Ret (String.length (default moved_from (snd <$> es !! i))) es.

(** *** Data and closures of the test suite *)

Definition integers : list Z := [1; 2; 2; 3; 1; 4]%Z.

Definition one_to_six : list Z := [1; 2; 3; 4; 5; 6]%Z.

Definition scores : list (string * Z) :=
  [("red", 3); ("blue", 2); ("red", 5); ("blue", 4); ("red", -1)]%Z.

(** A reading is (sensor, value, timestamp). *)
Definition readings : list (string * Z * Z) :=
  [("alpha", 10, 100); ("beta", 5, 80); ("alpha", 4, 90);
   ("beta", 12, 200); ("alpha", 15, 300)]%Z.

Definition words : list string := ["on"; "stop"; "cab"; "a"; "longword"].

Definition frequencies : gmap Z nat :=
  {[6%Z := 3; 1%Z := 2; 2%Z := 2; 3%Z := 1; 4%Z := 1]}.

(** [integers], each with its position. *)
Definition indexed_integers : list (Z * nat) :=
  [(1%Z, 0); (2%Z, 1); (2%Z, 2); (3%Z, 3); (1%Z, 4); (4%Z, 5)].

(** [[i = std::size_t{0}](int) mutable { return i++; }] *)
Definition next_index {Exn E} : E → M nat Exn nat :=
  fun _ i => Ret i (S i).

(** A projection that throws on negative numbers. *)
Definition non_negative (x : Z) : M unit string Z :=
  fun s => if (x <? 0)%Z then Throw "negative" s else Ret x s.

(** A traits object with a [finalize]: [combine] adds the value to the
    accumulator and [finalize] tells whether the sum is positive. *)
Definition positive_sum_traits : traits (St := unit) (Exn := unit) Z Z bool :=
  {| identity := 0%Z;
     combine := λ acc v, ret (acc + v)%Z;
     finalize := Finalize (λ acc, (0 <? acc)%Z) |}.

(** A [long long] accumulator for [std::size_t] values. *)
Definition plus_index : PlusAssign Z nat := λ acc v, (acc + Z.of_nat v)%Z.

(** A reducer, and a traits object with that [combine], that throw on
    negative numbers, and a [combine] that throws when the sum would
    exceed a bound. *)
Definition checked_sum (acc v : Z) : M unit string Z :=
  let* checked := non_negative v in ret (acc + checked)%Z.

Definition checked_sum_traits : traits (St := unit) (Exn := string) Z Z Z :=
  {| identity := 0%Z; combine := checked_sum; finalize := NoFinalize |}.

Definition bounded_sum (acc v : Z) : M unit string Z :=
  fun s => if (10 <? acc + v)%Z then Throw "overflow" s else Ret (acc + v)%Z s.

Definition bounded_sum_traits : traits (St := unit) (Exn := string) Z Z bool :=
  {| identity := 0%Z; combine := bounded_sum;
     finalize := Finalize (λ acc, (0 <? acc)%Z) |}.

(** The words of [LC0049_GroupAnagrams] as sequences of characters, and
    the order of the characters by their codes. *)
Definition anagram_words : list (list Ascii.ascii) :=
  String.list_ascii_of_string <$> ["eat"; "tea"; "tan"; "ate"; "nat"; "bat"].

Definition ascii_less (a b : Ascii.ascii) : bool :=
  (Ascii.N_of_ascii a <? Ascii.N_of_ascii b)%N.

(** *** Vocabulary for the remaining operations *)

(** What [finalize] makes of an accumulator: nothing when the traits
    object has no [finalize]. *)
Definition finish {Acc R} (f : finalizer Acc R) : Acc → R :=
  match f in finalizer _ R0 return Acc → R0 with
  | NoFinalize => fun acc => acc
  | Finalize g => g
  end.

(** A traits object without its [finalize]: what [transform_reduce_by]
    returns for it are the accumulators. *)
Definition without_finalize {St Exn Acc V R}
    (t : traits (St := St) (Exn := Exn) Acc V R)
    : traits (St := St) (Exn := Exn) Acc V Acc :=
  {| identity := identity t; combine := combine t; finalize := NoFinalize |}.

(** The sum of the bucket sizes of a grouping. *)
Definition total_size `{Countable K} {V} (groups : gmap K (list V)) : nat :=
  total_count (length <$> groups).

(** A result map has exactly one entry for every key of [ks]: its entries
    are the distinct keys, so there are at most [length ks] of them and at
    least one unless [ks] is empty. *)
Definition keyed_by `{Countable K} {A} (out : gmap K A) (ks : list K) : Prop :=
  dom out = list_to_set ks
  ∧ size out = length (remove_dups ks)
  ∧ size out ≤ length ks
  ∧ (ks ≠ [] → 1 ≤ size out).

(** [m'] does what [m] does and, whenever [m] throws, has logged an
    initial part of the calls [evs]. *)
Definition logs_prefix {St Exn C A} (m : M St Exn A)
    (m' : M (St * list C) Exn A) (evs : list C) : Prop :=
  ∀ s log e s', m s = Throw e s' →
    ∃ l, l `prefix_of` evs ∧ m' (s, log) = Throw e (s', log ++ l).

(** The comparators that [top_k_by_key] and [bottom_k_by_value] pass to
    [top_k], and the comparison of keys alone. *)
Definition key_asc_value_desc {K V} `{Less K} `{Less V} `{EqDecision K}
    (a b : K * V) : bool :=
  if bool_decide (a.1 ≠ b.1) then less a.1 b.1 else less b.2 a.2.

Definition value_asc_key_asc {K V} `{Less K} `{Less V} `{EqDecision V}
    (a b : K * V) : bool :=
  if bool_decide (a.2 ≠ b.2) then less a.2 b.2 else less a.1 b.1.

Definition key_asc {K V} `{Less K} (a b : K * V) : bool := less a.1 b.1.

(** [x] occurs in [nums] and nothing occurs more often: the number of its
    occurrences is the degree of the array. *)
Definition most_frequent (x : Z) (nums : list Z) : Prop :=
  x ∈ nums ∧ ∀ y, occurrences y nums ≤ occurrences x nums.

(** Every occurrence of [x] in [nums] is at a position from [i] to [j]. *)
Definition covers (nums : list Z) (x : Z) (i j : nat) : Prop :=
  ∀ p, nums !! p = Some x → i ≤ p ≤ j.

(** The degree of an array: how often its most frequent number occurs. *)
Definition degree_of (nums : list Z) : nat :=
  foldr (λ x d, Nat.max (occurrences x nums) d) 0 nums.

(** * Properties *)

(** ** The loop and the monad *)

Section LoopFacts.
Context {St Exn : Type}.
Local Abbreviation M := (M St Exn).

Lemma for_each_ext {A B} (body1 body2 : B → A → M B) r st s :
  (∀ st x s, body1 st x s = body2 st x s) →
  for_each body1 r st s = for_each body2 r st s.
Proof.
  intros Hbody. revert st s.
  induction r as [|x r IH]; intros st s; simpl; [done|].
  unfold bind. rewrite Hbody. destruct (body2 st x s); auto.
Qed.

Lemma for_each_app {A B} (body : B → A → M B) r1 r2 st s :
  for_each body (r1 ++ r2) st s =
  (let* st' := for_each body r1 st in for_each body r2 st') s.
Proof.
  revert st s. induction r1 as [|x r1 IH]; intros st s; simpl; [done|].
  unfold bind. destruct (body st x s); [|done]. by rewrite IH.
Qed.

(** A body that projects and then updates the loop state without further
    effects: the loop is the projections followed by a pure fold. *)
Lemma for_each_project {A B C} (f : A → M C) (step : B → C → B) r st s :
  for_each (fun st x => let* c := f x in ret (step st c)) r st s =
  (let* cs := project_all f r in ret (foldl step st cs)) s.
Proof.
  revert st s. induction r as [|x r IH]; intros st s; simpl; [done|].
  unfold bind, ret. destruct (f x s) as [c s1|e s1]; [|done].
  rewrite IH. unfold bind, ret. by destruct (project_all f r s1).
Qed.

Lemma for_each_project2 {A B C D} (f : A → M C) (g : A → M D)
    (step : B → C → D → B) r st s :
  for_each (fun st x => let* c := f x in let* d := g x in ret (step st c d))
           r st s =
  (let* cds := project_all (both f g) r in
   ret (foldl (λ st cd, step st cd.1 cd.2) st cds)) s.
Proof.
  rewrite <-for_each_project. apply for_each_ext.
  intros st' x s'. unfold both, bind, ret.
  destruct (f x s'); [|done]. by destruct (g x _).
Qed.

Lemma project_all_length {A B} (f : A → M B) r s bs s' :
  project_all f r s = Ret bs s' → length bs = length r.
Proof.
  revert s bs. induction r as [|x r IH]; intros s bs; simpl.
  - unfold ret. by intros [= <- _].
  - unfold bind. destruct (f x s) as [b s1|]; [|done].
    destruct (project_all f r s1) as [bs' s2|] eqn:Hr; [|done].
    unfold ret. intros [= <- <-]. simpl. f_equal. eauto.
Qed.

Lemma project_all_app {A B} (f : A → M B) r1 r2 s :
  project_all f (r1 ++ r2) s =
  (let* bs1 := project_all f r1 in
   let* bs2 := project_all f r2 in
   ret (bs1 ++ bs2)) s.
Proof.
  revert s. induction r1 as [|x r1 IH]; intros s; simpl.
  - unfold bind, ret. by destruct (project_all f r2 s).
  - unfold bind, ret. destruct (f x s) as [b s1|]; [|done].
    rewrite IH. unfold bind, ret.
    destruct (project_all f r1 s1); [|done].
    by destruct (project_all f r2 _).
Qed.

(** For a projection without effects the projected values are the image
    of the sequence and the state is untouched. *)
Lemma project_all_pure {A B} (f : A → B) r (s : St) :
  project_all (pure_proj f) r s = Ret (Exn := Exn) (f <$> r) s.
Proof.
  induction r as [|x r IH]; simpl; [done|].
  unfold bind, pure_proj at 1, ret. by rewrite IH.
Qed.

Lemma for_each_project_then {A B C D} (f : A → M C) (step : B → C → B)
    (g : B → D) r st s :
  (let* st' := for_each (fun st x => let* c := f x in ret (step st c)) r st in
   ret (g st')) s =
  (let* cs := project_all f r in ret (g (foldl step st cs))) s.
Proof.
  unfold bind at 1. rewrite for_each_project.
  unfold bind, ret. by destruct (project_all f r s).
Qed.

Lemma bind_ret_r {A} (m : M A) s : (let* a := m in ret a) s = m s.
Proof. unfold bind, ret. by destruct (m s). Qed.

Lemma bind_ext {A B} (m1 m2 : M A) (f1 f2 : A → M B) s :
  m1 s = m2 s → (∀ a s', f1 a s' = f2 a s') →
  (let* a := m1 in f1 a) s = (let* a := m2 in f2 a) s.
Proof. intros Hm Hf. unfold bind. rewrite Hm. destruct (m2 s); auto. Qed.

Lemma bind_ret_inv {A B} (m : M A) (g : A → B) s b s' :
  (let* a := m in ret (g a)) s = Ret b s' → ∃ a, m s = Ret a s' ∧ b = g a.
Proof.
  unfold bind, ret. destruct (m s) as [a s0|]; [|done].
  intros [= <- <-]. eauto.
Qed.

Lemma bind_throw {A B} (m : M A) (f : A → M B) s e s' :
  m s = Throw e s' → (let* a := m in f a) s = Throw e s'.
Proof. intros Hm. unfold bind. by rewrite Hm. Qed.
End LoopFacts.

(** The pipeline adaptors hand the range to the operation they wrap. *)
Remark adaptors_forward {St Exn E V O : Type} `{Countable K} `{Numeric V}
    (r : list E) (key : E → M St Exn K) (value : E → M St Exn V)
    (order : E → M St Exn O) (pred : E → M St Exn bool) comp n :
  pipe r (adaptors.count key n) = count_by r key n
  ∧ pipe r (adaptors.group key value n) = group_by r key value n
  ∧ pipe r (adaptors.accumulate key value n) = accumulate_by r key value n
  ∧ pipe r (adaptors.extrema key value order comp n)
    = extrema_by r key value order comp n
  ∧ pipe r (adaptors.partition pred value) = partition_by r pred value.
Proof. by split_and!. Qed.

(** ** count_by *)

Section CountFacts.
Context {St Exn E : Type} `{Countable K}.
Local Abbreviation M := (M St Exn).

Lemma count_by_project (r : list E) (key : E → M K) n s :
  count_by r key n s =
  (let* ks := project_all key r in ret (foldl bump ∅ ks)) s.
Proof. exact (for_each_project key bump r ∅ s). Qed.

Lemma total_count_insert (freq : gmap K nat) k c :
  freq !! k = None → total_count (<[k := c]> freq) = c + total_count freq.
Proof.
  intros Hk. unfold total_count.
  rewrite map_fold_insert_L; [done| |done]. intros; lia.
Qed.

Lemma total_count_bump (freq : gmap K nat) k :
  total_count (bump freq k) = S (total_count freq).
Proof.
  unfold bump. destruct (freq !! k) as [c|] eqn:Hk; simpl.
  - rewrite <-(insert_delete_eq freq k (S c)).
    rewrite <-(insert_delete_id freq k c) at 2 by done.
    rewrite !total_count_insert by apply lookup_delete_eq. done.
  - by rewrite total_count_insert.
Qed.

Lemma total_count_foldl_bump ks (freq : gmap K nat) :
  total_count (foldl bump freq ks) = total_count freq + length ks.
Proof.
  revert freq. induction ks as [|k ks IH]; intros freq; simpl; [lia|].
  rewrite IH, total_count_bump. lia.
Qed.

Lemma lookup_foldl_bump ks (freq : gmap K nat) k :
  default 0 (foldl bump freq ks !! k) =
  default 0 (freq !! k) + occurrences k ks.
Proof.
  unfold occurrences.
  revert freq. induction ks as [|k' ks IH]; intros freq; simpl; [lia|].
  rewrite IH, filter_cons. unfold bump.
  destruct (decide (k' = k)) as [->|Hne].
  - rewrite lookup_insert_eq. simpl. lia.
  - by rewrite lookup_insert_ne.
Qed.

Lemma dom_foldl_bump ks (freq : gmap K nat) :
  dom (foldl bump freq ks) = dom freq ∪ list_to_set ks.
Proof.
  revert freq. induction ks as [|k ks IH]; intros freq; simpl.
  - by rewrite (right_id_L ∅ (∪)).
  - rewrite IH. unfold bump.
    rewrite dom_insert_L, (comm_L (∪) {[k]}).
    by rewrite (assoc_L (∪)).
Qed.

Lemma size_list_to_set_remove_dups (ks : list K) :
  size (list_to_set ks : gset K) = length (remove_dups ks).
Proof.
  rewrite <-(size_list_to_set (C := gset K) (remove_dups ks))
    by apply NoDup_remove_dups.
  f_equal. apply set_eq. intros k.
  by rewrite !elem_of_list_to_set, elem_of_remove_dups.
Qed.

(** C1. Whatever keys the projection yields for the elements of the
    sequence, [count_by] returns a map whose entries are exactly the
    distinct keys observed (one entry each), whose entry for a key is the
    number of elements that projected to it, and whose counts add up to
    the length of the sequence. *)
Theorem count_by_counts_every_key (r : list E) (key : E → M K) n s ks s' :
  project_all key r s = Ret ks s' →
  ∃ freq,
    count_by r key n s = Ret freq s'
    ∧ dom freq = list_to_set ks
    ∧ size freq = length (remove_dups ks)
    ∧ (∀ k, k ∈ ks → freq !! k = Some (occurrences k ks))
    ∧ total_count freq = length r.
Proof.
  intros Hks. exists (foldl bump ∅ ks).
  assert (Hdom : dom (foldl bump ∅ ks) = list_to_set ks).
  { by rewrite dom_foldl_bump, dom_empty_L, (left_id_L ∅ (∪)). }
  split_and!.
  - rewrite count_by_project. unfold bind. by rewrite Hks.
  - done.
  - by rewrite <-size_dom, Hdom, size_list_to_set_remove_dups.
  - intros k Hk.
    assert (is_Some (foldl bump ∅ ks !! k)) as [c Hc].
    { apply elem_of_dom. rewrite Hdom. by apply elem_of_list_to_set. }
    pose proof (lookup_foldl_bump ks ∅ k) as Hn.
    rewrite Hc, lookup_empty in Hn. simpl in Hn. by rewrite Hc, Hn.
  - rewrite total_count_foldl_bump.
    unfold total_count. rewrite map_fold_empty. simpl.
    eapply project_all_length; eauto.
Qed.
End CountFacts.

(** ** partition_by *)

Section PartitionFacts.
Context {St Exn E V : Type}.
Local Abbreviation M := (M St Exn).

Lemma partition_by_project (r : list E) (pred : E → M bool) (value : E → M V) s :
  partition_by r pred value s =
  (let* bvs := project_all (both pred value) r in
   ret (foldl route (PartitionResult [] []) bvs)) s.
Proof.
  unfold partition_by.
  exact (for_each_project2 pred value
           (λ out b v, route out (b, v)) r (PartitionResult [] []) s).
Qed.

Lemma foldl_route (bvs : list (bool * V)) out :
  foldl route out bvs =
  PartitionResult (falses out ++ (filter (λ bv, bv.1 = false) bvs).*2)
                  (trues out ++ (filter (λ bv, bv.1 = true) bvs).*2).
Proof.
  revert out. induction bvs as [|[b v] bvs IH]; intros [fs ts]; simpl.
  - by rewrite !app_nil_r.
  - rewrite IH, !filter_cons. unfold route. simpl.
    destruct b; simpl; by rewrite <-?app_assoc.
Qed.

Lemma interleave_filter (bvs : list (bool * V)) :
  interleave bvs.*1 (filter (λ bv, bv.1 = false) bvs).*2
                    (filter (λ bv, bv.1 = true) bvs).*2 = bvs.*2.
Proof.
  induction bvs as [|[b v] bvs IH]; simpl; [done|].
  rewrite !filter_cons. destruct b; simpl; f_equal; exact IH.
Qed.

Lemma length_filter_bool (bvs : list (bool * V)) :
  length (filter (λ bv, bv.1 = true) bvs)
  + length (filter (λ bv, bv.1 = false) bvs) = length bvs.
Proof.
  induction bvs as [|[b v] bvs IH]; simpl; [done|].
  rewrite !filter_cons. destruct b; simpl; lia.
Qed.

(** C2. Whatever the predicate and the value projection yield for the
    elements, [partition_by] puts every projected value into exactly one
    branch: [trues] holds the values of the elements the predicate accepted
    and [falses] those it rejected, each in sequence order; nothing is lost
    or duplicated, and interleaving the branches by the predicate outcomes
    gives the projected sequence back. *)
Theorem partition_by_splits_in_order (r : list E) (pred : E → M bool)
    (value : E → M V) s bvs s' :
  project_all (both pred value) r s = Ret bvs s' →
  ∃ out,
    partition_by r pred value s = Ret out s'
    ∧ trues out = (filter (λ bv, bv.1 = true) bvs).*2
    ∧ falses out = (filter (λ bv, bv.1 = false) bvs).*2
    ∧ length (trues out) + length (falses out) = length r
    ∧ interleave bvs.*1 (falses out) (trues out) = bvs.*2.
Proof.
  intros Hbvs. exists (foldl route (PartitionResult [] []) bvs).
  rewrite foldl_route. simpl. split_and!; try done.
  - rewrite partition_by_project. unfold bind. rewrite Hbvs.
    by rewrite foldl_route.
  - rewrite !length_fmap, length_filter_bool.
    eapply project_all_length; eauto.
  - apply interleave_filter.
Qed.
End PartitionFacts.

(** ** index_by *)

Section IndexFacts.
Context {St Exn E : Type} `{Countable K} {V : Type}.
Local Abbreviation M := (M St Exn).

Lemma values_at_cons (k k' : K) (v : V) kvs :
  values_at k ((k', v) :: kvs) =
  if decide (k' = k) then v :: values_at k kvs else values_at k kvs.
Proof. unfold values_at. rewrite filter_cons. simpl. by case_decide. Qed.

Lemma index_by_overwrite_project (r : list E) (key : E → M K) (val : E → M V) s :
  index_by r key val (Some true) s =
  (let* kvs := project_all (both key val) r in
   ret (foldl (λ m kv, <[kv.1 := kv.2]> m) ∅ kvs)) s.
Proof. exact (for_each_project2 key val (λ m k v, <[k := v]> m) r ∅ s). Qed.

Lemma index_by_keep_project (r : list E) (key : E → M K) (val : E → M V) s :
  index_by r key val (Some false) s =
  (let* kvs := project_all (both key val) r in
   ret (foldl (λ m kv, match m !! kv.1 with
                       | Some _ => m
                       | None => <[kv.1 := kv.2]> m
                       end) ∅ kvs)) s.
Proof.
  exact (for_each_project2 key val
           (λ (m : gmap K V) k v,
              match m !! k with Some _ => m | None => <[k := v]> m end) r ∅ s).
Qed.

Lemma lookup_foldl_overwrite (kvs : list (K * V)) (m : gmap K V) k :
  foldl (λ m kv, <[kv.1 := kv.2]> m) m kvs !! k =
  match last (values_at k kvs) with Some v => Some v | None => m !! k end.
Proof.
  revert m. induction kvs as [|[k' v'] kvs IH]; intros m; simpl; [done|].
  rewrite IH, values_at_cons. destruct (decide (k' = k)) as [->|Hne].
  - rewrite last_cons, lookup_insert_eq. by destruct (last _).
  - by rewrite lookup_insert_ne.
Qed.

Lemma lookup_foldl_keep (kvs : list (K * V)) (m : gmap K V) k :
  foldl (λ m kv, match m !! kv.1 with
                 | Some _ => m
                 | None => <[kv.1 := kv.2]> m
                 end) m kvs !! k =
  match m !! k with Some v => Some v | None => head (values_at k kvs) end.
Proof.
  revert m. induction kvs as [|[k' v'] kvs IH]; intros m; simpl.
  - by destruct (m !! k).
  - rewrite IH, values_at_cons. destruct (decide (k' = k)) as [->|Hne].
    + destruct (m !! k) as [v|] eqn:Hk; [by rewrite Hk|].
      by rewrite lookup_insert_eq.
    + destruct (m !! k') eqn:Hk'; [done|]. by rewrite lookup_insert_ne.
Qed.

Lemma index_by_last (r : list E) (key : E → M K) (val : E → M V) s kvs s' :
  project_all (both key val) r s = Ret kvs s' →
  ∃ m, index_by r key val (Some true) s = Ret m s'
       ∧ ∀ k, m !! k = last (values_at k kvs).
Proof.
  intros Hkvs. eexists. split.
  - rewrite index_by_overwrite_project. unfold bind. by rewrite Hkvs.
  - intros k. rewrite lookup_foldl_overwrite, lookup_empty.
    by destruct (last _).
Qed.

Lemma index_by_first (r : list E) (key : E → M K) (val : E → M V) s kvs s' :
  project_all (both key val) r s = Ret kvs s' →
  ∃ m, index_by r key val (Some false) s = Ret m s'
       ∧ ∀ k, m !! k = head (values_at k kvs).
Proof.
  intros Hkvs. eexists. split.
  - rewrite index_by_keep_project. unfold bind. by rewrite Hkvs.
  - intros k. by rewrite lookup_foldl_keep, lookup_empty.
Qed.
End IndexFacts.

(** C4. With [overwrite = true] every key is mapped to the value projected
    from the last element that has it, with [overwrite = false] to the
    value projected from the first one; leaving the flag out is
    [overwrite = true].  On [(a,1), (a,2)] keyed by the first component the
    two modes give [a -> 2] and [a -> 1]. *)
Theorem index_by_overwrite_last_keep_first {St Exn E V : Type} `{Countable K}
    (r : list E) (key : E → M St Exn K) (val : E → M St Exn V) s kvs s' :
  project_all (both key val) r s = Ret kvs s' →
  (∃ m, index_by r key val (Some true) s = Ret m s'
        ∧ ∀ k, m !! k = last (values_at k kvs))
  ∧ (∃ m, index_by r key val (Some false) s = Ret m s'
          ∧ ∀ k, m !! k = head (values_at k kvs))
  ∧ index_by r key val None s = index_by r key val (Some true) s
  ∧ index_by [("a", 1%Z); ("a", 2%Z)] (pure_proj fst) (pure_proj snd)
             (Some true) s
    = Ret (Exn := Exn) {["a" := 2%Z]} s
  ∧ index_by [("a", 1%Z); ("a", 2%Z)] (pure_proj fst) (pure_proj snd)
             (Some false) s
    = Ret (Exn := Exn) {["a" := 1%Z]} s.
Proof.
  intros Hkvs. split_and!.
  - by apply index_by_last.
  - by apply index_by_first.
  - done.
  - reflexivity.
  - reflexivity.
Qed.

(** ** accumulate_by and transform_reduce_by *)

Section ReduceFacts.
Context {St Exn E : Type} `{Countable K}.
Local Abbreviation M := (M St Exn).

Lemma accumulate_by_project {V} `{Numeric V} (r : list E) (key : E → M K)
    (value : E → M V) n s :
  accumulate_by r key value n s =
  (let* kvs := project_all (both key value) r in
   ret (foldl (λ accs kv, <[kv.1 := add (default zero (accs !! kv.1)) kv.2]> accs)
              ∅ kvs)) s.
Proof.
  rewrite <-(for_each_project2 key value
    (λ (accs : gmap K V) k v, <[k := add (default zero (accs !! k)) v]> accs)).
  exact (bind_ret_r _ s).
Qed.

Lemma lookup_foldl_add {V} `{Numeric V} (kvs : list (K * V)) (accs : gmap K V) k :
  foldl (λ accs kv, <[kv.1 := add (default zero (accs !! kv.1)) kv.2]> accs)
        accs kvs !! k =
  match values_at k kvs with
  | [] => accs !! k
  | vs => Some (foldl add (default zero (accs !! k)) vs)
  end.
Proof.
  revert accs. induction kvs as [|[k' v'] kvs IH]; intros accs; simpl; [done|].
  rewrite IH, values_at_cons. destruct (decide (k' = k)) as [->|Hne].
  - rewrite lookup_insert_eq. simpl. by destruct (values_at k kvs).
  - by rewrite lookup_insert_ne.
Qed.

Lemma transform_reduce_by_impl_ext {V Acc R} (r : list E) (key : E → M K)
    (value : E → M V) (t1 t2 : traits Acc V R) n1 n2 s :
  identity t1 = identity t2 →
  (∀ acc v s, combine t1 acc v s = combine t2 acc v s) →
  finalize t1 = finalize t2 →
  transform_reduce_by_impl r key value t1 n1 s =
  transform_reduce_by_impl r key value t2 n2 s.
Proof.
  intros Hid Hcomb Hfin. unfold transform_reduce_by_impl, try_reserve.
  apply bind_ext.
  - apply for_each_ext. intros accs x s0.
    apply bind_ext; [done|]. intros k s1.
    apply bind_ext; [done|]. intros v s2.
    rewrite Hid. apply bind_ext; [apply Hcomb|done].
  - intros accs s0. by rewrite Hfin.
Qed.
End ReduceFacts.

(** C5. Without an initial value, [accumulate_by] maps every key to the
    sum of the values projected from the elements that have it, added one
    after the other onto the zero of the value type; the scores
    [(red,3), (blue,2), (red,5), (blue,4), (red,-1)] give [red = 7] and
    [blue = 6]. *)
Theorem accumulate_by_sums_each_key {St Exn E V : Type} `{Countable K}
    `{Numeric V} (r : list E) (key : E → M St Exn K) (value : E → M St Exn V)
    n s kvs s' :
  project_all (both key value) r s = Ret kvs s' →
  (∃ totals,
     accumulate_by r key value n s = Ret totals s'
     ∧ ∀ k, totals !! k = match values_at k kvs with
                          | [] => None
                          | vs => Some (foldl add zero vs)
                          end)
  ∧ accumulate_by
      [("red", 3%Z); ("blue", 2%Z); ("red", 5%Z); ("blue", 4%Z); ("red", (-1)%Z)]
      (pure_proj fst) (pure_proj snd) n s
    = Ret (Exn := Exn) {["red" := 7%Z; "blue" := 6%Z]} s.
Proof.
  intros Hkvs. split.
  - eexists. split.
    + rewrite accumulate_by_project. unfold bind. by rewrite Hkvs.
    + intros k. by rewrite lookup_foldl_add, lookup_empty.
  - reflexivity.
Qed.

(** C6. A traits object without [finalize] whose [identity] is [i] and
    whose [combine] does what the binary operation [c] does gives the same
    outcome as the call with the plain pair [(i, c)]: the same map, the
    same final state, or the same exception. *)
Theorem transform_reduce_by_traits_as_pair {St Exn E V Acc : Type}
    `{Countable K} (r : list E) (key : E → M St Exn K)
    (value : E → M St Exn V) (t : traits Acc V Acc) (i : Acc)
    (c : Acc → V → M St Exn Acc) n s :
  finalize t = NoFinalize →
  identity t = i →
  (∀ acc v s0, combine t acc v s0 = c acc v s0) →
  transform_reduce_by r key value t n s =
  transform_reduce_by_init r key value i c n s.
Proof.
  intros Hfin Hid Hcomb.
  unfold transform_reduce_by, transform_reduce_by_init.
  by apply transform_reduce_by_impl_ext.
Qed.

(** ** extrema_by *)

Section ExtremaFacts.
Context {St Exn E : Type} `{Countable K} {V O : Type}.
Local Abbreviation M := (M St Exn).

Lemma extrema_by_project (r : list E) (key : E → M K) (value : E → M V)
    (order : E → M O) comp n s :
  extrema_by r key value order comp n s =
  (let* kovs := project_all (both key (both order value)) r in
   ret ((λ st, ExtremaResult (min_value st) (max_value st))
        <$> foldl (extrema_step comp) ∅ kovs)) s.
Proof.
  rewrite <-for_each_project_then.
  unfold extrema_by, try_reserve. apply bind_ext; [|done].
  apply for_each_ext. intros states x s0. unfold both, bind, ret.
  destruct (key x s0) as [k s1|]; [|done].
  destruct (order x s1) as [o s2|]; [|done].
  by destruct (value x s2).
Qed.

Lemma lookup_foldl_extrema comp (kovs : list (K * (O * V))) states k :
  foldl (extrema_step comp) states kovs !! k =
  foldl (extrema_track comp) (states !! k) (values_at k kovs).
Proof.
  revert states. induction kovs as [|[k' ov] kovs IH]; intros states; [done|].
  simpl. rewrite IH, values_at_cons. unfold extrema_step. simpl.
  destruct (decide (k' = k)) as [->|Hne]; simpl.
  - f_equal. destruct (states !! k); by rewrite lookup_insert_eq.
  - f_equal. destruct (states !! k'); by rewrite lookup_insert_ne.
Qed.

Section Track.
Variable comp : O → O → bool.
Hypothesis comp_swo : strict_weak_order comp.

Lemma first_min_singleton o (v : V) : first_min comp [(o, v)] 0 o v.
Proof.
  split_and!; [done| |intros; lia].
  intros [|i] oi vi [=]; subst. apply comp_swo.
Qed.

Lemma first_max_singleton o (v : V) : first_max comp [(o, v)] 0 o v.
Proof.
  split_and!; [done| |intros; lia].
  intros [|i] oi vi [=]; subst. apply comp_swo.
Qed.

Lemma first_min_snoc_keep (l : list (O * V)) j o v o' v' :
  first_min comp l j o v → comp o' o = false →
  first_min comp (l ++ [(o', v')]) j o v.
Proof.
  intros (Hj & Hall & Hbefore) Hc. split_and!.
  - by apply lookup_app_l_Some.
  - intros i oi vi [[_ Hi]|[_ [= <- <-]]]%lookup_snoc_Some; eauto.
  - intros i oi vi Hlt [[_ Hi]|[-> _]]%lookup_snoc_Some; eauto.
    apply lookup_lt_Some in Hj. lia.
Qed.

Lemma first_min_snoc_new (l : list (O * V)) j o v o' v' :
  first_min comp l j o v → comp o' o = true →
  first_min comp (l ++ [(o', v')]) (length l) o' v'.
Proof.
  intros (Hj & Hall & Hbefore) Hc. split_and!.
  - by apply list_lookup_middle.
  - intros i oi vi [[_ Hi]|[_ [= <- <-]]]%lookup_snoc_Some.
    + destruct (comp oi o') eqn:Hoi; [|done].
      pose proof (swo_trans comp comp_swo _ _ _ Hoi Hc) as Ht.
      by rewrite (Hall i oi vi Hi) in Ht.
    + apply comp_swo.
  - intros i oi vi Hlt [[_ Hi]|[-> _]]%lookup_snoc_Some; [|lia].
    destruct (swo_split comp comp_swo o' o oi Hc) as [?|Hoi]; [done|].
    by rewrite (Hall i oi vi Hi) in Hoi.
Qed.

Lemma first_max_snoc_keep (l : list (O * V)) j o v o' v' :
  first_max comp l j o v → comp o o' = false →
  first_max comp (l ++ [(o', v')]) j o v.
Proof.
  intros (Hj & Hall & Hbefore) Hc. split_and!.
  - by apply lookup_app_l_Some.
  - intros i oi vi [[_ Hi]|[_ [= <- <-]]]%lookup_snoc_Some; eauto.
  - intros i oi vi Hlt [[_ Hi]|[-> _]]%lookup_snoc_Some; eauto.
    apply lookup_lt_Some in Hj. lia.
Qed.

Lemma first_max_snoc_new (l : list (O * V)) j o v o' v' :
  first_max comp l j o v → comp o o' = true →
  first_max comp (l ++ [(o', v')]) (length l) o' v'.
Proof.
  intros (Hj & Hall & Hbefore) Hc. split_and!.
  - by apply list_lookup_middle.
  - intros i oi vi [[_ Hi]|[_ [= <- <-]]]%lookup_snoc_Some.
    + destruct (comp o' oi) eqn:Hoi; [|done].
      pose proof (swo_trans comp comp_swo _ _ _ Hc Hoi) as Ht.
      by rewrite (Hall i oi vi Hi) in Ht.
    + apply comp_swo.
  - intros i oi vi Hlt [[_ Hi]|[-> _]]%lookup_snoc_Some; [|lia].
    destruct (swo_split comp comp_swo o o' oi Hc) as [Hoi|?]; [|done].
    by rewrite (Hall i oi vi Hi) in Hoi.
Qed.

(** The state kept for a key after its pairs [ov :: ovs] have been folded
    in holds the earliest smallest and the earliest largest pair. *)
Lemma extrema_track_first (ov : O * V) ovs :
  ∃ st jmin jmax,
    foldl (extrema_track comp) None (ov :: ovs) = Some st
    ∧ first_min comp (ov :: ovs) jmin (min_order st) (min_value st)
    ∧ first_max comp (ov :: ovs) jmax (max_order st) (max_value st).
Proof.
  induction ovs as [|[o' v'] ovs IH] using rev_ind.
  - destruct ov as [o v]. exists (ExtremaState v o v o), 0, 0. simpl.
    split_and!; [done|apply first_min_singleton|apply first_max_singleton].
  - destruct IH as (st & jmin & jmax & Hst & Hmin & Hmax).
    rewrite app_comm_cons, foldl_snoc, Hst. simpl.
    unfold extrema_update.
    destruct (comp o' (min_order st)) eqn:Hc1; simpl;
      destruct (comp (max_order st) o') eqn:Hc2; simpl;
      eexists _, _, _; (split; [done|]); simpl;
      change (ov :: ovs ++ [(o', v')]) with ((ov :: ovs) ++ [(o', v')]);
      split;
      eauto using first_min_snoc_keep, first_min_snoc_new,
                  first_max_snoc_keep, first_max_snoc_new.
Qed.
End Track.

(** C3. Under a comparator that is a strict weak ordering, [extrema_by]
    has an entry exactly for the keys that occur; its [min] is the value
    of the earliest element of that key whose order key is smallest, and
    its [max] the value of the earliest element whose order key is
    largest: an element whose order key merely ties with the stored one
    never replaces it. *)
Theorem extrema_by_keeps_earliest_extremes (r : list E) (key : E → M K)
    (value : E → M V) (order : E → M O) (comp : O → O → bool) n s kovs s' :
  strict_weak_order comp →
  project_all (both key (both order value)) r s = Ret kovs s' →
  ∃ out,
    extrema_by r key value order comp n s = Ret out s'
    ∧ ∀ k, match values_at k kovs with
           | [] => out !! k = None
           | ovs =>
               ∃ res jmin omin jmax omax,
                 out !! k = Some res
                 ∧ first_min comp ovs jmin omin (min res)
                 ∧ first_max comp ovs jmax omax (max res)
           end.
Proof.
  intros Hswo Hkovs. eexists. split.
  - rewrite extrema_by_project. unfold bind. by rewrite Hkovs.
  - intros k. rewrite lookup_fmap, lookup_foldl_extrema, lookup_empty.
    destruct (values_at k kovs) as [|ov ovs]; [done|].
    destruct (extrema_track_first comp Hswo ov ovs)
      as (st & jmin & jmax & -> & Hmin & Hmax).
    simpl. eauto 10.
Qed.
End ExtremaFacts.

(** ** Ordering helpers *)

Section SortFacts.
Context {A : Type} (cmp : A → A → bool).

Lemma sort_insert_Permutation x l : sort_insert cmp x l ≡ₚ x :: l.
Proof.
  induction l as [|y l IH]; simpl; [done|].
  destruct (cmp y x); [|done]. rewrite IH. apply Permutation_swap.
Qed.

Lemma sort_Permutation l : sort cmp l ≡ₚ l.
Proof.
  induction l as [|x l IH]; simpl; [done|].
  by rewrite sort_insert_Permutation, IH.
Qed.

Lemma HdRel_sort_insert y x l :
  cmp x y = false →
  HdRel (λ a b, cmp b a = false) y l →
  HdRel (λ a b, cmp b a = false) y (sort_insert cmp x l).
Proof.
  intros Hyx Hl. destruct l as [|y' l]; simpl; [by constructor|].
  destruct (cmp y' x); constructor; [by inv Hl|done].
Qed.

Lemma is_sorted_sort_insert x l :
  (∀ a b, cmp a b = true → cmp b a = false) →
  is_sorted cmp l → is_sorted cmp (sort_insert cmp x l).
Proof.
  intros Hasym. unfold is_sorted.
  induction l as [|y l IH]; simpl; intros Hl.
  - by repeat constructor.
  - inv Hl. destruct (cmp y x) eqn:Hc.
    + constructor; [auto|]. apply HdRel_sort_insert; auto.
    + constructor; [by constructor|by constructor].
Qed.

Lemma is_sorted_sort l :
  (∀ a b, cmp a b = true → cmp b a = false) → is_sorted cmp (sort cmp l).
Proof.
  intros Hasym. induction l as [|x l IH]; simpl; [constructor|].
  by apply is_sorted_sort_insert.
Qed.

Section Total.
Hypothesis cmp_total : strict_total cmp.

Lemma strict_total_asym a b : cmp a b = true → cmp b a = false.
Proof.
  intros Hab. destruct (cmp b a) eqn:Hba; [|done].
  pose proof (lt_trans cmp cmp_total _ _ _ Hab Hba) as Haa.
  by rewrite (lt_irrefl cmp cmp_total) in Haa.
Qed.

Lemma strict_total_strict_weak_order : strict_weak_order cmp.
Proof.
  split; [apply cmp_total|apply cmp_total|].
  intros a b c Hab.
  destruct (lt_total cmp cmp_total a c) as [->|[?|Hca]]; [by right|by left|].
  right. by apply (lt_trans cmp cmp_total c a b).
Qed.

Lemma strict_total_not_before a b :
  cmp b a = false ↔ a = b ∨ cmp a b = true.
Proof.
  split.
  - intros Hba.
    destruct (lt_total cmp cmp_total a b) as [?|[?|?]]; [by left|by right|].
    congruence.
  - intros [->|Hab]; [apply cmp_total|by apply strict_total_asym].
Qed.

Local Instance not_before_trans : Transitive (λ a b : A, cmp b a = false).
Proof.
  intros a b c. rewrite !strict_total_not_before.
  intros [->|Hab] [->|Hbc]; auto.
  right. eapply lt_trans; eauto.
Qed.

(** A strict total order leaves [std::ranges::sort] no freedom: a list has
    exactly one sorted arrangement. *)
Lemma is_sorted_unique l1 l2 :
  l1 ≡ₚ l2 → is_sorted cmp l1 → is_sorted cmp l2 → l1 = l2.
Proof.
  intros Hperm Hl1 Hl2.
  apply (Sorted_unique_strong (λ a b, cmp b a = false)); [|done..].
  intros a b _ _ Hba Hab. apply strict_total_not_before in Hba as [->|Hab'];
    [done|congruence].
Qed.

Lemma is_sorted_take n l : is_sorted cmp l → is_sorted cmp (take n l).
Proof.
  unfold is_sorted. intros Hl.
  apply Sorted_StronglySorted in Hl; [|apply _].
  apply StronglySorted_Sorted.
  rewrite <-(take_drop n l) in Hl. by apply StronglySorted_app_1_l in Hl.
Qed.

Lemma sort_sorted_id l : is_sorted cmp l → sort cmp l = l.
Proof.
  intros Hl. apply is_sorted_unique; [apply sort_Permutation| |done].
  apply is_sorted_sort, strict_total_asym.
Qed.
End Total.
End SortFacts.

Section TopKFacts.
Context `{Countable K} {V : Type} `{Less K} `{Less V} `{EqDecision V}.
Hypothesis less_K : strict_total (less (T := K)).
Hypothesis less_V : strict_total (less (T := V)).

Lemma top_k_take (m : gmap K V) k cmp :
  top_k m k cmp = take k (to_sorted_pairs m cmp).
Proof.
  unfold top_k. simpl. destruct (k <? _) eqn:Hk; [done|].
  apply Nat.ltb_ge in Hk. by rewrite take_ge.
Qed.

Lemma top_k_by_value_take (m : gmap K V) k :
  top_k_by_value m k = take k (sort value_desc_key_asc (map_to_list m)).
Proof. apply top_k_take. Qed.

Lemma less_neq {T} `{Less T} (a b : T) :
  strict_total (less (T := T)) → less a b = true → a ≠ b.
Proof. intros Hlt Hab ->. by rewrite (lt_irrefl _ Hlt) in Hab. Qed.

Lemma value_desc_key_asc_strict_total :
  strict_total (value_desc_key_asc (K := K) (V := V)).
Proof.
  split; unfold value_desc_key_asc.
  - intros [ka va]. simpl. rewrite bool_decide_eq_false_2 by tauto.
    apply less_K.
  - intros [ka va] [kb vb] [kc vc]. simpl. intros Hab Hbc.
    pose proof (lt_trans _ less_K) as HtK.
    pose proof (lt_trans _ less_V) as HtV.
    repeat case_bool_decide; simplify_eq; eauto.
    exfalso. pose proof (HtV _ _ _ Hab Hbc) as Hbb.
    by rewrite (lt_irrefl _ less_V) in Hbb.
  - intros [ka va] [kb vb]. simpl.
    destruct (lt_total _ less_V va vb) as [->|[Hv|Hv]].
    + rewrite !bool_decide_eq_false_2 by tauto.
      destruct (lt_total _ less_K ka kb) as [->|[?|?]]; auto.
    + pose proof (less_neq _ _ less_V Hv).
      rewrite !bool_decide_eq_true_2 by congruence. auto.
    + pose proof (less_neq _ _ less_V Hv).
      rewrite !bool_decide_eq_true_2 by congruence. auto.
Qed.

Lemma NoDup_fst_take_sort (m : gmap K V) k cmp :
  NoDup (take k (sort cmp (map_to_list m))).*1.
Proof.
  rewrite fmap_take. eapply sublist_NoDup; [|apply sublist_take].
  rewrite sort_Permutation. apply NoDup_fst_map_to_list.
Qed.

(** C9. With [<] a strict total order on keys and on values,
    [top_k_by_value] is idempotent: building a map from its output and
    taking the top [k] of that map again returns the same sequence.  Its
    comparator (value descending, then key ascending) is a strict total
    order on the pairs, so in particular on pairs with distinct keys, and
    therefore the output does not depend on how the map is iterated or on
    the sorting algorithm: the first [k] entries of any sorted arrangement
    of the map's pairs are that output. *)
Theorem top_k_by_value_idempotent (m : gmap K V) (k : nat) :
  top_k_by_value (list_to_map (top_k_by_value m k) : gmap K V) k
    = top_k_by_value m k
  ∧ strict_total (value_desc_key_asc (K := K) (V := V))
  ∧ (∀ a b : K * V, a.1 ≠ b.1 →
       value_desc_key_asc a b = true ∨ value_desc_key_asc b a = true)
  ∧ (∀ l, l ≡ₚ map_to_list m → is_sorted value_desc_key_asc l →
       take k l = top_k_by_value m k).
Proof.
  pose proof value_desc_key_asc_strict_total as Hcmp.
  assert (Hsorted : ∀ l : list (K * V),
            is_sorted value_desc_key_asc (sort value_desc_key_asc l)).
  { intros l. by apply is_sorted_sort, strict_total_asym. }
  split_and!.
  - rewrite !top_k_by_value_take.
    set (out := take k (sort value_desc_key_asc (map_to_list m))).
    assert (sort value_desc_key_asc (map_to_list (list_to_map out : gmap K V))
            = out) as ->.
    { apply (is_sorted_unique _ Hcmp).
      - rewrite sort_Permutation. apply map_to_list_to_map.
        apply NoDup_fst_take_sort.
      - apply Hsorted.
      - apply is_sorted_take; [done|apply Hsorted]. }
    apply take_idemp.
  - done.
  - intros a b Hne. destruct (lt_total _ Hcmp a b) as [->|?]; [done|auto].
  - intros l Hperm Hl. rewrite top_k_by_value_take. f_equal.
    apply (is_sorted_unique _ Hcmp); [|done|apply Hsorted].
    by rewrite sort_Permutation.
Qed.
End TopKFacts.

(** ** One call per element, in sequence order *)

Section LogFacts.
Context {St Exn C : Type}.

Lemma logs_ret {A} (a : A) : logs (St := St) (Exn := Exn) (C := C) (ret a) (ret a) [].
Proof. intros s log a' s' [= <- <-]. unfold ret. by rewrite app_nil_r. Qed.

Lemma logs_logged {A} (ev : C) (m : M St Exn A) : logs m (logged ev m) [ev].
Proof. intros s log a s' Hm. unfold logged. simpl. by rewrite Hm. Qed.

Lemma logs_bind {A B} (m : M St Exn A) m' (f : A → M St Exn B) f' l1 l2 :
  logs (C := C) m m' l1 → (∀ a, logs (f a) (f' a) l2) →
  logs (let* a := m in f a) (let* a := m' in f' a) (l1 ++ l2).
Proof.
  intros Hm Hf s log b s'. unfold bind.
  destruct (m s) as [a s1|] eqn:Hms; [|done]. intros Hfa.
  rewrite (Hm _ log _ _ Hms), (Hf a _ (log ++ l1) _ _ Hfa).
  by rewrite app_assoc.
Qed.

Lemma logs_bind_ret {A B} (m : M St Exn A) m' (g : A → B) l :
  logs (C := C) m m' l →
  logs (let* a := m in ret (g a)) (let* a := m' in ret (g a)) l.
Proof.
  intros Hm. rewrite <-(app_nil_r l).
  apply logs_bind; [done|]. intros a. apply logs_ret.
Qed.

Lemma logs_for_each {A B} (body : B → A → M St Exn B) body' (evs : A → list C)
    r st :
  (∀ st x, logs (body st x) (body' st x) (evs x)) →
  logs (for_each body r st) (for_each body' r st) (concat (evs <$> r)).
Proof.
  intros Hbody. revert st. induction r as [|x r IH]; intros st; simpl.
  - apply logs_ret.
  - apply logs_bind; [apply Hbody|]. intros st'. apply IH.
Qed.
End LogFacts.

Section CallFacts.
Context {St Exn E : Type} `{Countable K}.
Local Abbreviation M := (M St Exn).

Lemma concat_fmap_singleton {A B} (f : A → B) (l : list A) :
  concat ((λ x, [f x]) <$> l) = f <$> l.
Proof. induction l; simpl; by f_equal. Qed.







End CallFacts.


(** ** Exceptions thrown by the projections *)

Section ThrowFacts.
Context {St Exn E : Type} `{Countable K}.
Local Abbreviation M := (M St Exn).

Lemma for_each_throw {A B} (body : B → A → M B) pre x post st s st1 s1 e s2 :
  for_each body pre st s = Ret st1 s1 →
  body st1 x s1 = Throw e s2 →
  for_each body (pre ++ x :: post) st s = Throw e s2.
Proof.
  intros Hpre Hx. rewrite for_each_app. unfold bind. rewrite Hpre. simpl.
  unfold bind. by rewrite Hx.
Qed.


End ThrowFacts.


(** ** partition_by: the predicate is asked first *)

Section PredicateFirst.
Context {St Exn E V : Type}.
Local Abbreviation M := (M St Exn).

Lemma project_all_app_inv {A B} (f : A → M B) pre x post s bs s4 :
  project_all f (pre ++ x :: post) s = Ret bs s4 →
  ∃ bs1 s1 b s3 bs2,
    project_all f pre s = Ret bs1 s1
    ∧ f x s1 = Ret b s3
    ∧ project_all f post s3 = Ret bs2 s4
    ∧ bs = bs1 ++ b :: bs2.
Proof.
  rewrite project_all_app. unfold bind at 1.
  destruct (project_all f pre s) as [bs1 s1|]; [|done].
  simpl. unfold bind, ret.
  destruct (f x s1) as [b s3|] eqn:Hx; [|done].
  destruct (project_all f post s3) as [bs2 s4'|] eqn:Hpost; [|done].
  intros [= <- <-]. eauto 10.
Qed.

Lemma both_ret_inv {A B C} (f : A → M B) (g : A → M C) x s b c s' :
  both f g x s = Ret (b, c) s' → ∃ s1, f x s = Ret b s1 ∧ g x s1 = Ret c s'.
Proof.
  unfold both, bind, ret. destruct (f x s) as [b' s1|]; [|done].
  destruct (g x s1) as [c' s2|] eqn:Hg; [|done].
  intros [= <- <- <-]. eauto.
Qed.

Lemma partition_by_ret (r : list E) (pred : E → M bool) (value : E → M V)
    s bvs s' :
  project_all (both pred value) r s = Ret bvs s' →
  partition_by r pred value s
  = Ret (PartitionResult (filter (λ bv, bv.1 = false) bvs).*2
                         (filter (λ bv, bv.1 = true) bvs).*2) s'.
Proof.
  intros Hbvs. rewrite partition_by_project. unfold bind. rewrite Hbvs.
  by rewrite foldl_route.
Qed.

(** C10. For every element [x] of a sequence on which [partition_by]
    returns, the predicate is evaluated on [x] in the state [s1] left by
    the elements before it, the value projection of [x] runs afterwards,
    in the state [s2] the predicate left, and the projected value goes to
    the branch the predicate chose, after the values of the earlier
    elements and before those of the later ones.  What the value
    projection does to the element or to shared state therefore comes too
    late to change the branch of [x]. *)
Theorem partition_by_asks_predicate_first (pre : list E) (x : E)
    (post : list E) (pred : E → M bool) (value : E → M V) s out s4 :
  partition_by (pre ++ x :: post) pred value s = Ret out s4 →
  ∃ before s1 b s2 v s3 after,
    partition_by pre pred value s = Ret before s1
    ∧ pred x s1 = Ret b s2
    ∧ value x s2 = Ret v s3
    ∧ partition_by post pred value s3 = Ret after s4
    ∧ out = if b
            then PartitionResult (falses before ++ falses after)
                                 (trues before ++ v :: trues after)
            else PartitionResult (falses before ++ v :: falses after)
                                 (trues before ++ trues after).
Proof.
  rewrite partition_by_project. intros Hout.
  apply bind_ret_inv in Hout as (bvs & Hbvs & ->).
  apply project_all_app_inv in Hbvs
    as (bvs1 & s1 & [b v] & s3 & bvs2 & Hpre & Hx & Hpost & ->).
  apply both_ret_inv in Hx as (s2 & Hpred & Hvalue).
  eexists _, s1, b, s2, v, s3, _. split_and!.
  - by apply partition_by_ret.
  - done.
  - done.
  - by apply partition_by_ret.
  - rewrite foldl_route. simpl.
    rewrite !filter_app, !filter_cons, !fmap_app. simpl.
    by destruct b.
Qed.
End PredicateFirst.

(** * The test cases of the repository *)

(** The orders the tests use. *)

Lemma Z_ltb_strict_weak_order : strict_weak_order Z.ltb.
Proof. split; intros; lia. Qed.

Lemma Z_less_strict_total : strict_total (less (T := Z)).
Proof. unfold less, Z_less. split; intros; lia. Qed.

Lemma nat_less_strict_total : strict_total (less (T := nat)).
Proof.
  unfold less, nat_less. split.
  - intros a. apply Nat.ltb_irrefl.
  - intros a b c ?%Nat.ltb_lt ?%Nat.ltb_lt. apply Nat.ltb_lt. lia.
  - intros a b. rewrite !Nat.ltb_lt. lia.
Qed.

(** [CountByIntegers] *)
Example count_by_integers s :
  count_by [1; 2; 2; 3; 1; 4]%Z (pure_proj id) 0 s
  = Ret (Exn := unit) (St := unit)
        {[1%Z := 2; 2%Z := 2; 3%Z := 1; 4%Z := 1]} s.
Proof. reflexivity. Qed.

Lemma count_by_counts_every_key_witness :
  project_all (St := unit) (Exn := unit) (pure_proj id) integers tt
    = Ret integers tt
  ∧ ∃ freq : gmap Z nat,
      count_by (St := unit) (Exn := unit) integers (pure_proj id) 0 tt
        = Ret freq tt
      ∧ dom freq = list_to_set integers
      ∧ size freq = length (remove_dups integers)
      ∧ (∀ k, k ∈ integers → freq !! k = Some (occurrences k integers))
      ∧ total_count freq = length integers.
Proof.
  split; [reflexivity|].
  apply (count_by_counts_every_key (St := unit) (Exn := unit)).
  reflexivity.
Defined.

(** [PartitionByBooleanPredicate] *)
Example partition_by_even s :
  partition_by one_to_six (pure_proj Z.even) (pure_proj id) s
  = Ret (St := unit) (Exn := unit)
        (PartitionResult [1; 3; 5]%Z [2; 4; 6]%Z) s.
Proof. reflexivity. Qed.

Lemma partition_by_splits_in_order_witness :
  project_all (St := unit) (Exn := unit)
    (both (pure_proj Z.even) (pure_proj id)) one_to_six tt
    = Ret ((λ v, (Z.even v, v)) <$> one_to_six) tt
  ∧ ∃ out,
      partition_by (St := unit) (Exn := unit) one_to_six
                   (pure_proj Z.even) (pure_proj id) tt = Ret out tt
      ∧ trues out
        = (filter (λ bv, bv.1 = true) ((λ v, (Z.even v, v)) <$> one_to_six)).*2
      ∧ falses out
        = (filter (λ bv, bv.1 = false) ((λ v, (Z.even v, v)) <$> one_to_six)).*2
      ∧ length (trues out) + length (falses out) = length one_to_six
      ∧ interleave ((λ v, (Z.even v, v)) <$> one_to_six).*1
                   (falses out) (trues out)
        = ((λ v, (Z.even v, v)) <$> one_to_six).*2.
Proof.
  split; [reflexivity|].
  apply (partition_by_splits_in_order (St := unit) (Exn := unit)).
  reflexivity.
Defined.

(** [ExtremaByKeepsPerKeyMinMax]: the whole reading is the value, the
    timestamp is the order key. *)
Example extrema_by_readings s :
  extrema_by readings (pure_proj (λ r, r.1.1)) (pure_proj id)
             (pure_proj snd) Z.ltb 0 s
  = Ret (St := unit) (Exn := unit)
        {["alpha" := ExtremaResult ("alpha", 4, 90)%Z ("alpha", 15, 300)%Z;
          "beta" := ExtremaResult ("beta", 5, 80)%Z ("beta", 12, 200)%Z]} s.
Proof. reflexivity. Qed.

(** [ExtremaByHandlesMoveBeforeOrder]: the entries live in the state, the
    value projection moves the payload out and the order projection reads
    its length; the order projection runs first. *)
Example extrema_by_move_before_order :
  extrema_by (Exn := unit) [0; 1; 2; 3]
    entry_key entry_move_payload entry_payload_size Nat.ltb 0 entries
  = Ret {["alpha" := ExtremaResult "xx" "longer";
          "beta" := ExtremaResult "solo" "solo"]}
        [("alpha", moved_from); ("alpha", moved_from);
         ("alpha", moved_from); ("beta", moved_from)].
Proof. reflexivity. Qed.

Lemma extrema_by_keeps_earliest_extremes_witness :
  strict_weak_order Z.ltb
  ∧ project_all (St := unit) (Exn := unit)
      (both (pure_proj (λ r : string * Z * Z, r.1.1))
            (both (pure_proj snd) (pure_proj id))) readings tt
    = Ret ((λ r, (r.1.1, (r.2, r))) <$> readings) tt
  ∧ ∃ out,
      extrema_by (St := unit) (Exn := unit) readings
        (pure_proj (λ r, r.1.1)) (pure_proj id) (pure_proj snd) Z.ltb 0 tt
      = Ret out tt
      ∧ ∀ k, match values_at k ((λ r, (r.1.1, (r.2, r))) <$> readings) with
             | [] => out !! k = None
             | ovs =>
                 ∃ res jmin omin jmax omax,
                   out !! k = Some res
                   ∧ first_min Z.ltb ovs jmin omin (min res)
                   ∧ first_max Z.ltb ovs jmax omax (max res)
             end.
Proof.
  assert (Hswo : strict_weak_order Z.ltb) by (split; intros; lia).
  split; [exact Hswo|]. split; [reflexivity|].
  apply (extrema_by_keeps_earliest_extremes (St := unit) (Exn := unit));
    [exact Hswo|reflexivity].
Defined.

(** [IndexByLastIndex]: the value projection is a counting closure. *)
Example index_by_last_index :
  index_by (Exn := unit) integers (pure_proj id) next_index (Some true) 0
  = Ret {[1%Z := 4; 2%Z := 2; 3%Z := 3; 4%Z := 5]} 6.
Proof. reflexivity. Qed.

Lemma index_by_overwrite_last_keep_first_witness :
  project_all (Exn := unit) (both (pure_proj id) next_index) integers 0
    = Ret indexed_integers 6
  ∧ (∃ m : gmap Z nat,
       index_by (Exn := unit) integers (pure_proj id) next_index (Some true) 0
         = Ret m 6
       ∧ ∀ k, m !! k = last (values_at k indexed_integers))
  ∧ (∃ m : gmap Z nat,
       index_by (Exn := unit) integers (pure_proj id) next_index (Some false) 0
         = Ret m 6
       ∧ ∀ k, m !! k = head (values_at k indexed_integers)).
Proof.
  split; [reflexivity|].
  destruct (index_by_overwrite_last_keep_first (Exn := unit) integers
              (pure_proj id) next_index 0 indexed_integers 6 eq_refl)
    as (Hlast & Hfirst & _).
  split; [exact Hlast|exact Hfirst].
Defined.

(** [AccumulateBySum], with and without the initial value. *)
Example accumulate_by_scores s :
  accumulate_by scores (pure_proj fst) (pure_proj snd) 0 s
  = Ret (St := unit) (Exn := unit) {["red" := 7%Z; "blue" := 6%Z]} s
  ∧ accumulate_by_init scores (pure_proj fst) (pure_proj snd) 10%Z 0 s
    = Ret (St := unit) (Exn := unit) {["red" := 17%Z; "blue" := 16%Z]} s.
Proof. split; reflexivity. Qed.

Lemma accumulate_by_sums_each_key_witness :
  project_all (St := unit) (Exn := unit)
    (both (pure_proj fst) (pure_proj snd)) scores tt = Ret scores tt
  ∧ ∃ totals : gmap string Z,
      accumulate_by (St := unit) (Exn := unit) scores
                    (pure_proj fst) (pure_proj snd) 0 tt = Ret totals tt
      ∧ ∀ k, totals !! k = match values_at k scores with
                           | [] => None
                           | vs => Some (foldl add zero vs)
                           end.
Proof.
  split; [reflexivity|].
  apply (accumulate_by_sums_each_key (St := unit) (Exn := unit) scores
           (pure_proj fst) (pure_proj snd) 0 tt scores tt).
  reflexivity.
Defined.

Lemma transform_reduce_by_traits_as_pair_witness :
  finalize (sum_traits (St := unit) (Exn := unit) (T := Z)) = NoFinalize
  ∧ identity (sum_traits (St := unit) (Exn := unit) (T := Z)) = 0%Z
  ∧ (∀ acc v s0,
       combine (sum_traits (St := unit) (Exn := unit) (T := Z)) acc v s0
       = ret (acc + v)%Z s0)
  ∧ transform_reduce_by scores (pure_proj fst) (pure_proj snd)
                        sum_traits 0 tt
    = transform_reduce_by_init (St := unit) (Exn := unit) scores
        (pure_proj fst) (pure_proj snd) 0%Z (λ acc v, ret (acc + v)%Z) 0 tt.
Proof.
  split; [reflexivity|]. split; [reflexivity|]. split; [reflexivity|].
  apply transform_reduce_by_traits_as_pair; reflexivity.
Defined.


(** [TopKByValueDeterministic] and the frequency map of the
    specification. *)
Example top_k_by_value_frequencies :
  top_k_by_value frequencies 2 = [(6%Z, 3); (1%Z, 2)]
  ∧ top_k_by_value frequencies 9
    = [(6%Z, 3); (1%Z, 2); (2%Z, 2); (3%Z, 1); (4%Z, 1)]
  ∧ top_k_by_value frequencies 0 = [].
Proof. split_and!; reflexivity. Qed.

(** [TopAndBottomKHelpers] *)
Example top_and_bottom_k_helpers :
  top_k_by_key ({[1 := 4; 2 := 2; 3 := 9; 4 := 1]} : gmap Z Z)%Z 3
  = [(1, 4); (2, 2); (3, 9)]%Z
  ∧ bottom_k_by_value ({[1 := 4; 2 := 2; 3 := 9; 4 := 1]} : gmap Z Z)%Z 2
    = [(4, 1); (2, 2)]%Z.
Proof. split; reflexivity. Qed.

Lemma top_k_by_value_idempotent_witness :
  strict_total (less (T := Z))
  ∧ strict_total (less (T := nat))
  ∧ top_k_by_value (list_to_map (top_k_by_value frequencies 2) : gmap Z nat) 2
    = top_k_by_value frequencies 2
  ∧ (∀ l, l ≡ₚ map_to_list frequencies →
       is_sorted value_desc_key_asc l →
       take 2 l = top_k_by_value frequencies 2).
Proof.
  pose proof Z_less_strict_total as HZ.
  pose proof nat_less_strict_total as Hnat.
  split; [exact HZ|]. split; [exact Hnat|].
  destruct (top_k_by_value_idempotent HZ Hnat frequencies 2)
    as (Hidem & _ & _ & Huniq).
  split; [exact Hidem|exact Huniq].
Defined.

(** [PartitionByEvaluatesPredicateBeforeMove]: the strings that are moved
    out are still judged by their original length.  Asking the value
    projection first would send every string to [falses]. *)
Example partition_by_predicate_before_move :
  partition_by (Exn := unit) [0; 1; 2; 3; 4] longer_than_two move_out words
  = Ret (PartitionResult ["on"; "a"] ["stop"; "cab"; "longword"])
        (replicate 5 moved_from)
  ∧ project_all (Exn := unit) (both move_out longer_than_two)
                [0; 1; 2; 3; 4] words
    = Ret [("on", false); ("stop", false); ("cab", false); ("a", false);
           ("longword", false)]
          (replicate 5 moved_from).
Proof. split; reflexivity. Qed.

Lemma partition_by_asks_predicate_first_witness :
  partition_by (Exn := unit) ([0] ++ 1 :: [2; 3; 4])
               longer_than_two move_out words
    = Ret (PartitionResult ["on"; "a"] ["stop"; "cab"; "longword"])
          (replicate 5 moved_from)
  ∧ ∃ before s1 b s2 v s3 after,
      partition_by (Exn := unit) [0] longer_than_two move_out words
        = Ret before s1
      ∧ longer_than_two (Exn := unit) 1 s1 = Ret b s2
      ∧ move_out (Exn := unit) 1 s2 = Ret v s3
      ∧ partition_by (Exn := unit) [2; 3; 4] longer_than_two move_out s3
        = Ret after (replicate 5 moved_from)
      ∧ PartitionResult ["on"; "a"] ["stop"; "cab"; "longword"]
        = if b
          then PartitionResult (falses before ++ falses after)
                               (trues before ++ v :: trues after)
          else PartitionResult (falses before ++ v :: falses after)
                               (trues before ++ trues after).
Proof.
  split; [reflexivity|].
  apply (partition_by_asks_predicate_first (Exn := unit) [0] 1 [2; 3; 4]
           longer_than_two move_out words).
  reflexivity.
Defined.


(** * Further properties of the library *)

(** ** Which keys a result has *)

Section KeyFacts.
Context `{EqDecision K} {V : Type}.

Lemma values_at_nil (k : K) (kvs : list (K * V)) :
  values_at k kvs = [] ↔ k ∉ kvs.*1.
Proof.
  induction kvs as [|[k' v] kvs IH]; simpl.
  - split; [intros _; apply not_elem_of_nil|done].
  - rewrite values_at_cons, not_elem_of_cons.
    destruct (decide (k' = k)) as [->|Hne]; [split; [done|tauto]|].
    rewrite IH. naive_solver.
Qed.

Lemma length_values_at (k : K) (kvs : list (K * V)) :
  length (values_at k kvs) = occurrences k kvs.*1.
Proof.
  unfold occurrences.
  induction kvs as [|[k' v] kvs IH]; simpl; [done|].
  rewrite values_at_cons, filter_cons. simpl.
  destruct (decide (k' = k)); simpl; by rewrite IH.
Qed.
End KeyFacts.

Section DomFacts.
Context `{Countable K}.

(** A map that has an entry exactly for the keys of [ks] has as many
    entries as [ks] has distinct keys, hence at most [length ks], and at
    least one when [ks] is not empty. *)
Lemma entries_of_keys {A} (m : gmap K A) (ks : list K) :
  (∀ k, is_Some (m !! k) ↔ k ∈ ks) →
  dom m = list_to_set ks
  ∧ size m = length (remove_dups ks)
  ∧ size m ≤ length ks
  ∧ (ks ≠ [] → 1 ≤ size m).
Proof.
  intros Hm.
  assert (Hdom : dom m = list_to_set ks).
  { apply set_eq. intros k. by rewrite elem_of_dom, elem_of_list_to_set. }
  assert (Hsize : size m = length (remove_dups ks)).
  { by rewrite <-size_dom, Hdom, size_list_to_set_remove_dups. }
  split_and!; [done..| |].
  - rewrite Hsize. apply submseteq_length, NoDup_submseteq.
    + apply NoDup_remove_dups.
    + intros k. by rewrite elem_of_remove_dups.
  - intros Hne. destruct ks as [|k ks]; [done|].
    destruct (proj2 (Hm k)) as [a Ha]; [by left|].
    destruct (decide (size m = 0)) as [Hz|]; [|lia].
    apply map_size_empty_iff in Hz. by rewrite Hz, lookup_empty in Ha.
Qed.
End DomFacts.

(** ** Reductions with a reducer that only updates its accumulator *)

Section FoldFacts.
Context {St Exn E : Type} `{Countable K}.
Local Abbreviation M := (M St Exn).

(** The loop shared by [group_reduce_by] and [transform_reduce_by_impl],
    for a reducer that only replaces the content of its accumulator: the
    projections followed by a fold. *)
Lemma reduce_loop_project {V Acc} (r : list E) (key : E → M K)
    (value : E → M V) (i : Acc) (comb : Acc → V → M Acc) (c : Acc → V → Acc)
    (accs : gmap K Acc) s :
  (∀ acc v s0, comb acc v s0 = Ret (c acc v) s0) →
  for_each (fun accs x =>
    let* key_value := key x in
    let* value_copy := value x in
    let* acc' := comb (default i (accs !! key_value)) value_copy in
    ret (<[key_value := acc']> accs)) r accs s =
  (let* kvs := project_all (both key value) r in
   ret (foldl (λ accs kv, <[kv.1 := c (default i (accs !! kv.1)) kv.2]> accs)
              accs kvs)) s.
Proof.
  intros Hcomb.
  rewrite <-(for_each_project2 key value
    (λ (accs : gmap K Acc) k v, <[k := c (default i (accs !! k)) v]> accs)).
  apply for_each_ext. intros accs' x s0.
  apply bind_ext; [done|]. intros k s1.
  apply bind_ext; [done|]. intros v s2.
  unfold bind. by rewrite Hcomb.
Qed.

Lemma lookup_foldl_reduce {V Acc} (c : Acc → V → Acc) (i : Acc)
    (kvs : list (K * V)) (accs : gmap K Acc) k :
  foldl (λ accs kv, <[kv.1 := c (default i (accs !! kv.1)) kv.2]> accs)
        accs kvs !! k =
  match values_at k kvs with
  | [] => accs !! k
  | vs => Some (foldl c (default i (accs !! k)) vs)
  end.
Proof.
  revert accs. induction kvs as [|[k' v'] kvs IH]; intros accs; simpl; [done|].
  rewrite IH, values_at_cons. destruct (decide (k' = k)) as [->|Hne].
  - rewrite lookup_insert_eq. simpl. by destruct (values_at k kvs).
  - by rewrite lookup_insert_ne.
Qed.

Lemma lookup_apply_finalize {Acc R} (f : finalizer Acc R) (accs : gmap K Acc) k :
  apply_finalize f accs !! k = finish f <$> accs !! k.
Proof.
  destruct f; simpl; [by destruct (accs !! k)|apply lookup_fmap].
Qed.

Lemma transform_reduce_by_impl_project {V Acc R} (r : list E) (key : E → M K)
    (value : E → M V) (t : traits Acc V R) (c : Acc → V → Acc) n s :
  (∀ acc v s0, combine t acc v s0 = Ret (c acc v) s0) →
  transform_reduce_by_impl r key value t n s =
  (let* kvs := project_all (both key value) r in
   ret (apply_finalize (finalize t)
          (foldl (λ accs kv,
                    <[kv.1 := c (default (identity t) (accs !! kv.1)) kv.2]> accs)
                 ∅ kvs))) s.
Proof.
  intros Hcomb. unfold transform_reduce_by_impl, try_reserve. cbv zeta.
  unfold bind at 1.
  rewrite (reduce_loop_project r key value (identity t) (combine t) c) by done.
  unfold bind, ret. by destruct (project_all _ r s).
Qed.

(** X1. A reducer whose every call replaces the content [acc] of the
    accumulator it is handed by [c acc v], changes nothing else and does
    not throw: [group_reduce_by] maps every key to the fold of [c] over
    the values of that key, in sequence order, starting from a copy of
    [init] for every key. *)
Theorem group_reduce_by_folds_each_key {V Acc} (r : list E) (key : E → M K)
    (value : E → M V) (init : Acc) (c : Acc → V → Acc) n s kvs s' :
  project_all (both key value) r s = Ret kvs s' →
  ∃ out,
    group_reduce_by r key value init (λ acc v, ret (c acc v)) n s = Ret out s'
    ∧ ∀ k, out !! k = match values_at k kvs with
                      | [] => None
                      | vs => Some (foldl c init vs)
                      end.
Proof.
  intros Hkvs. eexists. split.
  - etransitivity.
    { exact (reduce_loop_project r key value init (λ acc v, ret (c acc v)) c
               ∅ s (λ _ _ _, eq_refl)). }
    unfold bind. by rewrite Hkvs.
  - intros k. by rewrite lookup_foldl_reduce, lookup_empty.
Qed.

(** X2. A traits object whose [combine] replaces the content [acc] of the
    accumulator it is handed by [c acc v], changes nothing else and does
    not throw: [transform_reduce_by] maps every key to the fold of [c]
    over the values of that key, starting from [identity()], and then
    applies [finalize] to it when the traits object has one. *)
Theorem transform_reduce_by_folds_then_finalizes {V Acc R} (r : list E)
    (key : E → M K) (value : E → M V) (t : traits Acc V R)
    (c : Acc → V → Acc) n s kvs s' :
  (∀ acc v s0, combine t acc v s0 = Ret (c acc v) s0) →
  project_all (both key value) r s = Ret kvs s' →
  ∃ out,
    transform_reduce_by r key value t n s = Ret out s'
    ∧ ∀ k, out !! k = match values_at k kvs with
                      | [] => None
                      | vs => Some (finish (finalize t)
                                           (foldl c (identity t) vs))
                      end.
Proof.
  intros Hcomb Hkvs. eexists. split.
  - unfold transform_reduce_by.
    rewrite (transform_reduce_by_impl_project _ _ _ _ c) by done.
    unfold bind. by rewrite Hkvs.
  - intros k.
    rewrite lookup_apply_finalize, lookup_foldl_reduce, lookup_empty.
    by destruct (values_at k kvs).
Qed.

(** X3. [accumulate_by] with an initial value: the accumulator of every
    key has the type of [init] and starts as a copy of it, and the values
    of the key are added to it one by one in sequence order with
    [acc = acc + v], every sum being converted to the type of [init].  When
    [init] has the type of the values, a key with values [v1 .. vn] is
    mapped to [init + v1 + .. + vn]. *)
Theorem accumulate_by_init_sums_onto_init {T V} `{PlusAssign T V}
    (r : list E) (key : E → M K) (value : E → M V) (init : T) n s kvs s' :
  project_all (both key value) r s = Ret kvs s' →
  (∃ out,
     accumulate_by_init r key value init n s = Ret out s'
     ∧ ∀ k, out !! k = match values_at k kvs with
                       | [] => None
                       | vs => Some (foldl plus_assign init vs)
                       end)
  ∧ (∀ W (numeric : Numeric W) (acc v : W), plus_assign acc v = add acc v).
Proof.
  intros Hkvs. split; [eexists; split|done].
  - unfold accumulate_by_init, transform_reduce_by_init. cbv zeta.
    rewrite (transform_reduce_by_impl_project _ _ _ _ plus_assign) by done.
    unfold bind. by rewrite Hkvs.
  - intros k. simpl. rewrite lookup_foldl_reduce, lookup_empty.
    by destruct (values_at k kvs).
Qed.
End FoldFacts.

(** ** group_by *)

Section GroupFacts.
Context {St Exn E : Type} `{Countable K} {V : Type}.
Local Abbreviation M := (M St Exn).

Lemma group_by_into_project (r : list E) (key : E → M K) (value : E → M V)
    (m : gmap K (list V)) n s :
  group_by_into r key value m n s =
  (let* kvs := project_all (both key value) r in
   ret (foldl (λ m kv, <[kv.1 := default [] (m !! kv.1) ++ [kv.2]]> m) m kvs)) s.
Proof.
  exact (for_each_project2 key value
           (λ (m : gmap K (list V)) k v, <[k := default [] (m !! k) ++ [v]]> m)
           r m s).
Qed.

Lemma lookup_foldl_group (kvs : list (K * V)) (m : gmap K (list V)) k :
  foldl (λ m kv, <[kv.1 := default [] (m !! kv.1) ++ [kv.2]]> m) m kvs !! k =
  match values_at k kvs with
  | [] => m !! k
  | vs => Some (default [] (m !! k) ++ vs)
  end.
Proof.
  revert m. induction kvs as [|[k' v'] kvs IH]; intros m; simpl; [done|].
  rewrite IH, values_at_cons. destruct (decide (k' = k)) as [->|Hne].
  - rewrite lookup_insert_eq. simpl.
    destruct (values_at k kvs); [done|]. by rewrite <-app_assoc.
  - by rewrite lookup_insert_ne.
Qed.

Lemma length_foldl_group (kvs : list (K * V)) (m : gmap K (list V)) :
  length <$> foldl (λ m kv, <[kv.1 := default [] (m !! kv.1) ++ [kv.2]]> m) m kvs
  = foldl bump (length <$> m) kvs.*1.
Proof.
  revert m. induction kvs as [|[k v] kvs IH]; intros m; simpl; [done|].
  rewrite IH. f_equal. unfold bump.
  rewrite fmap_insert, lookup_fmap, length_app. simpl.
  f_equal. destruct (m !! k); simpl; lia.
Qed.

(** X4. [group_by_into] appends to the bucket of every key the values of the
    elements that have this key, in sequence order; buckets of keys that
    do not occur are left as they were, and the buckets grow by one value
    per element in total. *)
Theorem group_by_into_appends_in_order (r : list E) (key : E → M K)
    (value : E → M V) (m : gmap K (list V)) n s kvs s' :
  project_all (both key value) r s = Ret kvs s' →
  ∃ out,
    group_by_into r key value m n s = Ret out s'
    ∧ (∀ k, out !! k = match values_at k kvs with
                       | [] => m !! k
                       | vs => Some (default [] (m !! k) ++ vs)
                       end)
    ∧ total_size out = total_size m + length r.
Proof.
  intros Hkvs. eexists. split_and!.
  - rewrite group_by_into_project. unfold bind. by rewrite Hkvs.
  - intros k. apply lookup_foldl_group.
  - unfold total_size.
    rewrite length_foldl_group, total_count_foldl_bump, length_fmap.
    f_equal. eapply project_all_length; eauto.
Qed.

(** X5. [group_by] maps every key to the values of the elements that have it,
    in sequence order, and the bucket sizes add up to the length of the
    sequence. *)
Theorem group_by_buckets_in_order (r : list E) (key : E → M K)
    (value : E → M V) n s kvs s' :
  project_all (both key value) r s = Ret kvs s' →
  ∃ out,
    group_by r key value n s = Ret out s'
    ∧ (∀ k, out !! k = match values_at k kvs with
                       | [] => None
                       | vs => Some vs
                       end)
    ∧ total_size out = length r.
Proof.
  intros Hkvs. eexists. split_and!.
  - unfold group_by. rewrite group_by_into_project. unfold bind.
    by rewrite Hkvs.
  - intros k. by rewrite lookup_foldl_group, lookup_empty.
  - unfold total_size.
    rewrite length_foldl_group, total_count_foldl_bump, length_fmap, fmap_empty.
    unfold total_count. rewrite map_fold_empty. simpl.
    eapply project_all_length; eauto.
Qed.

(** X6. Grouping by hand, with [group_reduce_by] and a reducer that pushes the
    value onto a vector, is [group_by]: same result, same final state,
    same exception. *)
Theorem group_reduce_by_push_back_is_group_by (r : list E) (key : E → M K)
    (value : E → M V) n s :
  group_reduce_by r key value [] (λ acc v, ret (acc ++ [v])) n s
  = group_by r key value n s.
Proof.
  unfold group_reduce_by, group_by, group_by_into, try_reserve.
  apply for_each_ext. intros m x s0.
  apply bind_ext; [done|]. intros k s1.
  by apply bind_ext.
Qed.

(** Loops whose states are related by a function [h] stay related. *)
Lemma for_each_fmap {A B1 B2} (h : B2 → B1) (body1 : B1 → A → M B1)
    (body2 : B2 → A → M B2) r st s :
  (∀ st x s0,
     body1 (h st) x s0 = (let* st' := body2 st x in ret (h st')) s0) →
  for_each body1 r (h st) s =
  (let* st' := for_each body2 r st in ret (h st')) s.
Proof.
  intros Hbody. revert st s.
  induction r as [|x r IH]; intros st s; simpl; [done|].
  unfold bind at 1. rewrite Hbody. unfold bind, ret.
  destruct (body2 st x s) as [st' s1|]; [|done].
  rewrite IH. unfold bind, ret. by destruct (for_each body2 r st' s1).
Qed.

(** X7. Counting is grouping followed by taking bucket sizes: for a value
    projection without effects, [count_by] gives the sizes of the buckets
    of [group_by], and throws whenever [group_by] does. *)
Theorem count_by_is_size_of_group_by {W} (r : list E) (key : E → M K)
    (g : E → W) n s :
  count_by r key n s =
  (let* groups := group_by r key (pure_proj g) n in
   ret (length <$> groups)) s.
Proof.
  unfold count_by, group_by, group_by_into, try_reserve. cbv zeta.
  rewrite <-(fmap_empty (M := gmap K) (length (A := W))).
  apply (for_each_fmap (fmap (M := gmap K) (length (A := W)))). intros m x s0.
  unfold bind, pure_proj, ret. destruct (key x s0) as [k s1|]; [|done].
  f_equal. rewrite fmap_insert, lookup_fmap, length_app. simpl.
  f_equal. destruct (m !! k); simpl; lia.
Qed.
End GroupFacts.


(** ** Reducing by key is grouping, then reducing every bucket *)

Section BucketFacts.
Context {St Exn E : Type} `{Countable K} {V : Type}.
Local Abbreviation M := (M St Exn).

(** What is computed from the projected pairs is computed from the
    buckets of [group_by]. *)
Lemma group_by_then {B} (r : list E) (key : E → M K) (value : E → M V)
    (of_pairs : list (K * V) → gmap K B) (of_buckets : list V → option B)
    n s :
  (∀ kvs k, of_pairs kvs !! k
            = match values_at k kvs with
              | [] => None
              | vs => of_buckets vs
              end) →
  (let* kvs := project_all (both key value) r in ret (of_pairs kvs)) s
  = (let* groups := group_by r key value n in ret (omap of_buckets groups)) s.
Proof.
  intros Hpairs. unfold bind at 2. unfold group_by.
  rewrite group_by_into_project. unfold bind, ret.
  destruct (project_all (both key value) r s) as [kvs s'|]; [|done].
  f_equal. apply map_eq. intros k.
  rewrite Hpairs, lookup_omap, lookup_foldl_group, lookup_empty.
  by destruct (values_at k kvs).
Qed.

(** X26. Reducing by key is grouping followed by reducing every bucket,
    with the same final state and the same exception.  For a reducer whose
    every call replaces the content [acc] of the accumulator it is handed
    by [c acc v], changes nothing else and does not throw,
    [group_reduce_by] is the fold of [c] over every bucket of [group_by];
    [accumulate_by] sums the buckets, and [index_by] takes the last value
    of every bucket with [overwrite = true] and the first with
    [overwrite = false]. *)
Theorem reductions_are_folds_of_the_buckets `{Numeric V} (r : list E)
    (key : E → M K) (value : E → M V) n s :
  (∀ Acc (init : Acc) (c : Acc → V → Acc),
     group_reduce_by r key value init (λ acc v, ret (c acc v)) n s
     = (let* groups := group_by r key value n in
        ret (foldl c init <$> groups)) s)
  ∧ accumulate_by r key value n s
    = (let* groups := group_by r key value n in
       ret (foldl add zero <$> groups)) s
  ∧ index_by r key value (Some true) s
    = (let* groups := group_by r key value n in ret (omap last groups)) s
  ∧ index_by r key value (Some false) s
    = (let* groups := group_by r key value n in ret (omap head groups)) s.
Proof.
  assert (Hfmap : ∀ B (f : list V → B) s0,
            (let* groups := group_by r key value n in
             ret (omap (λ vs, Some (f vs)) groups)) s0
            = (let* groups := group_by r key value n in
               ret (f <$> groups)) s0).
  { intros B f s0. apply bind_ext; [done|]. intros groups s1.
    unfold ret. f_equal. apply map_eq. intros k.
    rewrite lookup_fmap, lookup_omap. by destruct (groups !! k). }
  split_and!.
  - intros Acc init c. rewrite <-Hfmap. etransitivity.
    { exact (reduce_loop_project r key value init (λ acc v, ret (c acc v)) c
               ∅ s (λ _ _ _, eq_refl)). }
    apply (group_by_then r key value
             (λ kvs, foldl (λ accs kv,
                              <[kv.1 := c (default init (accs !! kv.1)) kv.2]>
                                accs) ∅ kvs)).
    intros kvs k. by rewrite lookup_foldl_reduce, lookup_empty.
  - rewrite <-Hfmap, accumulate_by_project.
    apply (group_by_then r key value
             (λ kvs, foldl (λ accs kv,
                              <[kv.1 := add (default zero (accs !! kv.1)) kv.2]>
                                accs) ∅ kvs)).
    intros kvs k. by rewrite lookup_foldl_add, lookup_empty.
  - rewrite index_by_overwrite_project.
    apply (group_by_then r key value
             (λ kvs, foldl (λ m kv, <[kv.1 := kv.2]> m) ∅ kvs)).
    intros kvs k. rewrite lookup_foldl_overwrite, lookup_empty.
    by destruct (values_at k kvs) as [|v vs]; [|destruct (last (v :: vs))].
  - rewrite index_by_keep_project.
    apply (group_by_then r key value
             (λ kvs, foldl (λ m kv, match m !! kv.1 with
                                    | Some _ => m
                                    | None => <[kv.1 := kv.2]> m
                                    end) ∅ kvs)).
    intros kvs k. rewrite lookup_foldl_keep, lookup_empty.
    by destruct (values_at k kvs).
Qed.
End BucketFacts.

(** ** index_by_into on a map that already has entries *)

Section MergeFacts.
Context {St Exn E : Type} `{Countable K} {V : Type}.
Local Abbreviation M := (M St Exn).

(** X8. [index_by_into] merges into the map it is given.  With
    [overwrite = true] a key that occurs gets the value of its last
    element and every other entry of the map is kept; with
    [overwrite = false] every entry of the map is kept and a new key gets
    the value of its first element.  Leaving the flag out is
    [overwrite = true]. *)
Theorem index_by_into_merges (r : list E) (key : E → M K) (val : E → M V)
    (m : gmap K V) s kvs s' :
  project_all (both key val) r s = Ret kvs s' →
  (∃ out, index_by_into r key val m (Some true) s = Ret out s'
          ∧ ∀ k, out !! k = match last (values_at k kvs) with
                            | Some v => Some v
                            | None => m !! k
                            end)
  ∧ (∃ out, index_by_into r key val m (Some false) s = Ret out s'
            ∧ ∀ k, out !! k = match m !! k with
                              | Some v => Some v
                              | None => head (values_at k kvs)
                              end)
  ∧ index_by_into r key val m None s = index_by_into r key val m (Some true) s.
Proof.
  intros Hkvs. split_and!; [eexists; split..|done].
  - etransitivity.
    { exact (for_each_project2 key val (λ m k v, <[k := v]> m) r m s). }
    unfold bind. by rewrite Hkvs.
  - intros k. apply lookup_foldl_overwrite.
  - etransitivity.
    { exact (for_each_project2 key val
               (λ (m : gmap K V) k v,
                  match m !! k with Some _ => m | None => <[k := v]> m end)
               r m s). }
    unfold bind. by rewrite Hkvs.
  - intros k. apply lookup_foldl_keep.
Qed.
End MergeFacts.

(** ** One combine per element *)

Section OneCombineFacts.
Context {St Exn E : Type} `{Countable K}.
Local Abbreviation M := (M St Exn).






End OneCombineFacts.


(** ** One entry per key *)

Section EntryFacts.
Context {St Exn E : Type} `{Countable K}.
Local Abbreviation M := (M St Exn).

Lemma keyed_by_intro {A V} (out : gmap K A) (kvs : list (K * V)) :
  (∀ k, out !! k = None ↔ values_at k kvs = []) → keyed_by out kvs.*1.
Proof.
  intros Hout. apply entries_of_keys. intros k.
  rewrite <-not_eq_None_Some, Hout, values_at_nil.
  destruct (decide (k ∈ kvs.*1)); tauto.
Qed.

(** X9. [index_by] (in both modes), [group_by] and [accumulate_by] return a
    map with exactly one entry per distinct key that was projected: never
    more entries than the sequence has elements, and at least one when
    the sequence is not empty. *)
Theorem results_have_one_entry_per_key {V} `{Numeric V} (r : list E)
    (key : E → M K) (value : E → M V) n s kvs s' :
  project_all (both key value) r s = Ret kvs s' →
  length kvs.*1 = length r
  ∧ (∀ overwrite, ∃ out,
       index_by r key value overwrite s = Ret out s' ∧ keyed_by out kvs.*1)
  ∧ (∃ out, group_by r key value n s = Ret out s' ∧ keyed_by out kvs.*1)
  ∧ (∃ out, accumulate_by r key value n s = Ret out s' ∧ keyed_by out kvs.*1).
Proof.
  intros Hkvs. split_and!.
  - rewrite length_fmap. eapply project_all_length; eauto.
  - intros [[|]|].
    + destruct (index_by_last r key value s kvs s' Hkvs) as (out & Hrun & Hout).
      exists out. split; [done|]. apply keyed_by_intro. intros k.
      by rewrite Hout, last_None.
    + destruct (index_by_first r key value s kvs s' Hkvs) as (out & Hrun & Hout).
      exists out. split; [done|]. apply keyed_by_intro. intros k.
      by rewrite Hout, head_None.
    + destruct (index_by_last r key value s kvs s' Hkvs) as (out & Hrun & Hout).
      exists out. split; [done|]. apply keyed_by_intro. intros k.
      by rewrite Hout, last_None.
  - eexists. split.
    + unfold group_by. rewrite group_by_into_project. unfold bind.
      by rewrite Hkvs.
    + apply keyed_by_intro. intros k.
      rewrite lookup_foldl_group, lookup_empty.
      by destruct (values_at k kvs).
  - eexists. split.
    + rewrite accumulate_by_project. unfold bind. by rewrite Hkvs.
    + apply keyed_by_intro. intros k.
      rewrite lookup_foldl_add, lookup_empty.
      by destruct (values_at k kvs).
Qed.
End EntryFacts.

(** ** minmax_by on the values themselves *)

Section MinMaxFacts.
Context {St Exn E : Type} `{Countable K} {V : Type}.
Local Abbreviation M := (M St Exn).

Lemma project_all_both_pure {A B C D} (f : A → B) (g : A → C) (h : A → D)
    (r : list A) (s : St) :
  project_all (both (pure_proj f) (both (pure_proj g) (pure_proj h))) r s
  = Ret (Exn := Exn) ((λ x, (f x, (g x, h x))) <$> r) s.
Proof.
  induction r as [|x r IH]; simpl; [done|].
  unfold bind at 1. unfold both at 1 2, pure_proj at 1 2 3, bind, ret.
  unfold bind, ret in IH. by rewrite IH.
Qed.

Lemma elem_of_values_at {A B} `{EqDecision A} (k : A) (b : B)
    (kvs : list (A * B)) :
  b ∈ values_at k kvs ↔ (k, b) ∈ kvs.
Proof.
  unfold values_at. rewrite list_elem_of_fmap. split.
  - intros ([k' b'] & -> & [Hk ?]%list_elem_of_filter). simpl in *. by subst.
  - intros Hin. exists (k, b). split; [done|]. by apply list_elem_of_filter.
Qed.

(** X10. [minmax_by] with the value projection also ordering the elements, as
    when the order projection is left out: under a strict weak ordering,
    the entry of every key bounds the values of all elements of that key
    from below by [min] and from above by [max], and both are values of
    elements of that key. *)
Theorem minmax_by_bounds_every_value (r : list E) (key : E → K) (f : E → V)
    (comp : V → V → bool) n (s : St) :
  strict_weak_order comp →
  ∃ out,
    minmax_by r (pure_proj key) (pure_proj f) (pure_proj f) comp n s
      = Ret (Exn := Exn) out s
    ∧ ∀ x, x ∈ r →
        ∃ res, out !! key x = Some res
               ∧ comp (f x) (min res) = false
               ∧ comp (max res) (f x) = false
               ∧ (∃ y, y ∈ r ∧ key y = key x ∧ f y = min res)
               ∧ (∃ z, z ∈ r ∧ key z = key x ∧ f z = max res).
Proof.
  intros Hswo. eexists. split.
  - unfold minmax_by. rewrite extrema_by_project. unfold bind.
    by rewrite project_all_both_pure.
  - intros x Hx. rewrite lookup_fmap, lookup_foldl_extrema, lookup_empty.
    set (kovs := (λ x, (key x, (f x, f x))) <$> r).
    assert (Hmem : ∀ o v, (o, v) ∈ values_at (key x) kovs →
                          ∃ y, y ∈ r ∧ key y = key x ∧ f y = o ∧ f y = v).
    { intros o v [y [[= ? ? ?] ?]]%elem_of_values_at%list_elem_of_fmap.
      exists y. by subst. }
    assert (Hxin : (f x, f x) ∈ values_at (key x) kovs).
    { apply elem_of_values_at, list_elem_of_fmap. by exists x. }
    destruct (values_at (key x) kovs) as [|ov ovs] eqn:Hvs.
    { by apply elem_of_nil in Hxin. }
    destruct (extrema_track_first comp Hswo ov ovs)
      as (st & jmin & jmax & -> & (Hjmin & Hmin & _) & (Hjmax & Hmax & _)).
    apply list_elem_of_lookup in Hxin as [i Hi].
    destruct (Hmem _ _ (list_elem_of_lookup_2 _ _ _ Hjmin))
      as (y & Hy & Hky & Hoy & Hvy).
    destruct (Hmem _ _ (list_elem_of_lookup_2 _ _ _ Hjmax))
      as (z & Hz & Hkz & Hoz & Hvz).
    eexists. split; [done|]. simpl. split_and!.
    + rewrite <-Hvy, Hoy. eapply Hmin; eauto.
    + rewrite <-Hvz, Hoz. eapply Hmax; eauto.
    + eauto.
    + eauto.
Qed.
End MinMaxFacts.

(** ** extrema_by under any comparator *)

Section AttainedFacts.
Context {St Exn E : Type} `{Countable K} {V O : Type}.
Local Abbreviation M := (M St Exn).

Lemma extrema_track_attained (comp : O → O → bool) (ov : O * V) ovs :
  ∃ st,
    foldl (extrema_track comp) None (ov :: ovs) = Some st
    ∧ (min_order st, min_value st) ∈ ov :: ovs
    ∧ (max_order st, max_value st) ∈ ov :: ovs.
Proof.
  induction ovs as [|[o' v'] ovs IH] using rev_ind.
  - destruct ov as [o v]. eexists. simpl. split_and!; [done|by left..].
  - destruct IH as (st & Hst & Hmin & Hmax).
    rewrite app_comm_cons, foldl_snoc, Hst. simpl. unfold extrema_update.
    destruct (comp o' (min_order st)); simpl;
      destruct (comp (max_order st) o'); simpl;
      eexists; (split; [done|]); simpl;
      change (ov :: ovs ++ [(o', v')]) with ((ov :: ovs) ++ [(o', v')]);
      rewrite !elem_of_app, !list_elem_of_singleton; auto.
Qed.

(** X11. Whatever the comparator, [extrema_by] has exactly one entry per key
    that occurs, the [min] and the [max] of an entry are values projected
    from elements of that key, and a key that occurs once has that
    element's value as both. *)
Theorem extrema_by_entries_are_attained (r : list E) (key : E → M K)
    (value : E → M V) (order : E → M O) (comp : O → O → bool) n s kovs s' :
  project_all (both key (both order value)) r s = Ret kovs s' →
  ∃ out,
    extrema_by r key value order comp n s = Ret out s'
    ∧ keyed_by out kovs.*1
    ∧ (∀ k res, out !! k = Some res →
         (∃ o, (k, (o, min res)) ∈ kovs) ∧ (∃ o, (k, (o, max res)) ∈ kovs))
    ∧ (∀ k o v, values_at k kovs = [(o, v)] →
         out !! k = Some (ExtremaResult v v)).
Proof.
  intros Hkovs. eexists. split_and!.
  - rewrite extrema_by_project. unfold bind. by rewrite Hkovs.
  - apply keyed_by_intro. intros k.
    rewrite lookup_fmap, lookup_foldl_extrema, lookup_empty.
    destruct (values_at k kovs) as [|ov ovs]; [done|].
    by destruct (extrema_track_attained comp ov ovs) as (st & -> & _).
  - intros k res. rewrite lookup_fmap, lookup_foldl_extrema, lookup_empty.
    destruct (values_at k kovs) as [|ov ovs] eqn:Hvs; [done|].
    destruct (extrema_track_attained comp ov ovs) as (st & -> & Hmin & Hmax).
    intros [= <-]. simpl. rewrite <-Hvs in Hmin, Hmax.
    apply elem_of_values_at in Hmin, Hmax. eauto.
  - intros k o v Hvs.
    by rewrite lookup_fmap, lookup_foldl_extrema, lookup_empty, Hvs.
Qed.
End AttainedFacts.

(** ** Exceptions thrown by a reducer *)

Section ReducerThrowFacts.
Context {St Exn E : Type} `{Countable K} {V Acc : Type}.
Local Abbreviation M := (M St Exn).

(** X12. A reducer is handed the accumulator of the element's key ([init] for a
    key not seen before) and the projected value; if it throws, so does
    [group_reduce_by], with the reducer's exception and state, and the
    elements after it are not touched. *)
Theorem group_reduce_by_reducer_error_propagates (pre : list E) (x : E)
    (post : list E) (key : E → M K) (value : E → M V) (init : Acc)
    (op : Acc → V → M Acc) n s out s1 k s2 v s3 e s4 :
  group_reduce_by pre key value init op n s = Ret out s1 →
  key x s1 = Ret k s2 →
  value x s2 = Ret v s3 →
  op (default init (out !! k)) v s3 = Throw e s4 →
  group_reduce_by (pre ++ x :: post) key value init op n s = Throw e s4.
Proof.
  intros Hpre Hk Hv Hop.
  eapply for_each_throw; [exact Hpre|].
  unfold bind. by rewrite Hk, Hv, Hop.
Qed.

Lemma transform_reduce_by_accumulators {R} (r : list E) (key : E → M K)
    (value : E → M V) (t : traits Acc V R) n s accs s' :
  transform_reduce_by r key value (without_finalize t) n s = Ret accs s' →
  for_each (fun accs x =>
    let* key_value := key x in
    let* value_copy := value x in
    let* acc' := combine t (default (identity t) (accs !! key_value))
                         value_copy in
    ret (<[key_value := acc']> accs)) r ∅ s = Ret accs s'.
Proof.
  intros Hrun. apply bind_ret_inv in Hrun as (accs' & Hrun & ->). exact Hrun.
Qed.

(** X13. The same for [combine] of a traits object.  The accumulators that
    the elements before [x] leave are what [transform_reduce_by] returns
    on them for the traits object without its [finalize]; if the
    projections of [x] return and [combine] throws on the accumulator of
    [x]'s key ([identity()] for a key not seen before) and the projected
    value, [transform_reduce_by] throws that exception and [finalize] is
    never reached. *)
Theorem transform_reduce_by_combine_error_propagates {R} (pre : list E)
    (x : E) (post : list E) (key : E → M K) (value : E → M V)
    (t : traits Acc V R) n s accs s1 k s2 v s3 e s4 :
  transform_reduce_by pre key value (without_finalize t) n s = Ret accs s1 →
  key x s1 = Ret k s2 →
  value x s2 = Ret v s3 →
  combine t (default (identity t) (accs !! k)) v s3 = Throw e s4 →
  transform_reduce_by (pre ++ x :: post) key value t n s = Throw e s4.
Proof.
  intros Hpre Hk Hv Hop.
  apply transform_reduce_by_accumulators in Hpre.
  apply bind_throw. eapply for_each_throw; [exact Hpre|].
  unfold bind. by rewrite Hk, Hv, Hop.
Qed.
End ReducerThrowFacts.


(** ** The calls made before an exception *)

Section PrefixFacts.
Context {St Exn C : Type}.

Lemma logs_prefix_ret {A} (a : A) (evs : list C) :
  logs_prefix (St := St) (Exn := Exn) (ret a) (ret a) evs.
Proof. intros s log e s'. by unfold ret. Qed.

Lemma logs_prefix_logged {A} (ev : C) (m : M St Exn A) :
  logs_prefix m (logged ev m) [ev].
Proof.
  intros s log e s' Hm. exists [ev]. split; [done|].
  unfold logged. simpl. by rewrite Hm.
Qed.

Lemma logs_prefix_bind {A B} (m : M St Exn A) m' (f : A → M St Exn B) f'
    (l1 l2 : list C) :
  logs m m' l1 → logs_prefix m m' l1 →
  (∀ a, logs_prefix (f a) (f' a) l2) →
  logs_prefix (let* a := m in f a) (let* a := m' in f' a) (l1 ++ l2).
Proof.
  intros Hm Hmt Hf s log e s'. unfold bind.
  destruct (m s) as [a s1|e1 s1] eqn:Hms.
  - intros Hfa. rewrite (Hm _ log _ _ Hms).
    destruct (Hf a _ (log ++ l1) _ _ Hfa) as (l & Hl & ->).
    exists (l1 ++ l). split; [by apply prefix_app|by rewrite app_assoc].
  - intros [= <- <-].
    destruct (Hmt _ log _ _ Hms) as (l & Hl & ->).
    exists l. split; [by apply prefix_app_r|done].
Qed.

Lemma logs_prefix_bind_ret {A B} (m : M St Exn A) m' (g : A → B) (l : list C) :
  logs m m' l → logs_prefix m m' l →
  logs_prefix (let* a := m in ret (g a)) (let* a := m' in ret (g a)) l.
Proof.
  intros Hm Hmt. rewrite <-(app_nil_r l).
  apply logs_prefix_bind; [done..|]. intros a. apply logs_prefix_ret.
Qed.

Lemma logs_prefix_for_each {A B} (body : B → A → M St Exn B) body'
    (evs : A → list C) r st :
  (∀ st x, logs (body st x) (body' st x) (evs x)) →
  (∀ st x, logs_prefix (body st x) (body' st x) (evs x)) →
  logs_prefix (for_each body r st) (for_each body' r st) (concat (evs <$> r)).
Proof.
  intros Hbody Hthrow. revert st. induction r as [|x r IH]; intros st; simpl.
  - apply logs_prefix_ret.
  - apply logs_prefix_bind; [apply Hbody|apply Hthrow|]. intros st'. apply IH.
Qed.
End PrefixFacts.

Section CallPrefixFacts.
Context {St Exn E : Type} `{Countable K}.
Local Abbreviation M := (M St Exn).

(** Loop bodies made of one, two or three recorded projections, or of two
    recorded projections and a recorded reducer. *)
Lemma body1_logs {A B} (tf : E → call E) (f : E → M A) (step : A → B) x :
  logs (let* a := f x in ret (step a))
       (let* a := traced tf f x in ret (step a)) [tf x]
  ∧ logs_prefix (let* a := f x in ret (step a))
                (let* a := traced tf f x in ret (step a)) [tf x].
Proof.
  split.
  - apply logs_bind_ret, logs_logged.
  - apply logs_prefix_bind_ret; [apply logs_logged|apply logs_prefix_logged].
Qed.

Lemma body2_logs {A1 A2 B} (tf tg : E → call E) (f : E → M A1) (g : E → M A2)
    (step : A1 → A2 → B) x :
  logs (let* a := f x in let* b := g x in ret (step a b))
       (let* a := traced tf f x in let* b := traced tg g x in ret (step a b))
       [tf x; tg x]
  ∧ logs_prefix
      (let* a := f x in let* b := g x in ret (step a b))
      (let* a := traced tf f x in let* b := traced tg g x in ret (step a b))
      [tf x; tg x].
Proof.
  split.
  - apply (logs_bind _ _ _ _ [tf x] [tg x]); [apply logs_logged|].
    intros a. apply body1_logs.
  - apply (logs_prefix_bind _ _ _ _ [tf x] [tg x]);
      [apply logs_logged|apply logs_prefix_logged|].
    intros a. apply body1_logs.
Qed.

Lemma body3_logs {A1 A2 A3 B} (tf tg th : E → call E) (f : E → M A1)
    (g : E → M A2) (h : E → M A3) (step : A1 → A2 → A3 → B) x :
  logs (let* a := f x in let* b := g x in let* c := h x in ret (step a b c))
       (let* a := traced tf f x in let* b := traced tg g x in
        let* c := traced th h x in ret (step a b c))
       [tf x; tg x; th x]
  ∧ logs_prefix
      (let* a := f x in let* b := g x in let* c := h x in ret (step a b c))
      (let* a := traced tf f x in let* b := traced tg g x in
       let* c := traced th h x in ret (step a b c))
      [tf x; tg x; th x].
Proof.
  split.
  - apply (logs_bind _ _ _ _ [tf x] [tg x; th x]); [apply logs_logged|].
    intros a. apply body2_logs.
  - apply (logs_prefix_bind _ _ _ _ [tf x] [tg x; th x]);
      [apply logs_logged|apply logs_prefix_logged|].
    intros a. apply body2_logs.
Qed.

Lemma body_op_logs {A1 A2 Acc B} (f : E → M A1) (g : E → M A2)
    (arg : A1 → Acc) (op : Acc → A2 → M Acc) (step : A1 → Acc → B) x :
  logs (let* a := f x in let* b := g x in
        let* acc' := op (arg a) b in ret (step a acc'))
       (let* a := traced CallKey f x in let* b := traced CallValue g x in
        let* acc' := traced_op op (arg a) b in ret (step a acc'))
       [CallKey x; CallValue x; CallCombine]
  ∧ logs_prefix
      (let* a := f x in let* b := g x in
       let* acc' := op (arg a) b in ret (step a acc'))
      (let* a := traced CallKey f x in let* b := traced CallValue g x in
       let* acc' := traced_op op (arg a) b in ret (step a acc'))
      [CallKey x; CallValue x; CallCombine].
Proof.
  split.
  - apply (logs_bind _ _ _ _ [CallKey x] [CallValue x; CallCombine]);
      [apply logs_logged|]. intros a.
    apply (logs_bind _ _ _ _ [CallValue x] [CallCombine]);
      [apply logs_logged|]. intros b.
    apply logs_bind_ret, logs_logged.
  - apply (logs_prefix_bind _ _ _ _ [CallKey x] [CallValue x; CallCombine]);
      [apply logs_logged|apply logs_prefix_logged|]. intros a.
    apply (logs_prefix_bind _ _ _ _ [CallValue x] [CallCombine]);
      [apply logs_logged|apply logs_prefix_logged|]. intros b.
    apply logs_prefix_bind_ret; [apply logs_logged|apply logs_prefix_logged].
Qed.
End CallPrefixFacts.

(** X14. When an operation throws, the calls it has made to its callables are
    an initial part of the calls it makes when it returns: up to the
    exception every callable was called once per element, in sequence
    order, and no callable is called for a later element. *)
Theorem calls_before_an_exception_are_a_prefix {St Exn E V O Acc R : Type}
    `{Countable K} (r : list E) (key : E → M St Exn K)
    (value : E → M St Exn V) (order : E → M St Exn O)
    (pred : E → M St Exn bool) (init : Acc) (op : Acc → V → M St Exn Acc)
    (t : traits Acc V R) (comp : O → O → bool) (m : gmap K V)
    (groups : gmap K (list V)) (overwrite : option bool) (n : nat)
    (s : St) (log : list (call E)) :
  (∀ e s', count_by r key n s = Throw e s' →
     ∃ l, l `prefix_of` concat ((λ x, [CallKey x]) <$> r)
          ∧ count_by r (traced CallKey key) n (s, log)
            = Throw e (s', log ++ l))
  ∧ (∀ e s', index_by_into r key value m overwrite s = Throw e s' →
       ∃ l, l `prefix_of` concat ((λ x, [CallKey x; CallValue x]) <$> r)
            ∧ index_by_into r (traced CallKey key) (traced CallValue value)
                            m overwrite (s, log)
              = Throw e (s', log ++ l))
  ∧ (∀ e s', group_reduce_by r key value init op n s = Throw e s' →
       ∃ l, l `prefix_of` concat ((λ x, [CallKey x; CallValue x;
                                         CallCombine]) <$> r)
            ∧ group_reduce_by r (traced CallKey key) (traced CallValue value)
                              init (traced_op op) n (s, log)
              = Throw e (s', log ++ l))
  ∧ (∀ e s', group_by_into r key value groups n s = Throw e s' →
       ∃ l, l `prefix_of` concat ((λ x, [CallKey x; CallValue x]) <$> r)
            ∧ group_by_into r (traced CallKey key) (traced CallValue value)
                            groups n (s, log)
              = Throw e (s', log ++ l))
  ∧ (∀ e s', transform_reduce_by r key value t n s = Throw e s' →
       ∃ l, l `prefix_of` concat ((λ x, [CallKey x; CallValue x;
                                         CallCombine]) <$> r)
            ∧ transform_reduce_by r (traced CallKey key)
                (traced CallValue value) (traced_traits t) n (s, log)
              = Throw e (s', log ++ l))
  ∧ (∀ e s', extrema_by r key value order comp n s = Throw e s' →
       ∃ l, l `prefix_of` concat ((λ x, [CallKey x; CallOrder x;
                                         CallValue x]) <$> r)
            ∧ extrema_by r (traced CallKey key) (traced CallValue value)
                         (traced CallOrder order) comp n (s, log)
              = Throw e (s', log ++ l))
  ∧ (∀ e s', partition_by r pred value s = Throw e s' →
       ∃ l, l `prefix_of` concat ((λ x, [CallPred x; CallValue x]) <$> r)
            ∧ partition_by r (traced CallPred pred) (traced CallValue value)
                           (s, log)
              = Throw e (s', log ++ l)).
Proof.
  split_and!; intros e s'.
  - apply logs_prefix_for_each; intros freq x; apply body1_logs.
  - apply logs_prefix_for_each; intros m' x;
      apply (body2_logs CallKey CallValue key value).
  - apply logs_prefix_for_each; intros m' x;
      apply (body_op_logs key value (λ k, default init (m' !! k)) op
               (λ k acc', <[k := acc']> m')).
  - apply logs_prefix_for_each; intros m' x;
      apply (body2_logs CallKey CallValue key value).
  - apply (logs_prefix_bind_ret _ _ (apply_finalize (finalize t))).
    + apply logs_for_each; intros m' x.
      apply (body_op_logs key value (λ k, default (identity t) (m' !! k))
               (combine t) (λ k acc', <[k := acc']> m')).
    + apply logs_prefix_for_each; intros m' x;
        apply (body_op_logs key value (λ k, default (identity t) (m' !! k))
                 (combine t) (λ k acc', <[k := acc']> m')).
  - apply (logs_prefix_bind_ret _ _
             (fmap (λ st, ExtremaResult (min_value st) (max_value st)))).
    + apply logs_for_each; intros m' x.
      apply (body3_logs CallKey CallOrder CallValue key order value).
    + apply logs_prefix_for_each; intros m' x;
        apply (body3_logs CallKey CallOrder CallValue key order value).
  - apply logs_prefix_for_each; intros out x;
      apply (body2_logs CallPred CallValue pred value).
Qed.


(** ** to_sorted_pairs and top_k under any comparator *)

Section SlicingFacts.
Context `{Countable K} {V : Type}.

Lemma to_sorted_pairs_Permutation (m : gmap K V) cmp :
  to_sorted_pairs m cmp ≡ₚ map_to_list m.
Proof. apply sort_Permutation. Qed.

Lemma NoDup_fst_to_sorted_pairs (m : gmap K V) cmp :
  NoDup (to_sorted_pairs m cmp).*1.
Proof. rewrite to_sorted_pairs_Permutation. apply NoDup_fst_map_to_list. Qed.

Lemma elem_of_to_sorted_pairs (m : gmap K V) cmp k v :
  (k, v) ∈ to_sorted_pairs m cmp ↔ m !! k = Some v.
Proof. by rewrite to_sorted_pairs_Permutation, elem_of_map_to_list. Qed.

Lemma length_to_sorted_pairs (m : gmap K V) cmp :
  length (to_sorted_pairs m cmp) = size m.
Proof. by rewrite to_sorted_pairs_Permutation, length_map_to_list. Qed.

Lemma elem_of_top_k (m : gmap K V) k cmp i v :
  (i, v) ∈ top_k m k cmp → m !! i = Some v.
Proof.
  rewrite top_k_take. intros Hiv. apply (elem_of_to_sorted_pairs m cmp).
  eapply elem_of_sublist; [done|apply sublist_take].
Qed.

Lemma length_top_k (m : gmap K V) k cmp :
  length (top_k m k cmp) = Nat.min k (size m).
Proof. by rewrite top_k_take, length_take, length_to_sorted_pairs. Qed.

Lemma NoDup_fst_top_k (m : gmap K V) k cmp : NoDup (top_k m k cmp).*1.
Proof.
  rewrite top_k_take, fmap_take.
  eapply sublist_NoDup; [apply NoDup_fst_to_sorted_pairs|apply sublist_take].
Qed.

Lemma strict_weak_order_asym (cmp : K * V → K * V → bool) :
  strict_weak_order cmp → ∀ a b, cmp a b = true → cmp b a = false.
Proof.
  intros Hswo a b Hab. destruct (cmp b a) eqn:Hba; [|done].
  pose proof (swo_trans cmp Hswo _ _ _ Hab Hba) as Haa.
  by rewrite (swo_irrefl cmp Hswo) in Haa.
Qed.

Lemma Sorted_take {A} (R : relation A) n (l : list A) :
  Sorted R l → Sorted R (take n l).
Proof.
  intros Hl. revert n. induction Hl as [|x l _ IH Hx]; intros n.
  - rewrite take_nil. constructor.
  - destruct n as [|n]; simpl; [constructor|].
    constructor; [apply IH|].
    destruct Hx as [|y l' Hxy]; [rewrite take_nil; constructor|].
    destruct n; simpl; by constructor.
Qed.

(** X15. For a comparator that is a strict weak ordering, as
    [std::ranges::sort] requires, [to_sorted_pairs] returns the pairs of
    the map, each once, in an order in which no pair is ordered before
    its predecessor: building a map from its output gives the map back. *)
Theorem to_sorted_pairs_keeps_the_map (m : gmap K V)
    (cmp : K * V → K * V → bool) :
  strict_weak_order cmp →
  to_sorted_pairs m cmp ≡ₚ map_to_list m
  ∧ is_sorted cmp (to_sorted_pairs m cmp)
  ∧ list_to_map (to_sorted_pairs m cmp) = m
  ∧ (∀ k v, (k, v) ∈ to_sorted_pairs m cmp ↔ m !! k = Some v)
  ∧ NoDup (to_sorted_pairs m cmp).*1
  ∧ length (to_sorted_pairs m cmp) = size m.
Proof.
  intros Hswo.
  pose proof (to_sorted_pairs_Permutation m cmp) as Hperm.
  split_and!.
  - done.
  - by apply is_sorted_sort, strict_weak_order_asym.
  - rewrite (list_to_map_proper _ (map_to_list m));
      [apply list_to_map_to_list|apply NoDup_fst_to_sorted_pairs|done].
  - apply elem_of_to_sorted_pairs.
  - apply NoDup_fst_to_sorted_pairs.
  - apply length_to_sorted_pairs.
Qed.

(** X16. For a comparator that is a strict weak ordering, as
    [std::ranges::sort] requires, [top_k] returns the first [k] pairs of
    [to_sorted_pairs], or all of them when the map has fewer:
    [min k (size m)] pairs of the map with distinct keys, none ordered
    before its predecessor; none at all for [k = 0], and the whole sorted
    sequence for [k] at least the size of the map. *)
Theorem top_k_is_a_slice_of_the_map (m : gmap K V) (k : nat)
    (cmp : K * V → K * V → bool) :
  strict_weak_order cmp →
  top_k m k cmp `prefix_of` to_sorted_pairs m cmp
  ∧ is_sorted cmp (top_k m k cmp)
  ∧ length (top_k m k cmp) = Nat.min k (size m)
  ∧ top_k m 0 cmp = []
  ∧ (size m ≤ k → top_k m k cmp = to_sorted_pairs m cmp)
  ∧ (∀ i v, (i, v) ∈ top_k m k cmp → m !! i = Some v)
  ∧ NoDup (top_k m k cmp).*1.
Proof.
  intros Hswo. split_and!.
  - rewrite top_k_take. apply prefix_take.
  - rewrite top_k_take. apply Sorted_take.
    by apply is_sorted_sort, strict_weak_order_asym.
  - apply length_top_k.
  - by rewrite top_k_take.
  - intros Hk. rewrite top_k_take. apply take_ge.
    by rewrite length_to_sorted_pairs.
  - apply elem_of_top_k.
  - apply NoDup_fst_top_k.
Qed.

Section TotalComparator.
Variable cmp : K * V → K * V → bool.
Hypothesis cmp_total : strict_total cmp.

Lemma to_sorted_pairs_sorted (m : gmap K V) : is_sorted cmp (to_sorted_pairs m cmp).
Proof. by apply is_sorted_sort, strict_total_asym. Qed.

(** Every pair that [top_k] returns is ordered before every pair of the
    map that it leaves out. *)
Lemma top_k_before_the_rest (m : gmap K V) (k : nat) a b :
  a ∈ top_k m k cmp → b ∈ map_to_list m → b ∉ top_k m k cmp → cmp a b = true.
Proof.
  pose proof (to_sorted_pairs_sorted m) as Hsorted.
  rewrite !top_k_take. intros Ha Hb Hnb.
  assert (Hbd : b ∈ drop k (to_sorted_pairs m cmp)).
  { rewrite <-(to_sorted_pairs_Permutation m cmp),
      <-(take_drop k (to_sorted_pairs m cmp)) in Hb.
    apply elem_of_app in Hb as [?|?]; [done|done]. }
  apply (Sorted_StronglySorted _ (Transitive0 := not_before_trans cmp cmp_total))
    in Hsorted.
  rewrite <-(take_drop k (to_sorted_pairs m cmp)) in Hsorted.
  pose proof (StronglySorted_app_1_elem_of _ _ _ _ _ Hsorted Ha Hbd) as Hba.
  apply (strict_total_not_before cmp cmp_total) in Hba as [->|?]; [|done].
  done.
Qed.

Lemma top_k_idempotent (m : gmap K V) (k : nat) :
  top_k (list_to_map (top_k m k cmp) : gmap K V) k cmp = top_k m k cmp.
Proof.
  pose proof (to_sorted_pairs_sorted m) as Hsorted.
  rewrite !top_k_take.
  set (out := take k (to_sorted_pairs m cmp)).
  assert (to_sorted_pairs (list_to_map out : gmap K V) cmp = out) as ->.
  { apply (is_sorted_unique _ cmp_total).
    - rewrite to_sorted_pairs_Permutation. apply map_to_list_to_map.
      unfold out. rewrite fmap_take.
      eapply sublist_NoDup; [apply NoDup_fst_to_sorted_pairs|apply sublist_take].
    - apply to_sorted_pairs_sorted.
    - by apply is_sorted_take. }
  apply take_idemp.
Qed.

(** X17. Under a comparator that is a strict total order, [top_k] is sorted,
    keeps the best pairs (every pair it returns is ordered before every
    pair of the map it leaves out) and is idempotent: the top [k] of the
    map built from its output is that output. *)
Theorem top_k_keeps_the_best (m : gmap K V) (k : nat) :
  is_sorted cmp (top_k m k cmp)
  ∧ (∀ a b, a ∈ top_k m k cmp → b ∈ map_to_list m → b ∉ top_k m k cmp →
       cmp a b = true)
  ∧ top_k (list_to_map (top_k m k cmp) : gmap K V) k cmp = top_k m k cmp.
Proof.
  split_and!.
  - rewrite top_k_take. apply is_sorted_take; [done|].
    apply to_sorted_pairs_sorted.
  - apply top_k_before_the_rest.
  - apply top_k_idempotent.
Qed.
End TotalComparator.
End SlicingFacts.

(** ** The ready-made comparators *)

Section LexFacts.
Context {A B1 B2 : Type} `{EqDecision B1}.

Lemma flip_strict_total {T} (lt : T → T → bool) :
  strict_total lt → strict_total (λ a b, lt b a).
Proof.
  intros Hlt. split.
  - apply Hlt.
  - intros a b c Hab Hbc. eapply lt_trans; eauto.
  - intros a b. destruct (lt_total lt Hlt a b) as [?|[?|?]]; auto.
Qed.

(** Comparing by [f] first and by [g] among equals is a strict total order
    when both orders are and [f], [g] together determine the element. *)
Lemma lex_strict_total (f : A → B1) (g : A → B2) (lt1 : B1 → B1 → bool)
    (lt2 : B2 → B2 → bool) :
  strict_total lt1 → strict_total lt2 →
  (∀ a b, f a = f b → g a = g b → a = b) →
  strict_total (λ a b, if bool_decide (f a ≠ f b)
                       then lt1 (f a) (f b) else lt2 (g a) (g b)).
Proof.
  intros H1 H2 Hinj. split.
  - intros a. rewrite bool_decide_eq_false_2 by tauto. apply H2.
  - intros a b c.
    pose proof (lt_trans _ H1) as Ht1. pose proof (lt_trans _ H2) as Ht2.
    destruct (decide (f a = f b)) as [Eab|Nab];
      destruct (decide (f b = f c)) as [Ebc|Nbc];
      destruct (decide (f a = f c)) as [Eac|Nac];
      try congruence;
      repeat case_bool_decide; try (exfalso; tauto); try (exfalso; congruence).
    + eauto.
    + rewrite Eab. auto.
    + rewrite <-Ebc. auto.
    + intros Hab Hbc. exfalso. pose proof (Ht1 _ _ _ Hab Hbc) as Hac.
      by rewrite Eac, (lt_irrefl _ H1) in Hac.
    + eauto.
  - intros a b.
    destruct (lt_total _ H1 (f a) (f b)) as [Hf|[Hf|Hf]].
    + rewrite !bool_decide_eq_false_2 by (intros ?; congruence).
      destruct (lt_total _ H2 (g a) (g b)) as [Hg|[?|?]]; auto.
    + assert (f a ≠ f b).
      { intros Heq. rewrite Heq, (lt_irrefl _ H1) in Hf. done. }
      rewrite !bool_decide_eq_true_2 by congruence. auto.
    + assert (f a ≠ f b).
      { intros Heq. rewrite Heq, (lt_irrefl _ H1) in Hf. done. }
      rewrite !bool_decide_eq_true_2 by congruence. auto.
Qed.
End LexFacts.

Section ReadyMadeFacts.
Context `{Countable K} {V : Type} `{Less K} `{Less V} `{EqDecision V}.
Hypothesis less_K : strict_total (less (T := K)).
Hypothesis less_V : strict_total (less (T := V)).

Lemma pair_eq_parts (a b : K * V) : a.1 = b.1 → a.2 = b.2 → a = b.
Proof. destruct a, b. simpl. congruence. Qed.

Lemma key_asc_value_desc_strict_total :
  strict_total (key_asc_value_desc (K := K) (V := V)).
Proof.
  apply (lex_strict_total fst snd less (λ a b, less b a));
    auto using flip_strict_total, pair_eq_parts.
Qed.

Lemma value_asc_key_asc_strict_total :
  strict_total (value_asc_key_asc (K := K) (V := V)).
Proof.
  apply (lex_strict_total snd fst less less); auto using pair_eq_parts.
Qed.

Lemma top_k_by_value_largest (m : gmap K V) (k : nat) i1 v1 i2 v2 :
  (i1, v1) ∈ top_k_by_value m k → m !! i2 = Some v2 →
  (i2, v2) ∉ top_k_by_value m k → less v1 v2 = false.
Proof.
  intros Hi1 Hi2 Hout. apply elem_of_map_to_list in Hi2.
  pose proof (top_k_before_the_rest _
                (value_desc_key_asc_strict_total less_K less_V)
                m k _ _ Hi1 Hi2 Hout) as Hc.
  unfold value_desc_key_asc in Hc. simpl in Hc.
  case_bool_decide; [exact (strict_total_asym _ less_V _ _ Hc)|].
  assert (v1 = v2) as ->.
  { destruct (decide (v1 = v2)); [done|tauto]. }
  apply less_V.
Qed.

(** X18. With [<] a strict total order on keys and on values:
    [top_k_by_value] leaves out no pair with a larger value than one it
    returns, [bottom_k_by_value] none with a smaller value, and
    [top_k_by_key] none with a smaller key; each of the three is
    idempotent when applied to the map built from its output. *)
Theorem ready_made_slices_keep_the_extremes (m : gmap K V) (k : nat) :
  (∀ i1 v1 i2 v2,
     (i1, v1) ∈ top_k_by_value m k → m !! i2 = Some v2 →
     (i2, v2) ∉ top_k_by_value m k → less v1 v2 = false)
  ∧ (∀ i1 v1 i2 v2,
       (i1, v1) ∈ bottom_k_by_value m k → m !! i2 = Some v2 →
       (i2, v2) ∉ bottom_k_by_value m k → less v2 v1 = false)
  ∧ (∀ i1 v1 i2 v2,
       (i1, v1) ∈ top_k_by_key m k → m !! i2 = Some v2 →
       (i2, v2) ∉ top_k_by_key m k → less i1 i2 = true)
  ∧ bottom_k_by_value (list_to_map (bottom_k_by_value m k) : gmap K V) k
    = bottom_k_by_value m k
  ∧ top_k_by_key (list_to_map (top_k_by_key m k) : gmap K V) k
    = top_k_by_key m k.
Proof.
  pose proof (top_k_before_the_rest _ value_asc_key_asc_strict_total m k)
    as Hbot.
  pose proof (top_k_before_the_rest _ key_asc_value_desc_strict_total m k)
    as Hkey.
  split_and!.
  - apply top_k_by_value_largest.
  - intros i1 v1 i2 v2 Hi1 Hi2 Hout.
    apply elem_of_map_to_list in Hi2.
    pose proof (Hbot _ _ Hi1 Hi2 Hout) as Hc.
    unfold value_asc_key_asc in Hc. simpl in Hc.
    case_bool_decide; [exact (strict_total_asym _ less_V _ _ Hc)|].
    assert (v1 = v2) as ->.
    { destruct (decide (v1 = v2)); [done|tauto]. }
    apply less_V.
  - intros i1 v1 i2 v2 Hi1 Hi2 Hout.
    pose proof (elem_of_top_k m k (key_asc_value_desc (K := K) (V := V))
                  _ _ Hi1) as Hi1m.
    apply elem_of_map_to_list in Hi2.
    pose proof (Hkey _ _ Hi1 Hi2 Hout) as Hc.
    unfold key_asc_value_desc in Hc. simpl in Hc.
    case_bool_decide; [done|].
    assert (i1 = i2) as ->.
    { destruct (decide (i1 = i2)); [done|tauto]. }
    apply elem_of_map_to_list in Hi2. exfalso. apply Hout.
    by replace v2 with v1 by congruence.
  - apply (top_k_idempotent _ value_asc_key_asc_strict_total).
  - apply (top_k_idempotent _ key_asc_value_desc_strict_total).
Qed.
End ReadyMadeFacts.

(** ** top_k_by_key needs no order on the values *)

Section SortExtFacts.
Context {A : Type}.

Lemma sort_insert_ext (cmp1 cmp2 : A → A → bool) x l :
  (∀ y, y ∈ l → cmp1 y x = cmp2 y x) →
  sort_insert cmp1 x l = sort_insert cmp2 x l.
Proof.
  induction l as [|y l IH]; simpl; intros Hext; [done|].
  rewrite (Hext y) by left. rewrite IH; [done|].
  intros z Hz. apply Hext. by right.
Qed.

(** Sorting a list without duplicates only compares distinct elements. *)
Lemma sort_ext_NoDup (cmp1 cmp2 : A → A → bool) l :
  NoDup l →
  (∀ a b, a ∈ l → b ∈ l → a ≠ b → cmp1 a b = cmp2 a b) →
  sort cmp1 l = sort cmp2 l.
Proof.
  induction 1 as [|x l Hx Hl IH]; simpl; intros Hext; [done|].
  rewrite IH by (intros a b Ha Hb; apply Hext; by right).
  apply sort_insert_ext. intros y Hy. rewrite sort_Permutation in Hy.
  apply Hext; [by right|by left|]. intros ->. done.
Qed.

Lemma StronglySorted_strengthen (R R' : relation A) l :
  (∀ a b, a ∈ l → b ∈ l → a ≠ b → R a b → R' a b) →
  NoDup l → StronglySorted R l → StronglySorted R' l.
Proof.
  intros HR Hnodup Hl. induction Hl as [|x l Hl IH Hx]; [constructor|].
  apply NoDup_cons in Hnodup as [Hxl Hnodup]. constructor.
  - apply IH; [|done]. intros a b Ha Hb. apply HR; by right.
  - rewrite Forall_forall in Hx |- *. intros y Hy.
    apply HR; [by left|by right| |by apply Hx]. intros ->. done.
Qed.
End SortExtFacts.

Section KeyOnlyFacts.
Context `{Countable K} {V : Type} `{Less K} `{Less V}.
Hypothesis less_K : strict_total (less (T := K)).

Lemma top_k_by_key_key_asc (m : gmap K V) k :
  top_k_by_key m k = top_k m k key_asc.
Proof.
  unfold top_k_by_key. rewrite !top_k_take. f_equal.
  unfold to_sorted_pairs. apply sort_ext_NoDup.
  - apply NoDup_map_to_list.
  - intros [i1 v1] [i2 v2] Hm1%elem_of_map_to_list Hm2%elem_of_map_to_list Hne.
    unfold key_asc. simpl. rewrite bool_decide_eq_true_2; [done|].
    intros ->. apply Hne. f_equal. congruence.
Qed.

Lemma keys_of_sort_key_asc (l : list (K * V)) :
  NoDup l.*1 →
  StronglySorted (λ i1 i2, less i1 i2 = true) (sort key_asc l).*1.
Proof.
  intros Hnodup.
  assert (Hsorted : is_sorted key_asc (sort key_asc l)).
  { apply is_sorted_sort. intros a b. apply (strict_total_asym _ less_K). }
  apply (Sorted_fmap fst _ (λ i1 i2, less i2 i1 = false)) in Hsorted;
    [|done].
  apply (Sorted_StronglySorted _ (Transitive0 := not_before_trans _ less_K))
    in Hsorted.
  eapply StronglySorted_strengthen; [|by rewrite sort_Permutation|done].
  intros i1 i2 _ _ Hne Hle.
  apply (strict_total_not_before _ less_K) in Hle as [?|?]; done.
Qed.

(** X19. In a map no two pairs have the same key, so the value tie-break of
    [top_k_by_key] never decides and [<] on the values can be anything:
    with [<] a strict total order on the keys alone, [top_k_by_key]
    returns the pairs of the [k] smallest keys, keys strictly ascending. *)
Theorem top_k_by_key_ascends (m : gmap K V) (k : nat) :
  top_k_by_key m k = top_k m k key_asc
  ∧ StronglySorted (λ i1 i2, less i1 i2 = true) (top_k_by_key m k).*1
  ∧ (∀ i1 v1 i2 v2,
       (i1, v1) ∈ top_k_by_key m k → m !! i2 = Some v2 →
       (i2, v2) ∉ top_k_by_key m k → less i1 i2 = true).
Proof.
  split; [apply top_k_by_key_key_asc|].
  rewrite top_k_by_key_key_asc, top_k_take. unfold to_sorted_pairs.
  pose proof (keys_of_sort_key_asc (map_to_list m)
                (NoDup_fst_map_to_list m)) as Hkeys.
  rewrite <-(take_drop k (sort key_asc (map_to_list m))), fmap_app in Hkeys.
  split.
  - by apply StronglySorted_app_1_l in Hkeys.
  - intros i1 v1 i2 v2 Hi1 Hi2%elem_of_map_to_list Hout.
    rewrite <-(sort_Permutation key_asc),
      <-(take_drop k (sort key_asc (map_to_list m))) in Hi2.
    apply elem_of_app in Hi2 as [?|Hi2]; [done|].
    eapply (StronglySorted_app_1_elem_of _ _ _ i1 i2 Hkeys).
    + apply list_elem_of_fmap. by exists (i1, v1).
    + apply list_elem_of_fmap. by exists (i2, v2).
Qed.
End KeyOnlyFacts.

(** * The example programs *)

Section RunFacts.
Context `{Countable K}.

Lemma run_count_by {E} (r : list E) (key : E → K) n :
  run (count_by r (pure_proj key) n) = foldl bump ∅ (key <$> r).
Proof.
  unfold run. rewrite count_by_project. unfold bind.
  by rewrite project_all_pure.
Qed.

Lemma occurrences_cons (k x : K) l :
  occurrences k (x :: l) = (if decide (x = k) then 1 else 0) + occurrences k l.
Proof. unfold occurrences. rewrite filter_cons. by case_decide. Qed.

Lemma occurrences_zero (k : K) (ks : list K) : occurrences k ks = 0 ↔ k ∉ ks.
Proof.
  induction ks as [|x ks IH]; [by split; [intros _; apply not_elem_of_nil|]|].
  rewrite occurrences_cons, not_elem_of_cons.
  case_decide; [split; [lia|naive_solver]|].
  rewrite <-IH. split; [intros ?; split; [congruence|lia]|intros [_ ?]; lia].
Qed.

Lemma lookup_counts (ks : list K) k :
  foldl bump ∅ ks !! k
  = if decide (occurrences k ks = 0) then None else Some (occurrences k ks).
Proof.
  pose proof (lookup_foldl_bump ks ∅ k) as Hn.
  pose proof (dom_foldl_bump ks ∅) as Hdom.
  rewrite lookup_empty in Hn. simpl in Hn.
  pose proof (occurrences_zero k ks) as Hocc.
  destruct (foldl bump ∅ ks !! k) as [c|] eqn:Hc; simpl in Hn.
  - subst c. case_decide as Hz; [|done].
    exfalso. apply Hocc in Hz. apply Hz.
    assert (k ∈ dom (foldl bump ∅ ks)) as Hk by (apply elem_of_dom; eauto).
    rewrite Hdom, dom_empty_L, (left_id_L ∅ (∪)) in Hk.
    by apply elem_of_list_to_set in Hk.
  - by rewrite <-Hn, decide_True.
Qed.

Lemma occurrences_Permutation (k : K) (l1 l2 : list K) :
  l1 ≡ₚ l2 → occurrences k l1 = occurrences k l2.
Proof. unfold occurrences. by intros ->. Qed.

Lemma Permutation_of_occurrences (l1 l2 : list K) :
  (∀ k, occurrences k l1 = occurrences k l2) → l1 ≡ₚ l2.
Proof.
  revert l2. induction l1 as [|x l1 IH]; intros l2 Hocc.
  - destruct l2 as [|y l2]; [done|].
    specialize (Hocc y). rewrite occurrences_cons, decide_True in Hocc by done.
    unfold occurrences in Hocc. simpl in Hocc. lia.
  - assert (x ∈ l2) as [l2' Hl2]%elem_of_Permutation.
    { specialize (Hocc x).
      rewrite occurrences_cons, decide_True in Hocc by done.
      destruct (decide (x ∈ l2)) as [|Hx]; [done|].
      apply occurrences_zero in Hx. lia. }
    rewrite Hl2. apply Permutation_skip, IH. intros k.
    specialize (Hocc k).
    rewrite (occurrences_Permutation k l2 (x :: l2')), !occurrences_cons in Hocc
      by done.
    lia.
Qed.

(** X20. [isAnagram] decides whether one string is a rearrangement of the
    other. *)
Theorem isAnagram_iff_Permutation (s t : list K) :
  isAnagram s t = true ↔ s ≡ₚ t.
Proof.
  unfold isAnagram. rewrite bool_decide_eq_true, !run_count_by, !list_fmap_id.
  split.
  - intros Heq. apply Permutation_of_occurrences. intros k.
    pose proof (lookup_counts s k) as Hs. pose proof (lookup_counts t k) as Ht.
    rewrite Heq, Ht in Hs. repeat case_decide; simplify_eq; lia.
  - intros Hperm. apply map_eq. intros k.
    by rewrite !lookup_counts, (occurrences_Permutation k s t).
Qed.
End RunFacts.

Lemma occurrences_app `{EqDecision K} (k : K) (l1 l2 : list K) :
  occurrences k (l1 ++ l2) = occurrences k l1 + occurrences k l2.
Proof. unfold occurrences. by rewrite filter_app, length_app. Qed.

Lemma intersect_loop (l : list Z) (counts : gmap Z nat) (out : list Z) :
  (∀ x, occurrences x (foldl intersect_step (counts, out) l).2
        = occurrences x out
          + Nat.min (default 0 (counts !! x)) (occurrences x l))
  ∧ ∃ sub, (foldl intersect_step (counts, out) l).2 = out ++ sub
           ∧ sub `sublist_of` l.
Proof.
  revert counts out. induction l as [|x0 l IH]; intros counts out; simpl.
  - split; [intros x; unfold occurrences at 3; simpl; lia|].
    exists []. by rewrite app_nil_r.
  - unfold intersect_step at 2 4. simpl.
    destruct (counts !! x0) as [c|] eqn:Hc; [destruct c as [|c]|]; simpl.
    + destruct (IH counts out) as (Hocc & sub & Hout & Hsub). split.
      * intros x. rewrite Hocc, occurrences_cons.
        case_decide; [subst; rewrite Hc; simpl|]; lia.
      * exists sub. split; [done|by constructor].
    + destruct (IH (<[x0 := c]> counts) (out ++ [x0]))
        as (Hocc & sub & Hout & Hsub). split.
      * intros x. rewrite Hocc, occurrences_app, !occurrences_cons.
        unfold occurrences at 2. simpl.
        destruct (decide (x0 = x)) as [->|Hne].
        -- rewrite lookup_insert_eq, Hc. simpl. lia.
        -- rewrite lookup_insert_ne by done. lia.
      * exists (x0 :: sub). rewrite Hout, <-app_assoc.
        split; [done|by constructor].
    + destruct (IH counts out) as (Hocc & sub & Hout & Hsub). split.
      * intros x. rewrite Hocc, occurrences_cons.
        case_decide; [subst; rewrite Hc; simpl|]; lia.
      * exists sub. split; [done|by constructor].
Qed.

(** X21. [intersect] keeps, in the order of [nums2], as many copies of every
    number as both inputs have: the multiset intersection. *)
Theorem intersect_is_the_multiset_intersection (nums1 nums2 : list Z) :
  (∀ x, occurrences x (intersect nums1 nums2)
        = Nat.min (occurrences x nums1) (occurrences x nums2))
  ∧ intersect nums1 nums2 `sublist_of` nums2.
Proof.
  unfold intersect. rewrite run_count_by, list_fmap_id.
  destruct (intersect_loop nums2 (foldl bump ∅ nums1) [])
    as (Hocc & sub & Hout & Hsub).
  split.
  - intros x. rewrite Hocc, lookup_counts.
    unfold occurrences at 1. simpl. case_decide; simpl; lia.
  - by rewrite Hout.
Qed.

Lemma lookup_counts_Some `{Countable K} (ks : list K) k c :
  foldl bump ∅ ks !! k = Some c ↔ k ∈ ks ∧ c = occurrences k ks.
Proof.
  rewrite lookup_counts. pose proof (occurrences_zero k ks) as Hz.
  case_decide as Hocc.
  - split; [done|]. intros [Hk _]. by apply Hz in Hocc.
  - split.
    + intros [= <-]. split; [|done].
      destruct (decide (k ∈ ks)); [done|]. by apply Hz in n.
    + by intros [_ ->].
Qed.

Lemma size_counts `{Countable K} (ks : list K) :
  size (foldl bump ∅ ks) = length (remove_dups ks).
Proof.
  rewrite <-size_dom, dom_foldl_bump, dom_empty_L, (left_id_L ∅ (∪)).
  apply size_list_to_set_remove_dups.
Qed.

(** X22. [topKFrequent] returns [k] distinct numbers of the input (all of them
    when there are fewer than [k]), none of which occurs less often than a
    number it leaves out. *)
Theorem topKFrequent_returns_the_most_frequent (nums : list Z) (k : Z) :
  length (topKFrequent nums k)
    = Nat.min (size_t_of_int k) (length (remove_dups nums))
  ∧ NoDup (topKFrequent nums k)
  ∧ (∀ x, x ∈ topKFrequent nums k → x ∈ nums)
  ∧ (∀ x y, x ∈ topKFrequent nums k → y ∈ nums → y ∉ topKFrequent nums k →
       occurrences y nums ≤ occurrences x nums).
Proof.
  unfold topKFrequent. rewrite run_count_by, list_fmap_id. cbv zeta.
  set (freq := foldl bump ∅ nums). set (n := size_t_of_int k).
  pose proof (length_top_k freq n (value_desc_key_asc (K := Z) (V := nat)))
    as Hlen.
  pose proof (elem_of_top_k freq n (value_desc_key_asc (K := Z) (V := nat)))
    as Hin.
  pose proof (NoDup_fst_top_k freq n (value_desc_key_asc (K := Z) (V := nat)))
    as Hnodup.
  pose proof (top_k_by_value_largest
                Z_less_strict_total nat_less_strict_total freq n) as Hbest.
  assert (Hmem : ∀ x, x ∈ (top_k_by_value freq n).*1 →
            (x, occurrences x nums) ∈ top_k_by_value freq n ∧ x ∈ nums).
  { intros x [[x' v] [-> Hxv]]%list_elem_of_fmap. simpl.
    pose proof (Hin _ _ Hxv) as [? ->]%lookup_counts_Some. done. }
  split_and!.
  - rewrite length_fmap. etransitivity; [exact Hlen|].
    unfold freq. by rewrite size_counts.
  - exact Hnodup.
  - intros x Hx. by apply Hmem.
  - intros x y Hx Hy Hout. apply Hmem in Hx as [Hx _].
    assert (Hyf : freq !! y = Some (occurrences y nums))
      by (by apply lookup_counts_Some).
    assert (Hny : (y, occurrences y nums) ∉ top_k_by_value freq n).
    { intros Hin'. apply Hout, list_elem_of_fmap. by exists (y, occurrences y nums). }
    pose proof (Hbest _ _ _ _ Hx Hyf Hny) as Hle.
    unfold less, nat_less in Hle. apply Nat.ltb_ge in Hle. done.
Qed.

Section AnagramFacts.
Context `{Countable A}.
Variable char_less : A → A → bool.

Lemma concat_Permutation {B} (l1 l2 : list (list B)) :
  l1 ≡ₚ l2 → concat l1 ≡ₚ concat l2.
Proof.
  induction 1 as [|x l1 l2 _ IH|x y l|l1 l2 l3 _ IH1 _ IH2]; simpl.
  - done.
  - by rewrite IH.
  - rewrite !app_assoc. f_equiv. apply Permutation_app_comm.
  - by rewrite IH1.
Qed.

Lemma concat_buckets_insert {W} `{Countable K} (m : gmap K (list W)) k v :
  concat (map_to_list (<[k := default [] (m !! k) ++ [v]]> m)).*2
  ≡ₚ concat (map_to_list m).*2 ++ [v].
Proof.
  destruct (m !! k) as [b|] eqn:Hk; simpl.
  - rewrite <-insert_delete_eq.
    rewrite (concat_Permutation _ _
               (fmap_Permutation snd _ _
                  (map_to_list_insert (delete k m) k (b ++ [v])
                     (lookup_delete_eq m k)))).
    rewrite <-(concat_Permutation _ _
                 (fmap_Permutation snd _ _ (map_to_list_delete m k b Hk))).
    simpl. rewrite <-!app_assoc. f_equiv. apply Permutation_app_comm.
  - rewrite (concat_Permutation _ _
               (fmap_Permutation snd _ _ (map_to_list_insert m k [v] Hk))).
    simpl. apply Permutation_cons_append.
Qed.

Lemma concat_buckets_foldl {W} `{Countable K} (kvs : list (K * W))
    (m : gmap K (list W)) :
  concat (map_to_list
            (foldl (λ m kv, <[kv.1 := default [] (m !! kv.1) ++ [kv.2]]> m)
                   m kvs)).*2
  ≡ₚ concat (map_to_list m).*2 ++ kvs.*2.
Proof.
  revert m. induction kvs as [|[k v] kvs IH]; intros m; simpl.
  - by rewrite app_nil_r.
  - rewrite IH, concat_buckets_insert. by rewrite <-app_assoc.
Qed.

Lemma project_all_pure2 {St Exn E B C} (f : E → B) (g : E → C) (r : list E)
    (s : St) :
  project_all (both (pure_proj f) (pure_proj g)) r s
  = Ret (Exn := Exn) ((λ x, (f x, g x)) <$> r) s.
Proof.
  induction r as [|x r IH]; simpl; [done|].
  unfold bind at 1. unfold both at 1, pure_proj at 1 2, bind, ret.
  unfold bind, ret in IH. by rewrite IH.
Qed.

Lemma run_group_by {E W} `{Countable K} (r : list E) (key : E → K)
    (value : E → W) n :
  run (group_by r (pure_proj key) (pure_proj value) n)
  = foldl (λ m kv, <[kv.1 := default [] (m !! kv.1) ++ [kv.2]]> m) ∅
          ((λ x, (key x, value x)) <$> r).
Proof.
  unfold run, group_by. rewrite group_by_into_project. unfold bind.
  by rewrite project_all_pure2.
Qed.

Lemma sort_eq_Permutation (w1 w2 : list A) :
  sort char_less w1 = sort char_less w2 → w1 ≡ₚ w2.
Proof.
  intros Heq. by rewrite <-(sort_Permutation char_less w1), Heq, sort_Permutation.
Qed.

(** X23. [groupAnagrams] distributes the words over its buckets without losing
    or duplicating one, no bucket is empty, and the words of a bucket are
    rearrangements of each other.  When the order of the characters is a
    strict total order, two words of the input that are rearrangements of
    each other are in the same bucket. *)
Theorem groupAnagrams_groups_rearrangements (strs : list (list A)) :
  concat (groupAnagrams char_less strs) ≡ₚ strs
  ∧ (∀ bucket, bucket ∈ groupAnagrams char_less strs → bucket ≠ [])
  ∧ (∀ bucket w1 w2, bucket ∈ groupAnagrams char_less strs →
       w1 ∈ bucket → w2 ∈ bucket → w1 ≡ₚ w2)
  ∧ (strict_total char_less →
     ∀ w1 w2, w1 ∈ strs → w2 ∈ strs → w1 ≡ₚ w2 →
       ∃ bucket, bucket ∈ groupAnagrams char_less strs
                 ∧ w1 ∈ bucket ∧ w2 ∈ bucket).
Proof.
  unfold groupAnagrams. rewrite run_group_by. cbv zeta.
  set (kvs := (λ w, (sort char_less w, id w)) <$> strs).
  set (groups := foldl _ ∅ kvs).
  assert (Hbucket : ∀ bucket,
            bucket ∈ (map_to_list groups).*2 ↔
            ∃ sig, bucket = values_at sig kvs ∧ bucket ≠ []).
  { intros bucket. unfold groups. rewrite list_elem_of_fmap. split.
    - intros ([sig b] & -> & Hin%elem_of_map_to_list). simpl. exists sig.
      rewrite lookup_foldl_group, lookup_empty in Hin.
      destruct (values_at sig kvs); [done|]. by simplify_eq.
    - intros (sig & -> & Hne). exists (sig, values_at sig kvs). split; [done|].
      apply elem_of_map_to_list. rewrite lookup_foldl_group, lookup_empty.
      by destruct (values_at sig kvs). }
  assert (Hword : ∀ sig w, w ∈ values_at sig kvs ↔
                           w ∈ strs ∧ sort char_less w = sig).
  { intros sig w. rewrite elem_of_values_at. unfold kvs.
    rewrite list_elem_of_fmap. split.
    - intros (w' & [= -> ->] & Hw'). done.
    - intros [Hw <-]. by exists w. }
  split_and!.
  - unfold groups. rewrite concat_buckets_foldl, map_to_list_empty. simpl.
    unfold kvs. rewrite <-list_fmap_compose. by rewrite list_fmap_id.
  - intros bucket (sig & _ & Hne)%Hbucket. done.
  - intros bucket w1 w2 (sig & -> & _)%Hbucket [_ H1]%Hword [_ H2]%Hword.
    apply sort_eq_Permutation. congruence.
  - intros Htotal w1 w2 Hw1 Hw2 Hperm.
    assert (Hsig : sort char_less w1 = sort char_less w2).
    { apply (is_sorted_unique _ Htotal).
      - by rewrite !sort_Permutation.
      - apply is_sorted_sort, strict_total_asym, Htotal.
      - apply is_sorted_sort, strict_total_asym, Htotal. }
    exists (values_at (sort char_less w1) kvs).
    assert (w1 ∈ values_at (sort char_less w1) kvs) as Hin1 by (by apply Hword).
    split_and!; [|done|by apply Hword].
    apply Hbucket. exists (sort char_less w1). split; [done|].
    intros Hnil. rewrite Hnil in Hin1. by apply elem_of_nil in Hin1.
Qed.
End AnagramFacts.

(** ** arrayRankTransform *)

Lemma unique_snoc `{EqDecision A} (l : list A) x :
  unique (l ++ [x]) = match last (unique l) with
                      | Some y => if decide (y = x) then unique l
                                  else unique l ++ [x]
                      | None => [x]
                      end.
Proof. unfold unique. by rewrite foldl_snoc. Qed.

Lemma StronglySorted_impl {A} (R R' : relation A) l :
  (∀ a b, R a b → R' a b) → StronglySorted R l → StronglySorted R' l.
Proof.
  intros HR. induction 1 as [|x l _ IH Hx]; constructor; [done|].
  eapply Forall_impl; eauto.
Qed.

Lemma sort_ascending (l : list Z) : StronglySorted Z.le (sort Z.ltb l).
Proof.
  assert (Hs : is_sorted Z.ltb (sort Z.ltb l)).
  { apply is_sorted_sort. intros a b Hab. lia. }
  unfold is_sorted in Hs.
  apply (Sorted_StronglySorted _
           (Transitive0 := not_before_trans _ Z_less_strict_total)) in Hs.
  eapply StronglySorted_impl; [|exact Hs]. intros a b Hab.
  unfold less, Z_less in Hab. lia.
Qed.

(** On an ascending list [std::unique] leaves every value once, in strictly
    ascending order. *)
Lemma unique_ascending (l : list Z) :
  StronglySorted Z.le l →
  StronglySorted Z.lt (unique l)
  ∧ (∀ x, x ∈ unique l ↔ x ∈ l)
  ∧ last (unique l) = last l.
Proof.
  induction l as [|x l IH] using rev_ind; intros Hl.
  - split_and!; [constructor|done|done].
  - pose proof (λ a b, StronglySorted_app_1_elem_of _ _ _ a b Hl) as Hle.
    apply StronglySorted_app_1_l in Hl.
    destruct (IH Hl) as (Hs & Hel & Hlast). clear IH.
    rewrite unique_snoc, last_snoc.
    destruct (last (unique l)) as [y|] eqn:Hy.
    + assert (y ≤ x)%Z as Hyx.
      { apply Hle; [|by left]. by apply Hel, last_Some_elem_of. }
      destruct (decide (y = x)) as [->|Hne].
      * split_and!; [done| |done]. intros z. rewrite elem_of_app, Hel.
        split; [by left|]. intros [?|Hz%list_elem_of_singleton]; [done|].
        subst z. by apply Hel, last_Some_elem_of.
      * split_and!.
        -- apply last_Some in Hy as [u Hu]. rewrite Hu in Hs |- *.
           apply StronglySorted_app_2; [|done|repeat constructor].
           intros z1 z2 Hz1 Hz2%list_elem_of_singleton. subst z2.
           apply elem_of_app in Hz1 as [Hz1|Hz1%list_elem_of_singleton];
             [|lia].
           pose proof (StronglySorted_app_1_elem_of _ _ _ z1 y Hs Hz1) as Hlt.
           specialize (Hlt ltac:(by left)). lia.
        -- intros z. rewrite !elem_of_app, Hel. done.
        -- apply last_snoc.
    + apply last_None in Hy. rewrite Hy in Hel.
      assert (l = []) as ->.
      { destruct l as [|z l]; [done|]. exfalso.
        eapply not_elem_of_nil, Hel. by left. }
      split_and!; [repeat constructor|done|done].
Qed.

Lemma StronglySorted_lookup_lt (l : list Z) i j x y :
  StronglySorted Z.lt l → l !! i = Some x → l !! j = Some y →
  i < j → (x < y)%Z.
Proof.
  intros Hl Hi Hj Hij. rewrite <-(take_drop j l) in Hl.
  eapply StronglySorted_app_1_elem_of; [exact Hl| |].
  - apply elem_of_take. eauto.
  - apply list_elem_of_lookup. exists 0. by rewrite lookup_drop, Nat.add_0_r.
Qed.

Lemma StronglySorted_lt_NoDup (l : list Z) : StronglySorted Z.lt l → NoDup l.
Proof.
  intros Hl. apply NoDup_alt. intros i j x Hi Hj.
  destruct (Nat.lt_trichotomy i j) as [Hlt|[?|Hlt]]; [|done|].
  - pose proof (StronglySorted_lookup_lt _ _ _ _ _ Hl Hi Hj Hlt). lia.
  - pose proof (StronglySorted_lookup_lt _ _ _ _ _ Hl Hj Hi Hlt). lia.
Qed.

(** The counter numbers the elements it is asked about from its value at
    the start. *)
Lemma project_all_next_rank {Exn} (l : list Z) (next : Z) :
  project_all (both (pure_proj id) next_rank) l next
  = Ret (Exn := Exn) (imap (λ i x, (x, (next + Z.of_nat i)%Z)) l)
        (next + Z.of_nat (length l))%Z.
Proof.
  revert next. induction l as [|x l IH]; intros next; simpl.
  - by rewrite Z.add_0_r.
  - unfold bind at 1. unfold both at 1, pure_proj at 1, next_rank at 1, bind, ret.
    unfold bind, ret in IH. rewrite IH, Z.add_0_r. f_equal.
    + f_equal. apply imap_ext. intros i y _. simpl. f_equal. lia.
    + lia.
Qed.

Lemma NoDup_occurrences `{Countable K} (k : K) (l : list K) :
  NoDup l → occurrences k l ≤ 1.
Proof.
  induction 1 as [|x l Hx _ IH]; [unfold occurrences; simpl; lia|].
  rewrite occurrences_cons. case_decide; [|lia]. subst.
  apply occurrences_zero in Hx. lia.
Qed.

Lemma project_all_at_key `{Countable K} {V St} (m : gmap K V) (f : K → V)
    (l : list K) (s : St) :
  (∀ x, x ∈ l → m !! x = Some (f x)) →
  project_all (at_key m) l s = Ret (f <$> l) s.
Proof.
  induction l as [|x l IH]; intros Hm; simpl; [done|].
  unfold bind at 1. unfold at_key at 1. rewrite (Hm x) by left.
  unfold bind, ret. rewrite IH; [done|]. intros y Hy. apply Hm. by right.
Qed.

Lemma foldl_push_back {A} (acc l : list A) :
  foldl (λ out v, out ++ [v]) acc l = acc ++ l.
Proof.
  revert acc. induction l as [|x l IH]; intros acc; simpl.
  - by rewrite app_nil_r.
  - by rewrite IH, <-app_assoc.
Qed.

(** The map that [index_by] builds from distinct values and the counter:
    the value at position [i] is mapped to [next + i]. *)
Lemma lookup_numbered (l : list Z) (next : Z) i (x : Z) :
  NoDup l → l !! i = Some x →
  foldl (λ (m : gmap Z Z) kv, <[kv.1 := kv.2]> m) ∅
        (imap (λ i x, (x, (next + Z.of_nat i)%Z)) l) !! x
  = Some (next + Z.of_nat i)%Z.
Proof.
  intros Hnodup Hi. rewrite lookup_foldl_overwrite, lookup_empty.
  set (kvs := imap (λ i x, (x, (next + Z.of_nat i)%Z)) l).
  assert (Hkeys : kvs.*1 = l).
  { unfold kvs. rewrite fmap_imap. apply list_eq. intros j.
    rewrite list_lookup_imap. by destruct (l !! j). }
  assert (Hin : (next + Z.of_nat i)%Z ∈ values_at x kvs).
  { apply elem_of_values_at.
    exact (elem_of_lookup_imap_2 (λ i x, (x, (next + Z.of_nat i)%Z)) l x i Hi). }
  pose proof (length_values_at x kvs) as Hlen.
  pose proof (NoDup_occurrences x l Hnodup) as Hocc. rewrite Hkeys in Hlen.
  clearbody kvs. destruct (values_at x kvs) as [|v [|v' vs]]; simpl in Hlen; [|simpl|lia].
  - by apply elem_of_nil in Hin.
  - apply list_elem_of_singleton in Hin. by subst.
Qed.

(** X24. [arrayRankTransform] never reaches the exception of [at]: on an array
    short enough for the [int] counter it returns one rank per element,
    the ranks are ordered as the elements are (equal elements get equal
    ranks), and they are exactly the numbers from 1 to the number of
    distinct elements. *)
Theorem arrayRankTransform_ranks_by_order (arr : list Z) :
  (Z.of_nat (length arr) < 2 ^ 31 - 1)%Z →
  ∃ out next,
    arrayRankTransform arr = Ret out next
    ∧ (next ≤ 2 ^ 31 - 1)%Z
    ∧ length out = length arr
    ∧ (∀ i j x y rx ry,
         arr !! i = Some x → arr !! j = Some y →
         out !! i = Some rx → out !! j = Some ry →
         (x < y ↔ rx < ry)%Z)
    ∧ (∀ r, r ∈ out ↔ (1 ≤ r ≤ Z.of_nat (length (remove_dups arr)))%Z).
Proof.
  intros Hshort. unfold arrayRankTransform. cbv zeta.
  set (uniq := unique (sort Z.ltb arr)).
  destruct (unique_ascending _ (sort_ascending arr)) as (Hs & Hel & _).
  fold uniq in Hs, Hel.
  assert (Hel' : ∀ x, x ∈ uniq ↔ x ∈ arr).
  { intros x. by rewrite Hel, sort_Permutation. }
  pose proof (StronglySorted_lt_NoDup _ Hs) as Hnodup.
  assert (Hlen : length uniq = length (remove_dups arr)).
  { apply Permutation_length, NoDup_Permutation;
      [done|apply NoDup_remove_dups|].
    intros x. by rewrite Hel', elem_of_remove_dups. }
  assert (Hle : length (remove_dups arr) ≤ length arr).
  { apply submseteq_length, NoDup_submseteq; [apply NoDup_remove_dups|].
    intros x. by rewrite elem_of_remove_dups. }
  set (kvs := imap (λ i x, (x, (1 + Z.of_nat i)%Z)) uniq).
  set (rank := foldl (λ (m : gmap Z Z) kv, <[kv.1 := kv.2]> m) ∅ kvs).
  assert (Hrank : index_by uniq (pure_proj id) next_rank None 1%Z
                  = Ret (Exn := std_exception) rank
                        (1 + Z.of_nat (length uniq))%Z).
  { etransitivity;
      [exact (index_by_overwrite_project uniq (pure_proj id) next_rank 1%Z)|].
    unfold bind. by rewrite project_all_next_rank. }
  assert (Hpos : ∀ x, x ∈ arr →
            ∃ i, uniq !! i = Some x ∧ rank !! x = Some (1 + Z.of_nat i)%Z).
  { intros x [i Hi]%Hel'%list_elem_of_lookup. exists i. split; [done|].
    by apply lookup_numbered. }
  set (f := λ x, default 0%Z (rank !! x)).
  exists (f <$> arr), (1 + Z.of_nat (length uniq))%Z. split_and!.
  - unfold bind at 1. rewrite Hrank.
    rewrite (for_each_project (at_key rank) (λ out v, out ++ [v])).
    unfold bind. rewrite (project_all_at_key rank f).
    + unfold ret. by rewrite foldl_push_back.
    + intros x (i & _ & Hx)%Hpos. unfold f. by rewrite Hx.
  - lia.
  - apply length_fmap.
  - intros i j x y rx ry Hi Hj. rewrite !list_lookup_fmap, Hi, Hj. simpl.
    intros [= <-] [= <-].
    destruct (Hpos x) as (ix & Hix & Hrx); [by eapply list_elem_of_lookup_2|].
    destruct (Hpos y) as (iy & Hiy & Hry); [by eapply list_elem_of_lookup_2|].
    unfold f. rewrite Hrx, Hry. simpl. split.
    + intros Hxy. destruct (Nat.lt_trichotomy ix iy) as [?|[->|Hlt]]; [lia| |].
      * simplify_eq. lia.
      * pose proof (StronglySorted_lookup_lt _ _ _ _ _ Hs Hiy Hix Hlt). lia.
    + intros Hlt. apply (StronglySorted_lookup_lt _ _ _ _ _ Hs Hix Hiy). lia.
  - intros r. rewrite list_elem_of_fmap, <-Hlen. split.
    + intros (x & -> & (i & Hi & Hx)%Hpos). unfold f. rewrite Hx. simpl.
      apply lookup_lt_Some in Hi. lia.
    + intros Hr.
      destruct (lookup_lt_is_Some_2 uniq (Z.to_nat (r - 1))) as [x Hx]; [lia|].
      exists x. assert (x ∈ arr) as Harr by (by eapply Hel', list_elem_of_lookup_2).
      split; [|done]. unfold f, rank, kvs.
      rewrite (lookup_numbered uniq 1 _ x Hnodup Hx). simpl. lia.
Qed.

(** ** findShortestSubArray *)

Lemma to_int_small (z : Z) : (- 2 ^ 31 ≤ z < 2 ^ 31)%Z → to_int z = z.
Proof. intros Hz. unfold to_int. rewrite Z.mod_small; lia. Qed.

Lemma to_int_pred (idx : Z) :
  (0 ≤ idx ≤ 2 ^ 31)%Z → to_int ((idx - 1) mod 2 ^ 64) = (idx - 1)%Z.
Proof.
  intros Hidx. destruct (decide (idx = 0%Z)) as [->|Hne]; [done|].
  rewrite Z.mod_small by lia. apply to_int_small. lia.
Qed.

(** The two closures of [findShortestSubArray] on the shared counter: the
    element at position [i] gets the order key [i - 1] and the value
    [i]. *)
Lemma project_all_spans {Exn} (l : list Z) (idx : Z) :
  (0 ≤ idx)%Z → (idx + Z.of_nat (length l) ≤ 2 ^ 31)%Z →
  project_all (both (pure_proj id) (both span_order span_value)) l idx
  = Ret (Exn := Exn)
        (imap (λ i x, (x, ((idx + Z.of_nat i - 1)%Z, (idx + Z.of_nat i)%Z))) l)
        (idx + Z.of_nat (length l))%Z.
Proof.
  revert idx. induction l as [|x l IH]; intros idx Hidx Hlen; simpl.
  - by rewrite Z.add_0_r.
  - simpl in Hlen. unfold bind at 1.
    unfold both at 1 2, pure_proj at 1, span_order at 1, span_value at 1,
      bind, ret.
    unfold bind, ret in IH.
    rewrite Z.mod_small by lia. rewrite IH by lia.
    rewrite to_int_pred, to_int_small, Z.add_0_r by lia. f_equal.
    + f_equal. apply imap_ext. intros i y _. simpl. do 2 f_equal; lia.
    + lia.
Qed.

(** What [minmax_by] returns to [findShortestSubArray]: for every number
    of the array the first and the last position at which it occurs. *)
Lemma spans_lookup (nums : list Z) :
  (Z.of_nat (length nums) < 2 ^ 31)%Z →
  ∃ spans,
    minmax_by nums (pure_proj id) span_value span_order Z.ltb 0 0%Z
    = Ret (Exn := std_exception) spans (Z.of_nat (length nums))
    ∧ ∀ x, x ∈ nums →
        ∃ mm (i j : nat),
          spans !! x = Some mm
          ∧ min mm = Z.of_nat i ∧ max mm = Z.of_nat j
          ∧ nums !! i = Some x ∧ nums !! j = Some x
          ∧ covers nums x i j.
Proof.
  intros Hlen. unfold minmax_by. eexists. split.
  { rewrite extrema_by_project. unfold bind.
    rewrite project_all_spans by lia. unfold ret. by rewrite Z.add_0_l. }
  intros x Hx. rewrite lookup_fmap, lookup_foldl_extrema, lookup_empty.
  set (kovs := imap _ nums).
  assert (Hmem : ∀ o v, (o, v) ∈ values_at x kovs ↔
            ∃ p, nums !! p = Some x ∧ o = (Z.of_nat p - 1)%Z ∧ v = Z.of_nat p).
  { intros o v. rewrite elem_of_values_at. unfold kovs.
    rewrite elem_of_lookup_imap. split.
    - intros (p & y & [= -> -> ->] & Hp). exists p. split_and!; [done|lia|lia].
    - intros (p & Hp & -> & ->). exists p, x. split; [|done].
      do 2 f_equal; lia. }
  clearbody kovs. destruct (values_at x kovs) as [|ov ovs] eqn:Hovs.
  { exfalso. apply list_elem_of_lookup in Hx as [p Hp].
    eapply not_elem_of_nil, Hmem. eauto. }
  destruct (extrema_track_first Z.ltb Z_ltb_strict_weak_order ov ovs)
    as (st & jmin & jmax & -> & (Hmin & Hlow & _) & (Hmax & Hhigh & _)).
  simpl.
  pose proof (list_elem_of_lookup_2 _ _ _ Hmin) as (i & Hi & Homin & Hvmin)%Hmem.
  pose proof (list_elem_of_lookup_2 _ _ _ Hmax) as (j & Hj & Homax & Hvmax)%Hmem.
  exists (ExtremaResult (min_value st) (max_value st)), i, j.
  split_and!; [done..|].
  intros p Hp.
  assert (((Z.of_nat p - 1)%Z, Z.of_nat p) ∈ ov :: ovs)
    as [ip Hip]%list_elem_of_lookup by (apply Hmem; eauto).
  pose proof (Hlow _ _ _ Hip). pose proof (Hhigh _ _ _ Hip). lia.
Qed.

Lemma foldl_max_spec {K} (l : list (K * nat)) (d0 : nat) :
  d0 ≤ foldl (λ degree kc, Nat.max degree kc.2) d0 l
  ∧ (∀ kc, kc ∈ l → kc.2 ≤ foldl (λ degree kc, Nat.max degree kc.2) d0 l)
  ∧ (foldl (λ degree kc, Nat.max degree kc.2) d0 l = d0
     ∨ ∃ kc, kc ∈ l ∧ kc.2 = foldl (λ degree kc, Nat.max degree kc.2) d0 l).
Proof.
  revert d0. induction l as [|kc l IH]; intros d0; simpl.
  - split_and!; [done| |by left]. by intros kc ?%elem_of_nil.
  - destruct (IH (Nat.max d0 kc.2)) as (Hle & Hall & Hex). split_and!.
    + lia.
    + intros kc' [->|Hin]%elem_of_cons; [lia|by apply Hall].
    + destruct Hex as [Heq|(kc' & Hin & Heq)].
      * destruct (Nat.max_spec d0 kc.2) as [[_ Hm]|[_ Hm]].
        -- right. exists kc. split; [by left|congruence].
        -- left. congruence.
      * right. exists kc'. split; [by right|done].
Qed.

(** The second loop of [findShortestSubArray] over the frequency map, when
    the map of the spans has every key asked for. *)
Lemma best_loop {St} (spans : gmap Z (extrema_result Z)) (degree : nat)
    (span : Z → Z) (l : list (Z * nat)) (best : Z) (s : St) :
  (∀ kc, kc ∈ l →
     ∃ mm, spans !! kc.1 = Some mm ∧ span kc.1 = (max mm - min mm + 1)%Z) →
  ∃ best',
    for_each (fun best kc =>
                if decide (kc.2 = degree)
                then let* mm := at_key spans kc.1 in
                     ret (Z.min best (max mm - min mm + 1))
                else ret best) l best s
    = Ret best' s
    ∧ (best' ≤ best)%Z
    ∧ (∀ kc, kc ∈ l → kc.2 = degree → (best' ≤ span kc.1)%Z)
    ∧ (best' = best ∨ ∃ kc, kc ∈ l ∧ kc.2 = degree ∧ best' = span kc.1).
Proof.
  set (body := fun (best : Z) (kc : Z * nat) =>
                 if decide (kc.2 = degree)
                 then let* mm := at_key (St := St) spans kc.1 in
                      ret (Z.min best (max mm - min mm + 1))
                 else ret best).
  revert best. induction l as [|kc l IH]; intros best Hspans.
  - exists best. split_and!; [done|done| |by left]. by intros kc ?%elem_of_nil.
  - destruct (Hspans kc) as (mm & Hmm & Hspan); [by left|].
    assert (Hl : ∀ kc, kc ∈ l →
              ∃ mm, spans !! kc.1 = Some mm
                    ∧ span kc.1 = (max mm - min mm + 1)%Z).
    { intros kc' Hin. apply Hspans. by right. }
    change (for_each body (kc :: l) best s)
      with (match body best kc s with
            | Ret a s' => for_each body l a s'
            | Throw e s' => Throw e s'
            end).
    destruct (decide (kc.2 = degree)) as [Hd|Hd].
    + assert (body best kc s = Ret (Z.min best (max mm - min mm + 1)) s) as ->.
      { unfold body. rewrite decide_True by done.
        unfold bind, at_key, ret. by rewrite Hmm. }
      destruct (IH (Z.min best (max mm - min mm + 1)) Hl)
        as (best' & -> & Hle & Hall & Hex).
      exists best'. split_and!; [done|lia| |].
      * intros kc' [->|Hin]%elem_of_cons Hkc'; [lia|by apply Hall].
      * destruct Hex as [Heq|(kc' & Hin & Hkc' & Heq)].
        -- destruct (Z.min_spec best (max mm - min mm + 1)) as [[_ Hm]|[_ Hm]].
           ++ left. congruence.
           ++ right. exists kc. split_and!; [by left|done|congruence].
        -- right. exists kc'. split_and!; [by right|done|done].
    + assert (body best kc s = Ret best s) as ->.
      { unfold body. by rewrite decide_False by done. }
      destruct (IH best Hl) as (best' & -> & Hle & Hall & Hex).
      exists best'. split_and!; [done|done| |].
      * intros kc' [->|Hin]%elem_of_cons Hkc'; [done|by apply Hall].
      * destruct Hex as [Heq|(kc' & Hin & Hkc' & Heq)]; [by left|].
        right. exists kc'. split_and!; [by right|done|done].
Qed.

(** On an array with fewer than [2 ^ 31] elements [findShortestSubArray]
    returns 0 when the array is empty, and otherwise the length of the
    stretch from the first to the last occurrence of one of the numbers
    that occur most often; no stretch that holds every occurrence of such
    a number is shorter. *)
Lemma findShortestSubArray_spans (nums : list Z) :
  (Z.of_nat (length nums) < 2 ^ 31)%Z →
  ∃ best idx,
    findShortestSubArray nums = Ret best idx
    ∧ (nums = [] → best = 0%Z)
    ∧ (nums ≠ [] →
       ∃ x i j, most_frequent x nums
                ∧ nums !! i = Some x ∧ nums !! j = Some x
                ∧ covers nums x i j
                ∧ best = (Z.of_nat j - Z.of_nat i + 1)%Z)
    ∧ (∀ x i j, most_frequent x nums → covers nums x i j →
         (best ≤ Z.of_nat j - Z.of_nat i + 1)%Z).
Proof.
  intros Hlen. destruct (spans_lookup nums Hlen) as (spans & Hrun & Hspans).
  unfold findShortestSubArray. cbv zeta. rewrite run_count_by, list_fmap_id.
  unfold bind at 1. rewrite Hrun.
  set (l := map_to_list (foldl bump ∅ nums)).
  set (degree := foldl (λ degree kc, Nat.max degree kc.2) 0 l).
  set (span := λ x, match spans !! x with
                    | Some mm => (max mm - min mm + 1)%Z
                    | None => 0%Z
                    end).
  assert (Hl : ∀ x c, (x, c) ∈ l ↔ x ∈ nums ∧ c = occurrences x nums).
  { intros x c. unfold l. by rewrite elem_of_map_to_list, lookup_counts_Some. }
  assert (Hspan : ∀ x, x ∈ nums →
            ∃ i j : nat, nums !! i = Some x ∧ nums !! j = Some x
                         ∧ covers nums x i j
                         ∧ span x = (Z.of_nat j - Z.of_nat i + 1)%Z).
  { intros x (mm & i & j & Hmm & Hi & Hj & ? & ? & ?)%Hspans.
    exists i, j. split_and!; [done..|]. unfold span. rewrite Hmm. lia. }
  destruct (foldl_max_spec l 0) as (_ & Hdeg & Hex). fold degree in Hdeg, Hex.
  assert (Hmf : ∀ x, most_frequent x nums ↔ (x, degree) ∈ l).
  { intros x. split.
    - intros [Hx Hmost]. apply Hl. split; [done|].
      pose proof (Hdeg (x, occurrences x nums)) as Hle. simpl in Hle.
      specialize (Hle ltac:(by apply Hl)).
      destruct Hex as [Hz|([y c] & [Hy ->]%Hl & Heq)].
      + lia.
      + simpl in Heq. specialize (Hmost y). lia.
    - intros [Hx Hd]%Hl. split; [done|]. intros y. rewrite <-Hd.
      destruct (decide (y ∈ nums)) as [Hy|Hy].
      + apply (Hdeg (y, occurrences y nums)). by apply Hl.
      + apply occurrences_zero in Hy. lia. }
  destruct (best_loop spans degree span l (to_int (Z.of_nat (length nums)))
              (Z.of_nat (length nums)))
    as (best & Hbest & Hle & Hall & Hwhich).
  { intros [x c] [Hx _]%Hl. simpl.
    destruct (Hspans x Hx) as (mm & _ & _ & Hmm & _). exists mm.
    split; [done|]. unfold span. by rewrite Hmm. }
  rewrite to_int_small in Hbest, Hle, Hwhich |- * by lia.
  exists best, (Z.of_nat (length nums)). split_and!.
  - exact Hbest.
  - intros Hnil. destruct Hwhich as [->|([x c] & [Hx _]%Hl & _)].
    + by rewrite Hnil.
    + rewrite Hnil in Hx. by apply elem_of_nil in Hx.
  - intros Hne.
    assert (∃ x, most_frequent x nums) as [xd Hxd].
    { destruct nums as [|x0 nums']; [done|].
      destruct Hex as [Hz|([y c] & Hin & Heq)].
      - pose proof (Hdeg (x0, occurrences x0 (x0 :: nums'))) as Hle0.
        simpl in Hle0. specialize (Hle0 ltac:(apply Hl; split; [by left|done])).
        rewrite occurrences_cons, decide_True in Hle0 by done. lia.
      - exists y. apply Hmf. simpl in Heq. by rewrite <-Heq. }
    assert (∃ x, most_frequent x nums ∧ best = span x) as (x & Hx & ->).
    { destruct Hwhich as [Heq|([x c] & Hin & Hc & Heq)].
      - exists xd. split; [done|].
        pose proof (Hall (xd, degree)) as Hle'. simpl in Hle'.
        specialize (Hle' ltac:(by apply Hmf) eq_refl).
        destruct (Hspan xd) as (i & j & Hi & Hj & Hcov & Hsp); [apply Hxd|].
        apply lookup_lt_Some in Hj. pose proof (Hcov i Hi). lia.
      - simpl in *. subst c. exists x. split; [by apply Hmf|done]. }
    destruct (Hspan x) as (i & j & Hi & Hj & Hcov & Hsp); [apply Hx|].
    by exists x, i, j.
  - intros x i j Hx Hcov.
    pose proof (Hall (x, degree)) as Hle'. simpl in Hle'.
    specialize (Hle' ltac:(by apply Hmf) eq_refl).
    destruct (Hspan x) as (i' & j' & Hi' & Hj' & _ & Hsp); [apply Hx|].
    pose proof (Hcov i' Hi'). pose proof (Hcov j' Hj'). lia.
Qed.

Lemma degree_of_bounds (nums l : list Z) :
  (∀ x, x ∈ l →
     occurrences x nums ≤ foldr (λ x d, Nat.max (occurrences x nums) d) 0 l)
  ∧ (l ≠ [] →
     ∃ x, x ∈ l
          ∧ occurrences x nums
            = foldr (λ x d, Nat.max (occurrences x nums) d) 0 l).
Proof.
  induction l as [|y l [IHle IHex]]; simpl.
  - split; [by intros x ?%elem_of_nil|done].
  - split.
    + intros x [->|Hx]%elem_of_cons; [lia|]. specialize (IHle x Hx). lia.
    + intros _. destruct l as [|z l].
      * exists y. split; [by left|]. simpl. lia.
      * destruct IHex as (x & Hx & Heq); [done|].
        destruct (Nat.max_spec (occurrences y nums)
                    (foldr (λ x d, Nat.max (occurrences x nums) d) 0 (z :: l)))
          as [[_ Hm]|[_ Hm]]; rewrite Hm.
        -- exists x. split; [by right|done].
        -- exists y. split; [by left|done].
Qed.

Lemma degree_of_spec (nums : list Z) :
  (∀ x, occurrences x nums ≤ degree_of nums)
  ∧ (nums ≠ [] → ∃ x, x ∈ nums ∧ occurrences x nums = degree_of nums).
Proof.
  destruct (degree_of_bounds nums nums) as [Hle Hex]. split; [|done].
  intros x. destruct (decide (x ∈ nums)) as [Hx|Hx]; [by apply Hle|].
  apply occurrences_zero in Hx. lia.
Qed.

Lemma most_frequent_degree (nums : list Z) (x : Z) :
  most_frequent x nums ↔ x ∈ nums ∧ occurrences x nums = degree_of nums.
Proof.
  destruct (degree_of_spec nums) as [Hle Hex]. split.
  - intros [Hx Hmost]. split; [done|].
    destruct Hex as (y & _ & Hy).
    { intros ->. by apply elem_of_nil in Hx. }
    specialize (Hmost y). specialize (Hle x). lia.
  - intros [Hx Heq]. split; [done|]. intros y. rewrite Heq. apply Hle.
Qed.

Lemma occurrences_subarray (x : Z) (nums : list Z) i len :
  occurrences x nums
  = occurrences x (take i nums) + occurrences x (take len (drop i nums))
    + occurrences x (drop (i + len) nums).
Proof.
  rewrite <-(take_drop i nums) at 1. rewrite occurrences_app.
  rewrite <-(take_drop len (drop i nums)) at 1.
  rewrite occurrences_app, drop_drop. lia.
Qed.

Lemma degree_of_subarray (nums : list Z) i len :
  degree_of (take len (drop i nums)) ≤ degree_of nums.
Proof.
  destruct (degree_of_spec (take len (drop i nums))) as [_ Hex].
  destruct (decide (take len (drop i nums) = [])) as [Hempty|Hne].
  { rewrite Hempty. unfold degree_of at 1. simpl. lia. }
  destruct (Hex Hne) as (x & _ & <-).
  pose proof (occurrences_subarray x nums i len).
  destruct (degree_of_spec nums) as [Hle _]. specialize (Hle x). lia.
Qed.

(** A stretch of the array holds every occurrence of [x] exactly when [x]
    occurs in it as often as in the whole array. *)
Lemma covers_subarray (x : Z) (nums : list Z) i len :
  occurrences x (take len (drop i nums)) = occurrences x nums ↔
  ∀ p, nums !! p = Some x → i ≤ p < i + len.
Proof.
  pose proof (occurrences_subarray x nums i len) as Hsplit.
  pose proof (occurrences_zero x (take i nums)) as Hbefore.
  pose proof (occurrences_zero x (drop (i + len) nums)) as Hafter.
  split.
  - intros Heq p Hp.
    assert (x ∉ take i nums) as Hb by (apply Hbefore; lia).
    assert (x ∉ drop (i + len) nums) as Ha by (apply Hafter; lia).
    split.
    + destruct (decide (i ≤ p)) as [|Hlt]; [done|]. exfalso. apply Hb.
      apply elem_of_take. exists p. split; [done|lia].
    + destruct (decide (p < i + len)) as [|Hge]; [done|]. exfalso. apply Ha.
      apply list_elem_of_lookup. exists (p - (i + len)).
      rewrite lookup_drop. by replace (i + len + (p - (i + len))) with p by lia.
  - intros Hcov.
    assert (x ∉ take i nums) as Hb.
    { intros (p & Hp & Hlt)%elem_of_take. specialize (Hcov p Hp). lia. }
    assert (x ∉ drop (i + len) nums) as Ha.
    { intros [p Hp]%list_elem_of_lookup. rewrite lookup_drop in Hp.
      specialize (Hcov _ Hp). lia. }
    apply Hbefore in Hb. apply Hafter in Ha. lia.
Qed.

(** X25. [findShortestSubArray] never reaches the exception of [at].  On an
    array with fewer than [2 ^ 31] elements it returns the length of a
    contiguous stretch of the array that has the degree of the whole
    array, and no stretch with that degree is shorter. *)
Theorem findShortestSubArray_shortest_of_same_degree (nums : list Z) :
  (Z.of_nat (length nums) < 2 ^ 31)%Z →
  ∃ best idx,
    findShortestSubArray nums = Ret best idx
    ∧ (∃ i len, i + len ≤ length nums
                ∧ degree_of (take len (drop i nums)) = degree_of nums
                ∧ best = Z.of_nat len)
    ∧ (∀ i len, degree_of (take len (drop i nums)) = degree_of nums →
         (best ≤ Z.of_nat len)%Z).
Proof.
  intros Hshort.
  destruct (findShortestSubArray_spans nums Hshort)
    as (best & idx & Hrun & Hnil & Hsome & Hall).
  exists best, idx. split; [done|].
  destruct (decide (nums = [])) as [->|Hne].
  { rewrite Hnil by done. split.
    - exists 0, 0. done.
    - intros. lia. }
  split.
  - destruct (Hsome Hne) as (x & i & j & Hx & Hi & Hj & Hcov & ->).
    pose proof (Hcov i Hi) as Hij. apply lookup_lt_Some in Hj.
    exists i, (j - i + 1). split_and!; [lia| |lia].
    apply (anti_symm le); [apply degree_of_subarray|].
    apply most_frequent_degree in Hx as [_ <-].
    destruct (degree_of_spec (take (j - i + 1) (drop i nums))) as [Hle _].
    rewrite <-(Hle x). apply Nat.eq_le_incl. symmetry.
    apply covers_subarray. intros p Hp. specialize (Hcov p Hp). lia.
  - intros i len Hdeg.
    destruct (degree_of_spec nums) as [Hle (y & Hy & Hyd)]; [done|].
    assert (1 ≤ degree_of nums) as Hpos.
    { destruct (decide (occurrences y nums = 0)) as [Hz|?]; [|lia].
      by apply occurrences_zero in Hz. }
    destruct (degree_of_spec (take len (drop i nums))) as [_ Hex].
    destruct Hex as (x & Hx & Hxd).
    { intros Hempty. rewrite Hempty in Hdeg. unfold degree_of at 1 in Hdeg.
      simpl in Hdeg. lia. }
    pose proof (occurrences_subarray x nums i len) as Hsplit.
    assert (Hsame : occurrences x (take len (drop i nums)) = occurrences x nums).
    { specialize (Hle x). lia. }
    assert (Hin : x ∈ nums).
    { destruct (decide (x ∈ nums)) as [|Hout]; [done|].
      apply occurrences_zero in Hout. lia. }
    assert (1 ≤ len) as Hlen.
    { destruct len; [|lia]. rewrite take_0 in Hx. by apply elem_of_nil in Hx. }
    pose proof (proj1 (covers_subarray x nums i len) Hsame) as Hcov.
    assert (Hmost : most_frequent x nums).
    { apply most_frequent_degree. split; [done|lia]. }
    pose proof (Hall x i (i + len - 1) Hmost) as Hbest.
    assert (covers nums x i (i + len - 1)) as Hc.
    { intros p Hp. specialize (Hcov p Hp). lia. }
    specialize (Hbest Hc). lia.
Qed.

(** * The further properties on the test data *)

(** A reducer that keeps the larger of the accumulator and the value. *)
Lemma group_reduce_by_folds_each_key_witness :
  project_all (St := unit) (Exn := unit)
    (both (pure_proj fst) (pure_proj snd)) scores tt = Ret scores tt
  ∧ ∃ out : gmap string Z,
      group_reduce_by (St := unit) (Exn := unit) scores
        (pure_proj fst) (pure_proj snd) 0%Z (λ acc v, ret (Z.max acc v)) 0 tt
      = Ret out tt
      ∧ ∀ k, out !! k = match values_at k scores with
                        | [] => None
                        | vs => Some (foldl Z.max 0%Z vs)
                        end.
Proof.
  split; [reflexivity|].
  apply (group_reduce_by_folds_each_key (St := unit) (Exn := unit) scores
           (pure_proj fst) (pure_proj snd) 0%Z Z.max 0 tt scores tt).
  reflexivity.
Defined.

Lemma transform_reduce_by_folds_then_finalizes_witness :
  (∀ acc v s0, combine positive_sum_traits acc v s0 = Ret (acc + v)%Z s0)
  ∧ project_all (St := unit) (Exn := unit)
      (both (pure_proj fst) (pure_proj snd)) scores tt = Ret scores tt
  ∧ ∃ out : gmap string bool,
      transform_reduce_by scores (pure_proj fst) (pure_proj snd)
                          positive_sum_traits 0 tt = Ret out tt
      ∧ ∀ k, out !! k
             = match values_at k scores with
               | [] => None
               | vs => Some (finish (finalize positive_sum_traits)
                               (foldl Z.add (identity positive_sum_traits) vs))
               end.
Proof.
  split; [reflexivity|]. split; [reflexivity|].
  apply (transform_reduce_by_folds_then_finalizes scores
           (pure_proj fst) (pure_proj snd) positive_sum_traits Z.add 0 tt
           scores tt);
    reflexivity.
Defined.

(** An accumulator of another type than the values, and one of their
    type. *)
Lemma accumulate_by_init_sums_onto_init_witness :
  project_all (St := unit) (Exn := unit)
    (both (pure_proj fst) (pure_proj snd)) indexed_integers tt
    = Ret indexed_integers tt
  ∧ (∃ out : gmap Z Z,
       accumulate_by_init (St := unit) (Exn := unit) (H0 := plus_index)
         indexed_integers (pure_proj fst) (pure_proj snd) 10%Z 0 tt
       = Ret out tt
       ∧ ∀ k, out !! k = match values_at k indexed_integers with
                         | [] => None
                         | vs => Some (foldl plus_index 10%Z vs)
                         end)
  ∧ project_all (St := unit) (Exn := unit)
      (both (pure_proj fst) (pure_proj snd)) scores tt = Ret scores tt
  ∧ (∃ out : gmap string Z,
       accumulate_by_init (St := unit) (Exn := unit) scores
         (pure_proj fst) (pure_proj snd) 10%Z 0 tt = Ret out tt
       ∧ ∀ k, out !! k = match values_at k scores with
                         | [] => None
                         | vs => Some (foldl Z.add 10%Z vs)
                         end).
Proof.
  split; [reflexivity|]. split; [|split; [reflexivity|]].
  - apply (accumulate_by_init_sums_onto_init (St := unit) (Exn := unit)
             (H0 := plus_index) indexed_integers (pure_proj fst)
             (pure_proj snd) 10%Z 0 tt indexed_integers tt).
    reflexivity.
  - apply (accumulate_by_init_sums_onto_init (St := unit) (Exn := unit)
             scores (pure_proj fst) (pure_proj snd) 10%Z 0 tt scores tt).
    reflexivity.
Defined.

(** [GroupByIntoAppendsToExistingBuckets]-style use: the map already has a
    bucket for one of the keys. *)
Example group_by_into_scores :
  group_by_into (St := unit) (Exn := unit) scores
    (pure_proj fst) (pure_proj snd) {["red" := [7%Z]; "green" := []]} 0 tt
  = Ret {["red" := [7; 3; 5; -1]%Z; "blue" := [2; 4]%Z; "green" := []]} tt.
Proof. reflexivity. Qed.

Lemma group_by_into_appends_in_order_witness :
  project_all (St := unit) (Exn := unit)
    (both (pure_proj fst) (pure_proj snd)) scores tt = Ret scores tt
  ∧ ∃ out : gmap string (list Z),
      group_by_into (St := unit) (Exn := unit) scores
        (pure_proj fst) (pure_proj snd) {["red" := [7%Z]; "green" := []]} 0 tt
      = Ret out tt
      ∧ (∀ k, out !! k
              = match values_at k scores with
                | [] => ({["red" := [7%Z]; "green" := []]} : gmap string (list Z)) !! k
                | vs => Some (default []
                                (({["red" := [7%Z]; "green" := []]}
                                    : gmap string (list Z)) !! k) ++ vs)
                end)
      ∧ total_size out
        = total_size ({["red" := [7%Z]; "green" := []]} : gmap string (list Z))
          + length scores.
Proof.
  split; [reflexivity|].
  apply (group_by_into_appends_in_order (St := unit) (Exn := unit) scores
           (pure_proj fst) (pure_proj snd) _ 0 tt scores tt).
  reflexivity.
Defined.

Lemma group_by_buckets_in_order_witness :
  project_all (St := unit) (Exn := unit)
    (both (pure_proj fst) (pure_proj snd)) scores tt = Ret scores tt
  ∧ ∃ out : gmap string (list Z),
      group_by (St := unit) (Exn := unit) scores
        (pure_proj fst) (pure_proj snd) 0 tt = Ret out tt
      ∧ (∀ k, out !! k = match values_at k scores with
                         | [] => None
                         | vs => Some vs
                         end)
      ∧ total_size out = length scores.
Proof.
  split; [reflexivity|].
  apply (group_by_buckets_in_order (St := unit) (Exn := unit) scores
           (pure_proj fst) (pure_proj snd) 0 tt scores tt).
  reflexivity.
Defined.

Lemma index_by_into_merges_witness :
  project_all (St := unit) (Exn := unit)
    (both (pure_proj fst) (pure_proj snd)) scores tt = Ret scores tt
  ∧ (∃ out : gmap string Z,
       index_by_into (St := unit) (Exn := unit) scores
         (pure_proj fst) (pure_proj snd) {["red" := 0%Z; "green" := 9%Z]}
         (Some true) tt = Ret out tt
       ∧ ∀ k, out !! k
              = match last (values_at k scores) with
                | Some v => Some v
                | None => ({["red" := 0%Z; "green" := 9%Z]} : gmap string Z) !! k
                end)
  ∧ (∃ out : gmap string Z,
       index_by_into (St := unit) (Exn := unit) scores
         (pure_proj fst) (pure_proj snd) {["red" := 0%Z; "green" := 9%Z]}
         (Some false) tt = Ret out tt
       ∧ ∀ k, out !! k
              = match ({["red" := 0%Z; "green" := 9%Z]} : gmap string Z) !! k with
                | Some v => Some v
                | None => head (values_at k scores)
                end).
Proof.
  split; [reflexivity|].
  destruct (index_by_into_merges (St := unit) (Exn := unit) scores
              (pure_proj fst) (pure_proj snd)
              {["red" := 0%Z; "green" := 9%Z]} tt scores tt eq_refl)
    as (Hover & Hkeep & _).
  split; [exact Hover|exact Hkeep].
Defined.

Lemma results_have_one_entry_per_key_witness :
  project_all (St := unit) (Exn := unit)
    (both (pure_proj fst) (pure_proj snd)) scores tt = Ret scores tt
  ∧ length scores.*1 = length scores
  ∧ (∀ overwrite, ∃ out : gmap string Z,
       index_by (St := unit) (Exn := unit) scores
                (pure_proj fst) (pure_proj snd) overwrite tt = Ret out tt
       ∧ keyed_by out scores.*1)
  ∧ (∃ out : gmap string (list Z),
       group_by (St := unit) (Exn := unit) scores
                (pure_proj fst) (pure_proj snd) 0 tt = Ret out tt
       ∧ keyed_by out scores.*1)
  ∧ (∃ out : gmap string Z,
       accumulate_by (St := unit) (Exn := unit) scores
                     (pure_proj fst) (pure_proj snd) 0 tt = Ret out tt
       ∧ keyed_by out scores.*1).
Proof.
  split; [reflexivity|].
  apply (results_have_one_entry_per_key (St := unit) (Exn := unit) scores
           (pure_proj fst) (pure_proj snd) 0 tt scores tt).
  reflexivity.
Defined.

Lemma minmax_by_bounds_every_value_witness :
  strict_weak_order Z.ltb
  ∧ ∃ out : gmap string (extrema_result Z),
      minmax_by (St := unit) (Exn := unit) scores
        (pure_proj fst) (pure_proj snd) (pure_proj snd) Z.ltb 0 tt
      = Ret out tt
      ∧ ∀ x, x ∈ scores →
          ∃ res, out !! x.1 = Some res
                 ∧ (x.2 <? min res)%Z = false
                 ∧ (max res <? x.2)%Z = false
                 ∧ (∃ y, y ∈ scores ∧ y.1 = x.1 ∧ y.2 = min res)
                 ∧ (∃ z, z ∈ scores ∧ z.1 = x.1 ∧ z.2 = max res).
Proof.
  split; [exact Z_ltb_strict_weak_order|].
  apply (minmax_by_bounds_every_value (St := unit) (Exn := unit) scores
           fst snd Z.ltb 0 tt Z_ltb_strict_weak_order).
Defined.

Lemma extrema_by_entries_are_attained_witness :
  project_all (St := unit) (Exn := unit)
    (both (pure_proj (λ r : string * Z * Z, r.1.1))
          (both (pure_proj snd) (pure_proj id))) readings tt
    = Ret ((λ r, (r.1.1, (r.2, r))) <$> readings) tt
  ∧ ∃ out,
      extrema_by (St := unit) (Exn := unit) readings
        (pure_proj (λ r, r.1.1)) (pure_proj id) (pure_proj snd) Z.ltb 0 tt
      = Ret out tt
      ∧ keyed_by out ((λ r, (r.1.1, (r.2, r))) <$> readings).*1
      ∧ (∀ k res, out !! k = Some res →
           (∃ o, (k, (o, min res)) ∈ (λ r, (r.1.1, (r.2, r))) <$> readings)
           ∧ (∃ o, (k, (o, max res)) ∈ (λ r, (r.1.1, (r.2, r))) <$> readings))
      ∧ (∀ k o v,
           values_at k ((λ r, (r.1.1, (r.2, r))) <$> readings) = [(o, v)] →
           out !! k = Some (ExtremaResult v v)).
Proof.
  split; [reflexivity|].
  apply (extrema_by_entries_are_attained (St := unit) (Exn := unit)).
  reflexivity.
Defined.

(** The reducer throws on the third of four elements. *)
Lemma group_reduce_by_reducer_error_propagates_witness :
  group_reduce_by [("red", 3); ("blue", 2)]%Z (pure_proj fst) (pure_proj snd)
                  0%Z checked_sum 0 tt
    = Ret {["red" := 3%Z; "blue" := 2%Z]} tt
  ∧ checked_sum (default 0%Z (({["red" := 3%Z; "blue" := 2%Z]}
                                 : gmap string Z) !! "red")) (-1)%Z tt
    = Throw "negative" tt
  ∧ group_reduce_by ([("red", 3); ("blue", 2)] ++ ("red", -1) :: [("blue", 4)])%Z
                    (pure_proj fst) (pure_proj snd) 0%Z checked_sum 0 tt
    = Throw "negative" tt.
Proof.
  split; [reflexivity|]. split; [reflexivity|].
  apply (group_reduce_by_reducer_error_propagates
           [("red", 3); ("blue", 2)]%Z ("red", -1)%Z [("blue", 4)]%Z
           (pure_proj fst) (pure_proj snd) 0%Z checked_sum 0 tt
           {["red" := 3%Z; "blue" := 2%Z]} tt "red" tt (-1)%Z tt
           "negative" tt);
    reflexivity.
Defined.

(** [combine] throws on the third element because of what the
    accumulator of its key holds: on the accumulator of the other key it
    would return. *)
Lemma transform_reduce_by_combine_error_propagates_witness :
  transform_reduce_by [("red", 7); ("blue", 2)]%Z (pure_proj fst)
                      (pure_proj snd) (without_finalize bounded_sum_traits)
                      0 tt
    = Ret {["red" := 7%Z; "blue" := 2%Z]} tt
  ∧ combine bounded_sum_traits
      (default (identity bounded_sum_traits)
         (({["red" := 7%Z; "blue" := 2%Z]} : gmap string Z) !! "red"))
      5%Z tt
    = Throw "overflow" tt
  ∧ combine bounded_sum_traits 2%Z 5%Z tt = Ret 7%Z tt
  ∧ transform_reduce_by
      ([("red", 7); ("blue", 2)] ++ ("red", 5) :: [("blue", 4)])%Z
      (pure_proj fst) (pure_proj snd) bounded_sum_traits 0 tt
    = Throw "overflow" tt.
Proof.
  split; [reflexivity|]. split; [reflexivity|]. split; [reflexivity|].
  apply (transform_reduce_by_combine_error_propagates
           [("red", 7); ("blue", 2)]%Z ("red", 5)%Z [("blue", 4)]%Z
           (pure_proj fst) (pure_proj snd) bounded_sum_traits 0 tt
           {["red" := 7%Z; "blue" := 2%Z]} tt "red" tt 5%Z tt
           "overflow" tt);
    reflexivity.
Defined.

(** The projection throws on the third of four elements: the calls made
    for the first two and the one that throws are logged. *)
Lemma calls_before_an_exception_are_a_prefix_witness :
  (∃ l, l `prefix_of` concat ((λ x, [CallKey x]) <$> [1; 2; -1; 3]%Z)
        ∧ count_by [1; 2; -1; 3]%Z (traced CallKey non_negative) 0 (tt, [])
          = Throw "negative" (tt, [] ++ l))
  ∧ (∃ l, l `prefix_of` concat ((λ x, [CallPred x; CallValue x])
                                  <$> [1; 2; -1; 3]%Z)
          ∧ partition_by [1; 2; -1; 3]%Z (traced CallPred (pure_proj Z.even))
                         (traced CallValue non_negative) (tt, [])
            = Throw "negative" (tt, [] ++ l)).
Proof.
  destruct (calls_before_an_exception_are_a_prefix (K := Z) [1; 2; -1; 3]%Z
              non_negative non_negative (pure_proj id) (pure_proj Z.even)
              0%Z (λ acc v, ret (acc + v)%Z) sum_traits Z.ltb ∅ ∅ None 0
              tt [])
    as (Hcount & _ & _ & _ & _ & _ & Hpartition).
  split.
  - exact (Hcount _ _ eq_refl).
  - exact (Hpartition _ _ eq_refl).
Defined.

Lemma to_sorted_pairs_keeps_the_map_witness :
  strict_weak_order (value_desc_key_asc (K := Z) (V := nat))
  ∧ to_sorted_pairs frequencies value_desc_key_asc ≡ₚ map_to_list frequencies
  ∧ is_sorted value_desc_key_asc
              (to_sorted_pairs frequencies value_desc_key_asc)
  ∧ list_to_map (to_sorted_pairs frequencies value_desc_key_asc) = frequencies
  ∧ (∀ k v, (k, v) ∈ to_sorted_pairs frequencies value_desc_key_asc ↔
            frequencies !! k = Some v)
  ∧ NoDup (to_sorted_pairs frequencies value_desc_key_asc).*1
  ∧ length (to_sorted_pairs frequencies value_desc_key_asc) = size frequencies.
Proof.
  pose proof (strict_total_strict_weak_order _
                (value_desc_key_asc_strict_total
                   Z_less_strict_total nat_less_strict_total)) as Hswo.
  split; [exact Hswo|].
  exact (to_sorted_pairs_keeps_the_map frequencies value_desc_key_asc Hswo).
Defined.

Lemma top_k_is_a_slice_of_the_map_witness :
  strict_weak_order (value_desc_key_asc (K := Z) (V := nat))
  ∧ size frequencies ≤ 9
  ∧ top_k frequencies 9 value_desc_key_asc
    = to_sorted_pairs frequencies value_desc_key_asc
  ∧ is_sorted value_desc_key_asc (top_k frequencies 2 value_desc_key_asc)
  ∧ length (top_k frequencies 2 value_desc_key_asc)
    = Nat.min 2 (size frequencies)
  ∧ (∀ i v, (i, v) ∈ top_k frequencies 2 value_desc_key_asc →
       frequencies !! i = Some v).
Proof.
  pose proof (strict_total_strict_weak_order _
                (value_desc_key_asc_strict_total
                   Z_less_strict_total nat_less_strict_total)) as Hswo.
  assert (Hsize : size frequencies ≤ 9) by (vm_compute; lia).
  destruct (top_k_is_a_slice_of_the_map frequencies 9 value_desc_key_asc Hswo)
    as (_ & _ & _ & _ & Hall & _).
  destruct (top_k_is_a_slice_of_the_map frequencies 2 value_desc_key_asc Hswo)
    as (_ & Hsorted & Hlen & _ & _ & Hin & _).
  split; [exact Hswo|]. split; [exact Hsize|]. split; [exact (Hall Hsize)|].
  split; [exact Hsorted|]. split; [exact Hlen|exact Hin].
Defined.

Lemma top_k_keeps_the_best_witness :
  strict_total (value_desc_key_asc (K := Z) (V := nat))
  ∧ is_sorted value_desc_key_asc (top_k frequencies 2 value_desc_key_asc)
  ∧ (∀ a b, a ∈ top_k frequencies 2 value_desc_key_asc →
       b ∈ map_to_list frequencies →
       b ∉ top_k frequencies 2 value_desc_key_asc →
       value_desc_key_asc a b = true)
  ∧ top_k (list_to_map (top_k frequencies 2 value_desc_key_asc) : gmap Z nat)
          2 value_desc_key_asc
    = top_k frequencies 2 value_desc_key_asc.
Proof.
  pose proof (value_desc_key_asc_strict_total
                Z_less_strict_total nat_less_strict_total) as Hcmp.
  split; [exact Hcmp|].
  exact (top_k_keeps_the_best _ Hcmp frequencies 2).
Defined.

Lemma ready_made_slices_keep_the_extremes_witness :
  strict_total (less (T := Z))
  ∧ strict_total (less (T := nat))
  ∧ (∀ i1 v1 i2 v2,
       (i1, v1) ∈ top_k_by_value frequencies 2 →
       frequencies !! i2 = Some v2 →
       (i2, v2) ∉ top_k_by_value frequencies 2 → less v1 v2 = false)
  ∧ (∀ i1 v1 i2 v2,
       (i1, v1) ∈ bottom_k_by_value frequencies 2 →
       frequencies !! i2 = Some v2 →
       (i2, v2) ∉ bottom_k_by_value frequencies 2 → less v2 v1 = false)
  ∧ (∀ i1 v1 i2 v2,
       (i1, v1) ∈ top_k_by_key frequencies 2 →
       frequencies !! i2 = Some v2 →
       (i2, v2) ∉ top_k_by_key frequencies 2 → less i1 i2 = true)
  ∧ bottom_k_by_value (list_to_map (bottom_k_by_value frequencies 2)
                         : gmap Z nat) 2
    = bottom_k_by_value frequencies 2
  ∧ top_k_by_key (list_to_map (top_k_by_key frequencies 2) : gmap Z nat) 2
    = top_k_by_key frequencies 2.
Proof.
  pose proof Z_less_strict_total as HZ.
  pose proof nat_less_strict_total as Hnat.
  split; [exact HZ|]. split; [exact Hnat|].
  exact (ready_made_slices_keep_the_extremes HZ Hnat frequencies 2).
Defined.

Lemma top_k_by_key_ascends_witness :
  strict_total (less (T := Z))
  ∧ top_k_by_key frequencies 3 = top_k frequencies 3 key_asc
  ∧ StronglySorted (λ i1 i2, less i1 i2 = true) (top_k_by_key frequencies 3).*1
  ∧ (∀ i1 v1 i2 v2,
       (i1, v1) ∈ top_k_by_key frequencies 3 →
       frequencies !! i2 = Some v2 →
       (i2, v2) ∉ top_k_by_key frequencies 3 → less i1 i2 = true).
Proof.
  pose proof Z_less_strict_total as HZ.
  split; [exact HZ|].
  exact (top_k_by_key_ascends HZ frequencies 3).
Defined.

(** The programs on the inputs of their [main] and of the tests
    [LC0242_ValidAnagram], [LC0350_IntersectionWithMultiplicity],
    [LC0347_TopKFrequent], [LC0049_GroupAnagrams], [LC1331_RankTransform]
    and [LC0697_DegreeOfArray]. *)
Example isAnagram_main :
  isAnagram (String.list_ascii_of_string "anagram")
            (String.list_ascii_of_string "nagaram") = true
  ∧ isAnagram (String.list_ascii_of_string "rat")
              (String.list_ascii_of_string "car") = false.
Proof. split; vm_compute; reflexivity. Qed.

Example intersect_main : intersect [1; 2; 2; 1]%Z [2; 2]%Z = [2; 2]%Z.
Proof. reflexivity. Qed.

Example topKFrequent_main : topKFrequent [1; 1; 1; 2; 2; 3]%Z 2 = [1; 2]%Z.
Proof. reflexivity. Qed.

Example groupAnagrams_main :
  length (concat (groupAnagrams ascii_less anagram_words))
  = length anagram_words
  ∧ ∀ bucket, bucket ∈ groupAnagrams ascii_less anagram_words ↔
      bucket ∈ [String.list_ascii_of_string <$> ["eat"; "tea"; "ate"];
                String.list_ascii_of_string <$> ["tan"; "nat"];
                String.list_ascii_of_string <$> ["bat"]].
Proof.
  split; [vm_compute; reflexivity|].
  assert (groupAnagrams ascii_less anagram_words
          ≡ₚ [String.list_ascii_of_string <$> ["eat"; "tea"; "ate"];
              String.list_ascii_of_string <$> ["tan"; "nat"];
              String.list_ascii_of_string <$> ["bat"]]) as Hperm
    by compute_done.
  intros bucket. by rewrite Hperm.
Qed.

Example arrayRankTransform_main :
  arrayRankTransform [40; 10; 20; 30]%Z = Ret [4; 1; 2; 3]%Z 5%Z.
Proof. reflexivity. Qed.

Example findShortestSubArray_main :
  findShortestSubArray [1; 2; 2; 3; 1; 4; 2]%Z = Ret 6%Z 7%Z.
Proof. vm_compute. reflexivity. Qed.

Lemma topKFrequent_returns_the_most_frequent_witness :
  (1%Z ∈ topKFrequent [1; 1; 1; 2; 2; 3]%Z 2
   ∧ 3%Z ∈ [1; 1; 1; 2; 2; 3]%Z
   ∧ 3%Z ∉ topKFrequent [1; 1; 1; 2; 2; 3]%Z 2)
  ∧ occurrences 3%Z [1; 1; 1; 2; 2; 3]%Z ≤ occurrences 1%Z [1; 1; 1; 2; 2; 3]%Z.
Proof.
  assert (Hhyp : 1%Z ∈ topKFrequent [1; 1; 1; 2; 2; 3]%Z 2
                 ∧ 3%Z ∈ [1; 1; 1; 2; 2; 3]%Z
                 ∧ 3%Z ∉ topKFrequent [1; 1; 1; 2; 2; 3]%Z 2)
    by (split_and!; compute_done).
  split; [exact Hhyp|].
  destruct Hhyp as (Hin & Hnum & Hout).
  destruct (topKFrequent_returns_the_most_frequent [1; 1; 1; 2; 2; 3]%Z 2)
    as (_ & _ & _ & Hmost).
  exact (Hmost _ _ Hin Hnum Hout).
Defined.

Lemma ascii_less_strict_total : strict_total ascii_less.
Proof.
  unfold ascii_less. split.
  - intros a. apply N.ltb_irrefl.
  - intros a b c. rewrite !N.ltb_lt. lia.
  - intros a b. rewrite !N.ltb_lt.
    destruct (N.lt_trichotomy (Ascii.N_of_ascii a) (Ascii.N_of_ascii b))
      as [?|[Heq|?]]; [by right; left| |by right; right].
    left. by rewrite <-(Ascii.ascii_N_embedding a), Heq, Ascii.ascii_N_embedding.
Qed.

Lemma groupAnagrams_groups_rearrangements_witness :
  strict_total ascii_less
  ∧ (String.list_ascii_of_string "eat" ∈ anagram_words
     ∧ String.list_ascii_of_string "tea" ∈ anagram_words
     ∧ String.list_ascii_of_string "eat" ≡ₚ String.list_ascii_of_string "tea")
  ∧ ∃ bucket, bucket ∈ groupAnagrams ascii_less anagram_words
              ∧ String.list_ascii_of_string "eat" ∈ bucket
              ∧ String.list_ascii_of_string "tea" ∈ bucket.
Proof.
  pose proof ascii_less_strict_total as Hless.
  assert (Hhyp : String.list_ascii_of_string "eat" ∈ anagram_words
                 ∧ String.list_ascii_of_string "tea" ∈ anagram_words
                 ∧ String.list_ascii_of_string "eat"
                   ≡ₚ String.list_ascii_of_string "tea")
    by (split_and!; compute_done).
  split; [exact Hless|]. split; [exact Hhyp|].
  destruct Hhyp as (Hw1 & Hw2 & Hperm).
  destruct (groupAnagrams_groups_rearrangements ascii_less anagram_words)
    as (_ & _ & _ & Hsame).
  exact (Hsame Hless _ _ Hw1 Hw2 Hperm).
Defined.

Lemma arrayRankTransform_ranks_by_order_witness :
  (Z.of_nat (length [40; 10; 20; 30]%Z) < 2 ^ 31 - 1)%Z
  ∧ ∃ out next,
      arrayRankTransform [40; 10; 20; 30]%Z = Ret out next
      ∧ (next ≤ 2 ^ 31 - 1)%Z
      ∧ length out = length [40; 10; 20; 30]%Z
      ∧ (∀ i j x y rx ry,
           [40; 10; 20; 30]%Z !! i = Some x → [40; 10; 20; 30]%Z !! j = Some y →
           out !! i = Some rx → out !! j = Some ry →
           (x < y ↔ rx < ry)%Z)
      ∧ (∀ r, r ∈ out ↔
           (1 ≤ r ≤ Z.of_nat (length (remove_dups [40; 10; 20; 30]%Z)))%Z).
Proof.
  assert (Hshort : (Z.of_nat (length [40; 10; 20; 30]%Z) < 2 ^ 31 - 1)%Z)
    by (simpl; lia).
  split; [exact Hshort|].
  exact (arrayRankTransform_ranks_by_order [40; 10; 20; 30]%Z Hshort).
Defined.

Lemma findShortestSubArray_shortest_of_same_degree_witness :
  (Z.of_nat (length [1; 2; 2; 3; 1; 4; 2]%Z) < 2 ^ 31)%Z
  ∧ ∃ best idx,
      findShortestSubArray [1; 2; 2; 3; 1; 4; 2]%Z = Ret best idx
      ∧ (∃ i len,
           i + len ≤ length [1; 2; 2; 3; 1; 4; 2]%Z
           ∧ degree_of (take len (drop i [1; 2; 2; 3; 1; 4; 2]%Z))
             = degree_of [1; 2; 2; 3; 1; 4; 2]%Z
           ∧ best = Z.of_nat len)
      ∧ (∀ i len,
           degree_of (take len (drop i [1; 2; 2; 3; 1; 4; 2]%Z))
           = degree_of [1; 2; 2; 3; 1; 4; 2]%Z →
           (best ≤ Z.of_nat len)%Z).
Proof.
  assert (Hshort : (Z.of_nat (length [1; 2; 2; 3; 1; 4; 2]%Z) < 2 ^ 31)%Z)
    by (simpl; lia).
  split; [exact Hshort|].
  exact (findShortestSubArray_shortest_of_same_degree
           [1; 2; 2; 3; 1; 4; 2]%Z Hshort).
Defined.

